(** * Partial lowering of the Pony dialect to affine loops

    A shallow embedding of [src/pony/mlir/LowerToAffineLoops.cpp]: the
    rewrite patterns that turn tensor operations of the Pony dialect into
    loop nests over explicitly allocated buffers, the conversion target,
    and the pass that drives them.

    The operations of both vocabularies live in one inductive type, as they
    do in one MLIR module while the conversion is under way.  A pattern is a
    computation in a small state-and-abort monad over the rewriter: the state
    is the block being rewritten, split at the insertion point, together with
    the supply of fresh SSA values and the table of replaced values; [Abort]
    stands for an assertion of the C++ code that fires (a failed [cast], an
    out-of-range [operator[]], an iterator read past its end).

    The elements of tensors are [f64] in the source.  Here their type and
    the two scalar operations on them are parameters, so that what is proved
    of the lowered code holds for floating-point numbers without any law of
    arithmetic taken for granted.

    In front of the lowering stand the lexer of [include/pony/Lexer.h] and
    the parts of the driver [ponyc.cpp] that do not go through the parser or
    through MLIR; what is proved of them comes at the end. *)

From stdpp Require Import gmap list strings.
From Stdlib Require Import ZArith Lia.

Set Warnings "-register-all".
Open Scope Z_scope.

(** ** Types and values *)

(** The types a value of the module can have.  [TensorType] and
    [UnrankedTensorType] are the two forms of MLIR's [TensorType]. *)
Inductive MType :=
| TensorType (shape : list Z)
| UnrankedTensorType
| MemRefType (shape : list Z)
| IndexType
| F64Type.

(** [type.isa<TensorType>()] *)
Definition isTensorType (t : MType) : bool :=
  match t with
  | TensorType _ | UnrankedTensorType => true
  | _ => false
  end.

(** An SSA value: its identity and its type. *)
Record Value := mkValue { vid : nat; vtype : MType }.

Inductive LogicalResult := success | failure.

(** The outcome of a computation: a result, an assertion that fired, or the
    step budget of the conversion driver used up. *)
Inductive Res (X : Type) :=
| Ok (x : X)
| Abort
| Exhausted.
Arguments Ok {X} x.
Arguments Abort {X}.
Arguments Exhausted {X}.

(** * The lexer

    A shallow embedding of [include/pony/Lexer.h]: the class [Lexer] with
    its subclass [LexerBuffer], which reads from a buffer in memory.

    A character is the value of a C [char] widened to [int], as
    [getNextChar] returns it, and a token is a value of the enumeration
    [Token], whose underlying type is [int]: both are integers here.  The
    line and column counters are [int]s that only count up; their overflow
    is undefined in C++ and they are unbounded here.  What the lexer writes
    to [llvm::outs()] and [llvm::errs()] is kept in the state, one item per
    operand of [<<]. *)

(** [EOF] of the C library. *)
Definition EOF : Z := -1.

(** The classification of characters by [<cctype>] in the C locale, which is
    the locale of a program that never calls [setlocale].  On an argument
    that is neither [EOF] nor the value of an [unsigned char] the functions
    are undefined in C; here they answer no. *)
Definition isdigit (c : Z) : bool := (48 <=? c) && (c <=? 57).

Definition isalpha (c : Z) : bool :=
  ((65 <=? c) && (c <=? 90)) || ((97 <=? c) && (c <=? 122)).

Definition isalnum (c : Z) : bool := isalpha c || isdigit c.

Definition isspace (c : Z) : bool := (c =? 32) || ((9 <=? c) && (c <=? 13)).

(** The string that holds one newline. *)
Definition newline : string := String (Ascii.ascii_of_nat 10) EmptyString.

(** The characters of a string literal. *)
Definition chars (s : string) : list Z :=
  map (fun a => Z.of_nat (Ascii.nat_of_ascii a)) (String.list_ascii_of_string s).

(** ** Tokens *)

Definition Token : Type := Z.

Definition tok_semicolon : Token := 59.
Definition tok_parenthese_open : Token := 40.
Definition tok_parenthese_close : Token := 41.
Definition tok_bracket_open : Token := 123.
Definition tok_bracket_close : Token := 125.
Definition tok_sbracket_open : Token := 91.
Definition tok_sbracket_close : Token := 93.
Definition tok_comma : Token := 44.
Definition tok_eof : Token := -1.
Definition tok_return : Token := -2.
Definition tok_var : Token := -3.
Definition tok_def : Token := -4.
Definition tok_identifier : Token := -5.
Definition tok_number : Token := -6.
Definition error : Token := -7.

(** A location in a file. *)
Record Location := mkLocation {
  file : string;
  line : Z;
  col : Z
}.

(** One operand of [<<] on an output stream. *)
Inductive Out :=
| OutStr (s : string)
| OutChars (cs : list Z)
| OutChar (c : Z)
| OutInt (n : Z).

Section Lexing.

(** The type [double], and [strtod] of the C library on the characters of a
    string. *)
Context {double : Type}.
Context (strtod : list Z -> double).

(** ** The state of a lexer

    The members of [Lexer], then the part of the buffer of a [LexerBuffer]
    that lies between [current] and [end], then the two output streams.  The
    byte at [end] itself is the terminating zero of the memory buffer. *)
Record Lexer := mkLexer {
  recordedTokens : list Token;
  lexHadError : bool;
  curTok : Token;
  lastLocation : Location;
  identifierStr : list Z;
  numVal : double;
  lastChar : Token;
  curLineNum : Z;
  curCol : Z;
  curLineBuffer : list Z;
  current : list Z;
  outs : list Out;
  errs : list Out
}.

Definition set_recordedTokens (st : Lexer) (x : list Token) : Lexer :=
  mkLexer x (lexHadError st) (curTok st) (lastLocation st) (identifierStr st)
          (numVal st) (lastChar st) (curLineNum st) (curCol st) (curLineBuffer st)
          (current st) (outs st) (errs st).

Definition set_lexHadError (st : Lexer) (x : bool) : Lexer :=
  mkLexer (recordedTokens st) x (curTok st) (lastLocation st) (identifierStr st)
          (numVal st) (lastChar st) (curLineNum st) (curCol st) (curLineBuffer st)
          (current st) (outs st) (errs st).

Definition set_curTok (st : Lexer) (x : Token) : Lexer :=
  mkLexer (recordedTokens st) (lexHadError st) x (lastLocation st) (identifierStr st)
          (numVal st) (lastChar st) (curLineNum st) (curCol st) (curLineBuffer st)
          (current st) (outs st) (errs st).

Definition set_lastLocation (st : Lexer) (x : Location) : Lexer :=
  mkLexer (recordedTokens st) (lexHadError st) (curTok st) x (identifierStr st)
          (numVal st) (lastChar st) (curLineNum st) (curCol st) (curLineBuffer st)
          (current st) (outs st) (errs st).

Definition set_identifierStr (st : Lexer) (x : list Z) : Lexer :=
  mkLexer (recordedTokens st) (lexHadError st) (curTok st) (lastLocation st) x
          (numVal st) (lastChar st) (curLineNum st) (curCol st) (curLineBuffer st)
          (current st) (outs st) (errs st).

Definition set_numVal (st : Lexer) (x : double) : Lexer :=
  mkLexer (recordedTokens st) (lexHadError st) (curTok st) (lastLocation st)
          (identifierStr st) x (lastChar st) (curLineNum st) (curCol st)
          (curLineBuffer st) (current st) (outs st) (errs st).

Definition set_lastChar (st : Lexer) (x : Token) : Lexer :=
  mkLexer (recordedTokens st) (lexHadError st) (curTok st) (lastLocation st)
          (identifierStr st) (numVal st) x (curLineNum st) (curCol st)
          (curLineBuffer st) (current st) (outs st) (errs st).

Definition write_outs (st : Lexer) (x : list Out) : Lexer :=
  mkLexer (recordedTokens st) (lexHadError st) (curTok st) (lastLocation st)
          (identifierStr st) (numVal st) (lastChar st) (curLineNum st) (curCol st)
          (curLineBuffer st) (current st) (outs st ++ x) (errs st).

Definition write_errs (st : Lexer) (x : list Out) : Lexer :=
  mkLexer (recordedTokens st) (lexHadError st) (curTok st) (lastLocation st)
          (identifierStr st) (numVal st) (lastChar st) (curLineNum st) (curCol st)
          (curLineBuffer st) (current st) (outs st) (errs st ++ x).

(** [recordedTokens.push_back(tok)] *)
Definition record (st : Lexer) (tok : Token) : Lexer :=
  set_recordedTokens st (recordedTokens st ++ [tok]).

(** The constructor of [LexerBuffer] on the bytes from [begin] to [end]. *)
Definition LexerBuffer (buffer : list Z) (filename : string) (zero : double) : Lexer :=
  mkLexer [] false tok_eof (mkLocation filename 0 0) [] zero 32 0 0 (chars newline)
          buffer [] [].

(** ** Reading characters *)

(** [LexerBuffer::readNextLine]: the line that starts at [current], its
    newline included, and what is left of the buffer behind it.  A zero
    byte ends the line and is not stepped over. *)
Fixpoint readNextLine (current : list Z) : list Z * list Z :=
  match current with
  | [] => ([], [])
  | c :: current' =>
      if c =? 0 then ([], current)
      else if c =? 10 then ([c], current')
      else let '(line, rest) := readNextLine current' in (c :: line, rest)
  end.

(** [Lexer::getNextChar]: when the line buffer is empty the next line is
    loaded first, and at the end of the input [EOF] is returned; the
    character is then taken off the front of the line buffer. *)
Definition getNextChar (st : Lexer) : Z * Lexer :=
  match curLineBuffer st with
  | c :: buffer' =>
      (c, mkLexer (recordedTokens st) (lexHadError st) (curTok st)
                  (lastLocation st) (identifierStr st) (numVal st)
                  (lastChar st) (curLineNum st) (curCol st + 1) buffer'
                  (current st) (outs st) (errs st))
  | [] =>
      (* If buffer is empty, read next line *)
      let '(nextLine, current') := readNextLine (current st) in
      match nextLine with
      | [] =>
          (* End of file *)
          (EOF, mkLexer (recordedTokens st) (lexHadError st) (curTok st)
                        (lastLocation st) (identifierStr st) (numVal st)
                        (lastChar st) (curLineNum st) (curCol st) []
                        current' (outs st) (errs st))
      | c :: buffer' =>
          (* Load new line, consume next character *)
          (c, mkLexer (recordedTokens st) (lexHadError st) (curTok st)
                      (lastLocation st) (identifierStr st) (numVal st)
                      (lastChar st) (curLineNum st + 1) (0 + 1) buffer'
                      current' (outs st) (errs st))
      end
  end.

(** [lastChar = Token(getNextChar())] *)
Definition nextChar (st : Lexer) : Lexer :=
  let '(c, st') := getNextChar st in set_lastChar st' c.

(** ** [getTok]

    The loops of [getTok] run on a step budget: each one stops with [None]
    when it is used up. *)

(** [while (isspace(lastChar)) lastChar = Token(getNextChar());] *)
Fixpoint skipSpaces (fuel : nat) (st : Lexer) : option Lexer :=
  match fuel with
  | O => None
  | S fuel' =>
      if isspace (lastChar st) then skipSpaces fuel' (nextChar st) else Some st
  end.

(** The loop that reads the rest of an identifier with two digits in a row. *)
Fixpoint skipIdentifier (fuel : nat) (idStr : list Z) (st : Lexer)
    : option (list Z * Lexer) :=
  match fuel with
  | O => None
  | S fuel' =>
      if isalpha (lastChar st) || isdigit (lastChar st) || (lastChar st =? 95)
      then skipIdentifier fuel' (idStr ++ [lastChar st]) (nextChar st)
      else Some (idStr, st)
  end.

(** The loop that reads an identifier.  The result is [inl] when [getTok]
    returns [Token::error] from inside the loop, and [inr] with the
    characters read when the loop comes to its end. *)
Fixpoint readIdentifier (fuel : nat) (idStr : list Z) (prevDigit : bool)
    (st : Lexer) : option (Lexer + list Z * Lexer) :=
  match fuel with
  | O => None
  | S fuel' =>
      if isalnum (lastChar st) || (lastChar st =? 95) then
        if isdigit (lastChar st) && prevDigit then
          match skipIdentifier fuel (idStr) (set_lexHadError st true) with
          | Some (_, st1) =>
              Some (inl (write_errs st1
                           [OutInt (curLineNum st1); OutStr ":"; OutInt (curCol st1);
                            OutStr ": ";
                            OutStr "ERROR: continuous digits in identifier. "]))
          | None => None
          end
        else
          readIdentifier fuel' (idStr ++ [lastChar st]) (isdigit (lastChar st))
            (nextChar st)
      else Some (inr (idStr, st))
  end.

(** The loop that reads a number; [error] is the flag of that name. *)
Fixpoint readNumber (fuel : nat) (numStr : list Z) (seenDot prevDot error : bool)
    (st : Lexer) : option (list Z * bool * Lexer) :=
  match fuel with
  | O => None
  | S fuel' =>
      if isdigit (lastChar st) || (lastChar st =? 46) then
        if lastChar st =? 46 then
          readNumber fuel' (numStr ++ [lastChar st]) true true
            (error || seenDot || prevDot) (nextChar st)
        else
          readNumber fuel' (numStr ++ [lastChar st]) seenDot false error (nextChar st)
      else Some (numStr, error, st)
  end.

(** The loop that skips a comment:
    [do lastChar = Token(getNextChar());
     while (lastChar != EOF && lastChar != '\n' && lastChar != '\r');] *)
Fixpoint skipComment (fuel : nat) (st : Lexer) : option Lexer :=
  match fuel with
  | O => None
  | S fuel' =>
      let st' := nextChar st in
      if negb (lastChar st' =? EOF) && negb (lastChar st' =? 10)
         && negb (lastChar st' =? 13)
      then skipComment fuel' st'
      else Some st'
  end.

(** The end of [getTok], from the check for the end of the file on. *)
Definition lexCharacter (st : Lexer) : Token * Lexer :=
  if lastChar st =? EOF then
    (* Check for end of file.  Don't eat the EOF. *)
    (tok_eof, write_outs (record st tok_eof) [OutStr ("EOF" ++ newline)])
  else
    let st1 := write_outs st [OutStr ""; OutChar (lastChar st); OutStr " "] in
    let single (tok : Token) := (tok, nextChar (record st1 tok)) in
    if lastChar st =? 59 then single tok_semicolon
    else if lastChar st =? 40 then single tok_parenthese_open
    else if lastChar st =? 41 then single tok_parenthese_close
    else if lastChar st =? 123 then single tok_bracket_open
    else if lastChar st =? 125 then single tok_bracket_close
    else if lastChar st =? 91 then single tok_sbracket_open
    else if lastChar st =? 93 then single tok_sbracket_close
    else if lastChar st =? 44 then single tok_comma
    else
      (* Otherwise, just return the character as its ascii value. *)
      let thisChar := lastChar st in
      (thisChar, record (nextChar st1) thisChar).

(** The keyword an identifier spells, or [tok_identifier]. *)
Definition keyword (idStr : list Z) : Token :=
  if decide (idStr = chars "return") then tok_return
  else if decide (idStr = chars "var") then tok_var
  else if decide (idStr = chars "def") then tok_def
  else tok_identifier.

(** The part of [getTok] behind the skipping of whitespace: the token that
    starts at [lastChar].  [getTok] stands for the call of the function by
    itself behind a comment. *)
Definition lexToken (getTok : Lexer -> option (Token * Lexer)) (fuel : nat)
    (st : Lexer) : option (Token * Lexer) :=
  if isalpha (lastChar st) || (lastChar st =? 95) then
    (* Identifier and keyword recognition *)
    match readIdentifier fuel [] false st with
    | None => None
    | Some (inl st1) => Some (error, st1)
    | Some (inr (idStr, st1)) =>
        let st2 := set_identifierStr st1 idStr in
        let st3 := write_outs st2 [OutStr ""; OutChars idStr; OutStr " "] in
        Some (keyword idStr, record st3 (keyword idStr))
    end
  else if isdigit (lastChar st) || (lastChar st =? 46) then
    match readNumber fuel [] false false (lastChar st =? 46) st with
    | None => None
    | Some (numStr, err, st1) =>
        match last numStr with
        | None => None
        | Some back =>
            if err || negb (isdigit back) then
              let st2 := set_lexHadError st1 true in
              Some (error,
                    write_errs st2
                      [OutInt (curLineNum st2); OutStr ":"; OutInt (curCol st2);
                       OutStr ": "; OutStr "Illegal number format"; OutStr " "])
            else
              let st2 := set_numVal st1 (strtod numStr) in
              let st3 := write_outs st2 [OutStr ""; OutChars numStr; OutStr " "] in
              Some (tok_number, record st3 tok_number)
        end
    end
  else if lastChar st =? 35 then
    (* Comment until end of line. *)
    match skipComment fuel st with
    | None => None
    | Some st1 =>
        if negb (lastChar st1 =? EOF) then getTok st1
        else Some (lexCharacter st1)
    end
  else Some (lexCharacter st).

(** [Lexer::getTok] on a step budget. *)
Fixpoint getTok_fuel (fuel : nat) (st : Lexer) : option (Token * Lexer) :=
  match fuel with
  | O => None
  | S fuel' =>
      (* Skip any whitespace. *)
      match skipSpaces fuel st with
      | None => None
      | Some st =>
          (* Save the current location before reading the token characters. *)
          lexToken (getTok_fuel fuel') fuel
            (set_lastLocation st
               (mkLocation (file (lastLocation st)) (curLineNum st) (curCol st)))
      end
  end.

(** A budget that no run of [getTok] uses up: every round of a loop but
    the last of each takes a character of the input. *)
Definition budget (st : Lexer) : nat :=
  S (S (length (curLineBuffer st) + length (current st))).

(** [Lexer::getTok] *)
Definition getTok (st : Lexer) : option (Token * Lexer) :=
  getTok_fuel (budget st) st.

(** ** The interface of the lexer *)

Definition getCurToken (st : Lexer) : Token := curTok st.

(** [Lexer::getNextToken]: [return curTok = getTok();] *)
Definition getNextToken (st : Lexer) : option (Token * Lexer) :=
  match getTok st with
  | Some (tok, st') => Some (tok, set_curTok st' tok)
  | None => None
  end.

(** [Lexer::consume]: asserts that the current token is the expected one. *)
Definition consume (tok : Token) (st : Lexer) : option Lexer :=
  if tok =? curTok st then
    match getNextToken st with
    | Some (_, st') => Some st'
    | None => None
    end
  else None.

(** [Lexer::getId], [Lexer::getValue]: each asserts the kind of the current
    token. *)
Definition getId (st : Lexer) : option (list Z) :=
  if curTok st =? tok_identifier then Some (identifierStr st) else None.

Definition getValue (st : Lexer) : option double :=
  if curTok st =? tok_number then Some (numVal st) else None.

Definition getLine (st : Lexer) : Z := curLineNum st.
Definition getCol (st : Lexer) : Z := curCol st.
Definition getRecordedTokens (st : Lexer) : list Token := recordedTokens st.
Definition hadLexError (st : Lexer) : bool := lexHadError st.

(** ** Statements' vocabulary *)

(** The characters the lexer has not read yet: what is left of the current
    line, then the buffer up to its end or to the first zero byte. *)
Fixpoint untilNul (l : list Z) : list Z :=
  match l with
  | [] => []
  | c :: l' => if c =? 0 then [] else c :: untilNul l'
  end.

Definition pending (st : Lexer) : list Z :=
  curLineBuffer st ++ untilNul (current st).

(** The lexer is about to read the characters [l]: the first of them is the
    one it holds in [lastChar], the others are pending; with no character
    left it holds [EOF]. *)
Definition reads (st : Lexer) (l : list Z) : Prop :=
  lastChar st = hd EOF l /\ pending st = tl l.

(** Two states of a lexer that differ at most in the position in the
    input. *)
Definition agree (st st' : Lexer) : Prop :=
  recordedTokens st' = recordedTokens st /\ lexHadError st' = lexHadError st /\
  curTok st' = curTok st /\ identifierStr st' = identifierStr st /\
  numVal st' = numVal st /\ lastLocation st' = lastLocation st /\
  outs st' = outs st /\ errs st' = errs st.

(** [st'] is [st] after an error was reported: the error flag is set and
    something was written to the error stream. *)
Definition flagged (st st' : Lexer) : Prop :=
  recordedTokens st' = recordedTokens st /\ lexHadError st' = true /\
  curTok st' = curTok st /\ identifierStr st' = identifierStr st /\
  numVal st' = numVal st /\ lastLocation st' = lastLocation st /\
  outs st' = outs st.

(** A character inside a comment: the comment ends at a line break or at
    the end of the input. *)
Definition notEol (c : Z) : bool :=
  negb (c =? EOF) && negb (c =? 10) && negb (c =? 13).

(** The number of characters left, the one in [lastChar] included. *)
Definition work (st : Lexer) : nat :=
  (length (curLineBuffer st) + length (current st) +
   if Z.eqb (lastChar st) EOF then 0 else 1)%nat.

(** What one call of [getTok] that returns [tok] does: it takes characters
    off the input unless it returns [tok_eof], which it does at the end of
    the input only; it leaves [curTok] alone; and either it returns
    [Token::error], sets the error flag and records nothing, or it records
    the token it returns and leaves the flag alone. *)
Definition tokenStep (st : Lexer) (tok : Token) (st' : Lexer) : Prop :=
  (work st' <= work st)%nat /\
  ((tok = tok_eof /\ lastChar st' = EOF) \/
   (tok <> tok_eof /\ (work st' < work st)%nat)) /\
  curTok st' = curTok st /\
  ((tok = error /\ lexHadError st' = true /\ recordedTokens st' = recordedTokens st) \/
   (lexHadError st' = lexHadError st /\ recordedTokens st' = recordedTokens st ++ [tok])).

(** A character of an identifier. *)
Definition isIdentifierChar (c : Z) : bool := isalnum c || (c =? 95).

(** No digit of the word follows a digit; [prevDigit] says whether the
    character in front of the word is one. *)
Fixpoint noDigitPair (prevDigit : bool) (w : list Z) : bool :=
  match w with
  | [] => true
  | c :: w' => negb (isdigit c && prevDigit) && noDigitPair (isdigit c) w'
  end.

(** A character of a number, and the well-formed numbers among the words
    made of such characters: at most one dot, with a digit in front of it
    and a digit at the end. *)
Definition isNumberChar (c : Z) : bool := isdigit c || (c =? 46).

Definition dots (w : list Z) : nat := length (List.filter (Z.eqb 46) w).

Definition validNumber (w : list Z) : bool :=
  negb (hd 0 w =? 46) && (dots w <=? 1)%nat &&
  match last w with Some c => isdigit c | None => false end.







End Lexing.

Arguments Lexer : clear implicits.

(** * The compiler driver

    The parts of [ponyc.cpp] that do not go through the parser or through
    MLIR: the token dump, the choice of the passes, and the dispatch on the
    action asked for. *)

Inductive InputType := Pony | MLIR.

(** The actions of the command line, in the order of the enumeration; the
    first is called [None] in the source. *)
Inductive Action :=
| NoAction
| DumpToken
| DumpAST
| DumpMLIR
| DumpMLIRAffine
| DumpMLIRLLVM
| DumpLLVMIR
| RunJIT.

(** The value of an enumerator. *)
Definition actionValue (a : Action) : Z :=
  match a with
  | NoAction => 0
  | DumpToken => 1
  | DumpAST => 2
  | DumpMLIR => 3
  | DumpMLIRAffine => 4
  | DumpMLIRLLVM => 5
  | DumpLLVMIR => 6
  | RunJIT => 7
  end.

(** The passes [loadAndProcessMLIR] can schedule.  [Nest] is a pass manager
    nested on the functions of one kind, with the passes added to it. *)
Inductive FuncKind := PonyFuncOp | FuncOp.

Inductive Pass :=
| InlinerPass
| ShapeInferencePass
| CanonicalizerPass
| CSEPass
| LowerToAffinePass
| LoopFusionPass
| AffineScalarReplacementPass
| LowerToLLVMPass
| Nest (anchor : FuncKind) (passes : list Pass).

(** The pass manager [loadAndProcessMLIR] builds. *)
Definition passPipeline (emitAction : Action) (enableOpt : bool) : list Pass :=
  (* Check to see what granularity of MLIR we are compiling to. *)
  let isLoweringToAffine := actionValue DumpMLIRAffine <=? actionValue emitAction in
  let isLoweringToLLVM := actionValue DumpMLIRLLVM <=? actionValue emitAction in
  (if enableOpt || isLoweringToAffine then
     (* Inline all functions into main and then delete them; then infer the
        shapes. *)
     [InlinerPass; Nest PonyFuncOp [ShapeInferencePass; CanonicalizerPass; CSEPass]]
   else []) ++
  (if isLoweringToAffine then
     (* Partially lower the pony dialect, with a few cleanups post lowering. *)
     [LowerToAffinePass;
      Nest FuncOp ([CanonicalizerPass; CSEPass] ++
                   if enableOpt then [LoopFusionPass; AffineScalarReplacementPass]
                   else [])]
   else []) ++
  (if isLoweringToLLVM then
     (* Finish lowering the pony IR to the LLVM dialect. *)
     [LowerToLLVMPass]
   else []).

(** [loadAndProcessMLIR], given what [loadMLIR] returns and what running a
    pass manager on the module gives. *)
Definition loadAndProcessMLIR (emitAction : Action) (enableOpt : bool)
    (loadMLIR : Z) (run : list Pass -> LogicalResult) : Z :=
  if negb (loadMLIR =? 0) then loadMLIR
  else match run (passPipeline emitAction enableOpt) with
       | failure => 4
       | success => 0
       end.

(** What [main] does besides returning: it dumps the module, or writes a
    message to the error stream. *)
Inductive Effect :=
| ModuleDump
| ErrorMessage (s : string).

(** [main] behind the parsing of the command line, given what each of the
    functions it can call returns. *)
Definition main (emitAction : Action)
    (dumpToken dumpAST loadAndProcessMLIR dumpLLVMIR runJit : Z) : Z * list Effect :=
  match emitAction with
  | DumpToken => (dumpToken, [])
  | DumpAST => (dumpAST, [])
  | _ =>
      (* If we aren't dumping the AST, then we are compiling with/to MLIR. *)
      if negb (loadAndProcessMLIR =? 0) then (loadAndProcessMLIR, [])
      else
        (* If we aren't exporting to non-mlir, then we are done. *)
        let isOutputingMLIR := actionValue emitAction <=? actionValue DumpMLIRLLVM in
        if isOutputingMLIR then (0, [ModuleDump])
        else
          match emitAction with
          | DumpLLVMIR => (dumpLLVMIR, [])
          | RunJIT => (runJit, [])
          | _ => (-1, [ErrorMessage
                         "No action specified (parsing only?), use -emit=<action>"])
          end
  end.

Section TokenDump.

Context {double : Type}.
Context (strtod : list Z -> double).
Context (zero : double).

(** The loop [while (lexer.getCurToken() != tok_eof) lexer.getNextToken();]
    of [dumpToken], on a step budget. *)
Fixpoint scanTokens (fuel : nat) (lexer : Lexer double) : option (Lexer double) :=
  match fuel with
  | O => None
  | S fuel' =>
      if negb (getCurToken lexer =? tok_eof) then
        match getNextToken strtod lexer with
        | Some (_, lexer') => scanTokens fuel' lexer'
        | None => None
        end
      else Some lexer
  end.

(** The lexer of [dumpToken] when the scan is over. *)
Definition scanFile (buffer : list Z) (inputFilename : string)
    : option (Lexer double) :=
  let lexer := LexerBuffer buffer inputFilename zero in
  (* prime the lexer *)
  match getNextToken strtod lexer with
  | Some (_, lexer') =>
      (* Consume and record all tokens until EOF *)
      scanTokens (S (budget lexer)) lexer'
  | None => None
  end.

(** [dumpToken]: the exit status, and what was written to [llvm::outs()] and
    to [llvm::errs()].  [fileOrErr] is the content of the input file, or the
    message of the error met when opening it. *)
Definition dumpToken (inputType : InputType) (fileOrErr : string + list Z)
    (inputFilename : string) : option (Z * list Out * list Out) :=
  match inputType with
  | MLIR =>
      Some (5, [],
            [OutStr ("Can't dump Pony Tokens when the input is MLIR" ++ newline)])
  | Pony =>
      match fileOrErr with
      | inl message =>
          Some (0, [],
                [OutStr "Could not open input file: "; OutStr message; OutStr newline])
      | inr buffer =>
          match scanFile buffer inputFilename with
          | Some lexer =>
              (* If any lexical errors were detected, report and exit *)
              if hadLexError lexer then
                Some (1, outs lexer,
                      errs lexer ++
                      [OutStr (newline ++ " Lexical analysis encountered errors." ++ newline)])
              else Some (0, outs lexer, errs lexer)
          | None => None
          end
      end
  end.

End TokenDump.

(** * The lowering *)

Section Lowering.

Context {elem : Type}.

(** ** Operations *)

Inductive Operation :=
(* the Pony dialect *)
| PonyConstant (res : Value) (value : list elem)
| PonyAdd (res lhs rhs : Value)
| PonyMul (res lhs rhs : Value)
| PonyGemm (res lhs rhs : Value)
| PonyTranspose (res input : Value)
| PonyPrint (operands : list Value)
| PonyReturn (operands : list Value)
| PonyFunc (name : string) (inputs results : list MType) (body : list Operation)
| PonyOther (name : string) (res : Value) (operands : list Value)
(* func, memref, arith and affine *)
| FuncFunc (name : string) (inputs results : list MType) (body : list Operation)
| FuncReturn
| MemRefAlloc (res : Value)
| MemRefDealloc (memref : Value)
| ArithConstantIndex (res : Value) (i : Z)
| ArithConstant (res : Value) (v : elem)
| ArithAddF (res lhs rhs : Value)
| ArithMulF (res lhs rhs : Value)
| AffineFor (iv : Value) (lb ub step : Z) (body : list Operation)
| AffineYield
| AffineLoad (res memref : Value) (indices : list Value)
| AffineStore (value memref : Value) (indices : list Value).

(** The two scalar operations a [BinaryOpLowering] can be instantiated with. *)
Inductive LoweredBinaryOp := AddFOp | MulFOp.

Definition createLowered (k : LoweredBinaryOp) (res lhs rhs : Value) : Operation :=
  match k with
  | AddFOp => ArithAddF res lhs rhs
  | MulFOp => ArithMulF res lhs rhs
  end.

(** ** The rewriter *)

(** The block that holds the operation being rewritten is split at the
    insertion point: [rw_before] are the operations in front of it,
    [rw_after] starts with the operation being rewritten. *)
Record Rewriter := mkRewriter {
  rw_before : list Operation;
  rw_after : list Operation;
  rw_next : nat;
  rw_mapping : gmap nat Value
}.

Definition M (A : Type) : Type := Rewriter -> Res (A * Rewriter).

Definition ret {A} (a : A) : M A := fun rw => Ok (a, rw).

Definition bind {A B} (m : M A) (f : A -> M B) : M B :=
  fun rw => match m rw with
            | Ok (a, rw') => f a rw'
            | Abort => Abort
            | Exhausted => Exhausted
            end.

Definition abort {A} : M A := fun _ => Abort.

Definition lift {A} (o : option A) : M A :=
  fun rw => match o with Some a => Ok (a, rw) | None => Abort end.

Notation "'let*' x := m 'in' k" := (bind m (fun x => k))
  (at level 10, x name, m at level 100, k at level 200).
Notation "'run' m 'in' k" := (bind m (fun _ => k))
  (at level 10, m at level 100, k at level 200).

Definition freshValue (t : MType) : M Value :=
  fun rw => Ok (mkValue (rw_next rw) t,
                  mkRewriter (rw_before rw) (rw_after rw) (S (rw_next rw)) (rw_mapping rw)).

(** [rewriter.create<Op>(...)]: the operation goes in front of the
    insertion point. *)
Definition create (op : Operation) : M unit :=
  fun rw => Ok (tt, mkRewriter (rw_before rw ++ [op]) (rw_after rw)
                                 (rw_next rw) (rw_mapping rw)).

(** Helpers on lists: all but the last element, and the last one. *)
Fixpoint splitLast {A} (l : list A) : option (list A * A) :=
  match l with
  | [] => None
  | [x] => Some ([], x)
  | x :: l' => match splitLast l' with
               | Some (i, z) => Some (x :: i, z)
               | None => None
               end
  end.

(** [op->moveBefore(&parentBlock->front())] for the operation created
    last.  When that operation is the front itself nothing moves. *)
Definition moveBeforeFront : M unit :=
  fun rw => match splitLast (rw_before rw) with
            | Some (pre, op) =>
                Ok (tt, mkRewriter (op :: pre) (rw_after rw) (rw_next rw) (rw_mapping rw))
            | None => Abort
            end.

(** [op->moveBefore(&parentBlock->back())] for the operation created
    last.  The back of the block is the last operation behind the insertion
    point; when there is exactly one operation behind the insertion point,
    or none, the operation created last already sits in front of the back
    (or is the back) and nothing moves. *)
Definition moveBeforeBack : M unit :=
  fun rw => match splitLast (rw_before rw) with
            | Some (pre, op) =>
                match rw_after rw with
                | cur :: rest =>
                    match splitLast rest with
                    | Some (mid, back) =>
                        Ok (tt, mkRewriter pre (cur :: mid ++ [op; back])
                                           (rw_next rw) (rw_mapping rw))
                    | None => Ok (tt, rw)
                    end
                | [] => Ok (tt, rw)
                end
            | None => Abort
            end.

(** [rewriter.replaceOp(op, v)]: the operation at the insertion point
    leaves the block and its result is mapped to [v]. *)
Definition resultOf (op : Operation) : option Value :=
  match op with
  | PonyConstant r _ | PonyAdd r _ _ | PonyMul r _ _ | PonyGemm r _ _
  | PonyTranspose r _ | PonyOther _ r _ | MemRefAlloc r
  | ArithConstantIndex r _ | ArithConstant r _ | ArithAddF r _ _
  | ArithMulF r _ _ | AffineLoad r _ _ => Some r
  | _ => None
  end.

Definition eraseOp : M unit :=
  fun rw => match rw_after rw with
            | _ :: rest => Ok (tt, mkRewriter (rw_before rw) rest (rw_next rw) (rw_mapping rw))
            | [] => Abort
            end.

Definition mapValue (old new : Value) : M unit :=
  fun rw => Ok (tt, mkRewriter (rw_before rw) (rw_after rw) (rw_next rw)
                               (<[vid old := new]> (rw_mapping rw))).

Definition replaceOp (op : Operation) (v : Value) : M unit :=
  match resultOf op with
  | Some r => run mapValue r v in eraseOp
  | None => abort
  end.

(** A builder positioned inside a fresh region (the body of a loop): the
    operations it creates are collected and handed back; the supply of
    values and the mapping are shared with the enclosing rewriter. *)
Definition inRegion {A} (m : M A) : M (A * list Operation) :=
  fun rw => match m (mkRewriter [] [] (rw_next rw) (rw_mapping rw)) with
            | Ok (a, rw') =>
                Ok ((a, rw_before rw' ++ rw_after rw'),
                    mkRewriter (rw_before rw) (rw_after rw) (rw_next rw') (rw_mapping rw'))
            | Abort => Abort
            | Exhausted => Exhausted
            end.

(** ** [buildAffineLoopNest] *)

(** Modelled from the spec: the loop-nest builder, a function of the affine
    dialect that is missing from the sources.  Given the bounds of [r]
    dimensions it constructs [r] nested iteration levels, outermost first,
    each body closed by [affine.yield], and invokes the per-iteration
    function in the innermost one with the tuple of induction variables;
    with no dimension at all the function is invoked at the current
    insertion point. *)
Fixpoint affineLoops (lbs ubs steps : list Z) (ivs : list Value)
    (bodyBuilderFn : list Value -> M unit) : M unit :=
  match lbs, ubs, steps with
  | [], [], [] => bodyBuilderFn ivs
  | lb :: lbs', ub :: ubs', st :: steps' =>
      let* iv := freshValue IndexType in
      let* r := inRegion (run affineLoops lbs' ubs' steps' (ivs ++ [iv]) bodyBuilderFn in
                          create AffineYield) in
      create (AffineFor iv lb ub st (snd r))
  | _, _, _ => abort
  end.

(** Modelled from the spec: the entry of the loop-nest builder, missing from
    the sources; no induction variable is chosen yet. *)
Definition buildAffineLoopNest (lbs ubs steps : list Z)
    (bodyBuilderFn : list Value -> M unit) : M unit :=
  affineLoops lbs ubs steps [] bodyBuilderFn.

(** ** The patterns *)

(** [convertTensorToMemRef]: asserts that the tensor type is ranked. *)
Definition convertTensorToMemRef (type : MType) : option MType :=
  match type with
  | TensorType shape => Some (MemRefType shape)
  | _ => None
  end.

Definition getShape (t : MType) : option (list Z) :=
  match t with
  | TensorType s | MemRefType s => Some s
  | _ => None
  end.

(** [insertAllocAndDealloc] *)
Definition insertAllocAndDealloc (type : MType) : M Value :=
  let* alloc := freshValue type in
  run create (MemRefAlloc alloc) in
  (* Make sure to allocate at the beginning of the block. *)
  run moveBeforeFront in
  (* Make sure to deallocate this alloc at the end of the block. *)
  run create (MemRefDealloc alloc) in
  run moveBeforeBack in
  ret alloc.

(** The first result type of the operation, [cast] to [TensorType]. *)
Definition resultTensorType (op : Operation) : option MType :=
  match resultOf op with
  | Some r => if isTensorType (vtype r) then Some (vtype r) else None
  | None => None
  end.

(** [lowerOpToLoops] *)
Definition lowerOpToLoops (op : Operation) (operands : list Value)
    (processIteration : list Value -> list Value -> M Value) : M unit :=
  let* tensorType := lift (resultTensorType op) in
  let* memRefType := lift (convertTensorToMemRef tensorType) in
  let* alloc := insertAllocAndDealloc memRefType in
  let* shape := lift (getShape tensorType) in
  let lowerBounds := replicate (length shape) 0 in
  let steps := replicate (length shape) 1 in
  run buildAffineLoopNest lowerBounds shape steps
        (fun ivs =>
           let* valueToStore := processIteration operands ivs in
           create (AffineStore valueToStore alloc ivs)) in
  replaceOp op alloc.

(** [builder.create<AffineLoadOp>(loc, memref, indices)] *)
Definition createLoad (memref : Value) (indices : list Value) : M Value :=
  let* r := freshValue F64Type in
  run create (AffineLoad r memref indices) in
  ret r.

(** [BinaryOpLowering<BinaryOp, LoweredBinaryOp>::matchAndRewrite] *)
Definition BinaryOpLowering (k : LoweredBinaryOp) (op : Operation)
    (operands : list Value) : M LogicalResult :=
  run lowerOpToLoops op operands
    (fun memRefOperands loopIvs =>
       let* lhs := lift (memRefOperands !! 0%nat) in
       let* rhs := lift (memRefOperands !! 1%nat) in
       let* loadedLhs := createLoad lhs loopIvs in
       let* loadedRhs := createLoad rhs loopIvs in
       let* r := freshValue F64Type in
       run create (createLowered k r loadedLhs loadedRhs) in
       ret r) in
  ret success.

Definition AddOpLowering := BinaryOpLowering AddFOp.
Definition MulOpLowering := BinaryOpLowering MulFOp.

(** [GemmOpLowering::matchAndRewrite] *)
Definition GemmOpLowering (op : Operation) (operands : list Value)
    : M LogicalResult :=
  let* tensorType := lift (resultTensorType op) in
  let* memRefType := lift (convertTensorToMemRef tensorType) in
  let* alloc := insertAllocAndDealloc memRefType in
  let* shape := lift (getShape tensorType) in
  let* M_ := lift (shape !! 0%nat) in
  let* N_ := lift (shape !! 1%nat) in
  let* lhs0 := lift (operands !! 0%nat) in
  let* lhsShape := lift (match vtype lhs0 with MemRefType s => Some s | _ => None end) in
  let* K_ := lift (lhsShape !! 1%nat) in
  run buildAffineLoopNest [0; 0; 0] [M_; N_; K_] [1; 1; 1]
    (fun ivs =>
       let* gemmLhs := lift (operands !! 0%nat) in
       let* gemmRhs := lift (operands !! 1%nat) in
       let* i := lift (ivs !! 0%nat) in
       let* j := lift (ivs !! 1%nat) in
       let* k := lift (ivs !! 2%nat) in
       let* lhs := createLoad gemmLhs [i; k] in
       let* rhs := createLoad gemmRhs [j; k] in
       let* mul := freshValue F64Type in
       run create (ArithMulF mul lhs rhs) in
       let* current := createLoad alloc [i; j] in
       let* updated := freshValue F64Type in
       run create (ArithAddF updated current mul) in
       create (AffineStore updated alloc [i; j])) in
  run replaceOp op alloc in
  ret success.

(** [rewriter.create<arith::ConstantIndexOp>(loc, i)] *)
Definition createConstantIndex (i : Z) : M Value :=
  let* r := freshValue IndexType in
  run create (ArithConstantIndex r i) in
  ret r.

(** One [arith.constant] index per element of [llvm::seq(i, i + count)]. *)
Fixpoint createConstantIndices (count : nat) (i : Z) : M (list Value) :=
  match count with
  | O => ret []
  | S count' =>
      let* c := createConstantIndex i in
      let* cs := createConstantIndices count' (i + 1) in
      ret (c :: cs)
  end.

(** [*std::max_element(first, last)] of a sequence that is not empty. *)
Definition max_element (first : Z) (rest : list Z) : Z :=
  fold_left Z.max rest first.

(** The loop [for (uint64_t i = 0, e = ...; i != e; ++i)] of
    [storeElements], with [count] iterations left. *)
Fixpoint forEachIndex {S : Type} (count : nat) (i : nat)
    (body : nat -> S -> M S) (s : S) : M S :=
  match count with
  | O => ret s
  | Datatypes.S count' =>
      let* s' := body i s in
      forEachIndex count' (Datatypes.S i) body s'
  end.

(** The functor [storeElements].  [dims] are the dimensions from
    [dimension] on, [indices] is the stack of indices chosen so far, and
    [valueIt] the element iterator, which every store advances. *)
Fixpoint storeElements (constantIndices : list Value) (alloc : Value)
    (dims : list Z) (indices : list Value) (valueIt : list elem)
    : M (list elem) :=
  match dims with
  | [] =>
      (* The last dimension is the base case of the recursion. *)
      match valueIt with
      | v :: valueIt' =>
          let* c := freshValue F64Type in
          run create (ArithConstant c v) in
          run create (AffineStore c alloc indices) in
          ret valueIt'
      | [] => abort
      end
  | e :: dims' =>
      forEachIndex (Z.to_nat (e mod 2 ^ 64)) 0%nat
        (fun i valueIt =>
           let* ci := lift (constantIndices !! i) in
           storeElements constantIndices alloc dims' (indices ++ [ci]) valueIt)
        valueIt
  end.

(** [ConstantOpLowering::matchAndRewrite] *)
Definition ConstantOpLowering (op : Operation) : M LogicalResult :=
  match op with
  | PonyConstant res constantValue =>
      let* tensorType :=
        lift (if isTensorType (vtype res) then Some (vtype res) else None) in
      let* memRefType := lift (convertTensorToMemRef tensorType) in
      let* alloc := insertAllocAndDealloc memRefType in
      let* valueShape := lift (getShape memRefType) in
      let* constantIndices :=
        match valueShape with
        | d :: ds => createConstantIndices (Z.to_nat (max_element d ds)) 0
        | [] =>
            (* This is the case of a tensor of rank 0. *)
            let* c := createConstantIndex 0 in ret [c]
        end in
      let* _rest := storeElements constantIndices alloc valueShape [] constantValue in
      run replaceOp op alloc in
      ret success
  | _ => ret failure
  end.

(** [FuncOpLowering::matchAndRewrite] *)
Definition FuncOpLowering (op : Operation) : M LogicalResult :=
  match op with
  | PonyFunc name inputs results body =>
      (* We only lower the main function. *)
      if negb (String.eqb name "main") then ret failure
      else if negb (Nat.eqb (length inputs) 0) || negb (Nat.eqb (length results) 0)
      then ret failure
      else
        run create (FuncFunc name inputs results body) in
        run eraseOp in
        ret success
  | _ => ret failure
  end.

(** [rewriter.updateRootInPlace(op, [&] { op->setOperands(...); })] *)
Definition setOperands (operands : list Value) : M unit :=
  fun rw => match rw_after rw with
            | PonyPrint _ :: rest =>
                Ok (tt, mkRewriter (rw_before rw) (PonyPrint operands :: rest)
                                   (rw_next rw) (rw_mapping rw))
            | _ => Abort
            end.

(** [PrintOpLowering::matchAndRewrite] *)
Definition PrintOpLowering (op : Operation) (operands : list Value)
    : M LogicalResult :=
  match op with
  | PonyPrint _ =>
      run setOperands operands in
      ret success
  | _ => ret failure
  end.

(** [ReturnOpLowering::matchAndRewrite] *)
Definition ReturnOpLowering (op : Operation) : M LogicalResult :=
  match op with
  | PonyReturn operands =>
      match operands with
      | _ :: _ => ret failure
      | [] =>
          run create FuncReturn in
          run eraseOp in
          ret success
      end
  | _ => ret failure
  end.

(** [TransposeOpLowering::matchAndRewrite] *)
Definition TransposeOpLowering (op : Operation) (operands : list Value)
    : M LogicalResult :=
  run lowerOpToLoops op operands
    (fun memRefOperands loopIvs =>
       let* input := lift (memRefOperands !! 0%nat) in
       createLoad input (rev loopIvs)) in
  ret success.

(** ** The conversion target *)

Inductive Dialect :=
| PonyDialect | FuncDialect | MemRefDialect | ArithmeticDialect | AffineDialect.

Definition dialectOf (op : Operation) : Dialect :=
  match op with
  | PonyConstant _ _ | PonyAdd _ _ _ | PonyMul _ _ _ | PonyGemm _ _ _
  | PonyTranspose _ _ | PonyPrint _ | PonyReturn _ | PonyFunc _ _ _ _
  | PonyOther _ _ _ => PonyDialect
  | FuncFunc _ _ _ _ | FuncReturn => FuncDialect
  | MemRefAlloc _ | MemRefDealloc _ => MemRefDialect
  | ArithConstantIndex _ _ | ArithConstant _ _ | ArithAddF _ _ _
  | ArithMulF _ _ _ => ArithmeticDialect
  | AffineFor _ _ _ _ _ | AffineYield | AffineLoad _ _ _
  | AffineStore _ _ _ => AffineDialect
  end.

(** The predicate given to [addDynamicallyLegalOp<pony::PrintOp>]. *)
Definition printIsLegal (operandTypes : list MType) : bool :=
  negb (existsb isTensorType operandTypes).

(** The target built by [runOnOperation]: the affine, arithmetic, func and
    memref dialects are legal, the Pony dialect is illegal, and
    [pony.print] is legal when its predicate holds. *)
Definition isLegal (op : Operation) : bool :=
  match op with
  | PonyPrint operands => printIsLegal (map vtype operands)
  | _ => match dialectOf op with
         | PonyDialect => false
         | _ => true
         end
  end.

(** ** The partial conversion driver

    [runOnOperation] hands the module, the target and the patterns to
    [applyPartialConversion].  That function belongs to the dialect
    conversion framework of MLIR and is not among the sources; what follows
    is a model of it, as far as this pass exercises it.  The operations of
    the module are visited in pre-order.  A legal operation is stepped over;
    an illegal one is handed to the pattern registered for its kind, with its
    operands looked up in the table of replaced values; a pattern that
    declines, or an illegal operation without a pattern, fails the whole
    conversion, and every rewrite made so far is discarded.

    Uses of a replaced result by operations the driver steps over are
    rewired when the rewrites are committed; the consumers of tensors are
    all operations of the Pony dialect, which get the replacing values
    through [remapValues], so that step is not modelled. *)

Definition operandsOf (op : Operation) : list Value :=
  match op with
  | PonyAdd _ l r | PonyMul _ l r | PonyGemm _ l r
  | ArithAddF _ l r | ArithMulF _ l r => [l; r]
  | PonyTranspose _ i => [i]
  | PonyPrint os | PonyReturn os | PonyOther _ _ os => os
  | MemRefDealloc m => [m]
  | AffineLoad _ m idx => m :: idx
  | AffineStore v m idx => v :: m :: idx
  | _ => []
  end.

(** Modelled from the spec: part of the conversion driver, which is missing
    from the sources.  References to a replaced result are propagated to its
    uses: each operand is looked up in the table of replaced values. *)
Definition remapValues (operands : list Value) : M (list Value) :=
  fun rw => Ok (map (fun v => default v (rw_mapping rw !! vid v)) operands, rw).

(** The pattern set of [runOnOperation], selected by the kind of the root. *)
Definition applyPatterns (op : Operation) : M LogicalResult :=
  match op with
  | PonyAdd _ _ _ =>
      let* operands := remapValues (operandsOf op) in AddOpLowering op operands
  | PonyMul _ _ _ =>
      let* operands := remapValues (operandsOf op) in MulOpLowering op operands
  | PonyGemm _ _ _ =>
      let* operands := remapValues (operandsOf op) in GemmOpLowering op operands
  | PonyTranspose _ _ =>
      let* operands := remapValues (operandsOf op) in TransposeOpLowering op operands
  | PonyPrint _ =>
      let* operands := remapValues (operandsOf op) in PrintOpLowering op operands
  | PonyConstant _ _ => ConstantOpLowering op
  | PonyFunc _ _ _ _ => FuncOpLowering op
  | PonyReturn _ => ReturnOpLowering op
  | _ => ret failure
  end.

(** Modelled from the spec: part of the conversion driver, which is missing
    from the sources.  Step over the operation at the insertion point. *)
Definition advance : M unit :=
  fun rw => match rw_after rw with
            | op :: rest =>
                Ok (tt, mkRewriter (rw_before rw ++ [op]) rest (rw_next rw) (rw_mapping rw))
            | [] => Abort
            end.

(** Modelled from the spec: part of the conversion driver, which is missing
    from the sources.  A node that a rule updated in place has to be legal
    afterwards, or the conversion fails. *)
Definition legalizeRootUpdate : M LogicalResult :=
  fun rw => match rw_after rw with
            | op :: _ =>
                if isLegal op then (run advance in ret success) rw
                else Ok (failure, rw)
            | [] => Abort
            end.

Definition setBody (op : Operation) (body : list Operation) : Operation :=
  match op with
  | FuncFunc n i r _ => FuncFunc n i r body
  | AffineFor iv lb ub st _ => AffineFor iv lb ub st body
  | _ => op
  end.

Definition regionOf (op : Operation) : option (list Operation) :=
  match op with
  | FuncFunc _ _ _ body | AffineFor _ _ _ _ body => Some body
  | _ => None
  end.

(** Modelled from the spec: part of the conversion driver, which is missing
    from the sources.  The graph is scanned in pre-order: the operations
    nested in the operation just in front of the insertion point are
    converted next, with [conv] run on its body. *)
Definition convertRegionOfLast (conv : M LogicalResult) : M LogicalResult :=
  fun rw => match splitLast (rw_before rw) with
            | Some (pre, op) =>
                match regionOf op with
                | Some body =>
                    match conv (mkRewriter [] body (rw_next rw) (rw_mapping rw)) with
                    | Ok (r, rw') =>
                        Ok (r, mkRewriter
                                 (pre ++ [setBody op (rw_before rw' ++ rw_after rw')])
                                 (rw_after rw) (rw_next rw') (rw_mapping rw'))
                    | Abort => Abort
                    | Exhausted => Exhausted
                    end
                | None => Ok (success, rw)
                end
            | None => Abort
            end.

(** Modelled from the spec: the legalization step of the conversion
    driver, which is library code and missing from the sources.  A node
    that is already legal is left as it is; an illegal one is rewritten by
    the rule of its kind, and a rule that declines leaves it illegal, which
    fails the conversion.  [conv] converts a nested region. *)
Definition legalize (conv : M LogicalResult) (op : Operation) : M LogicalResult :=
  if isLegal op then
    run advance in
    convertRegionOfLast conv
  else
    let* r := applyPatterns op in
    match r with
    | failure => ret failure
    | success =>
        match op with
        | PonyPrint _ => legalizeRootUpdate
        | PonyFunc _ _ _ _ => convertRegionOfLast conv
        | _ => ret success
        end
    end.

(** Modelled from the spec: the scan of the conversion driver, which is
    library code and missing from the sources.  Every operation from the
    insertion point to the end of the block is legalized in turn, those a
    rewrite put there included; the scan stops at the first operation that
    stays illegal.  The budget [fuel] bounds the number of operations
    visited. *)
Fixpoint convertOps (fuel : nat) : M LogicalResult :=
  match fuel with
  | O => fun _ => Exhausted
  | S fuel' =>
      fun rw =>
        match rw_after rw with
        | [] => Ok (success, rw)
        | op :: _ =>
            (let* r := legalize (convertOps fuel') op in
             match r with
             | failure => ret failure
             | success => convertOps fuel'
             end) rw
        end
  end.

(** Every value an operation mentions, those of nested operations included. *)
Fixpoint allValues (op : Operation) : list Value :=
  let nested := fix nested (ops : list Operation) : list Value :=
    match ops with
    | [] => []
    | o :: ops' => allValues o ++ nested ops'
    end in
  match op with
  | PonyFunc _ _ _ body | FuncFunc _ _ _ body => nested body
  | AffineFor iv _ _ _ body => iv :: nested body
  | _ => match resultOf op with
         | Some r => r :: operandsOf op
         | None => operandsOf op
         end
  end.

(** The budget of the driver model.  It covers the visit of an operation
    and of what it contains: one step for the operation itself and, for an
    operation of the Pony dialect, one more for the deallocation its rewrite
    can leave behind the insertion point, which is visited as well. *)
Fixpoint weight (op : Operation) : nat :=
  let nested := fix nested (ops : list Operation) : nat :=
    match ops with
    | [] => O
    | o :: ops' => (weight o + nested ops')%nat
    end in
  ((match dialectOf op with PonyDialect => 2 | _ => 1 end) +
   match op with
   | PonyFunc _ _ _ body | FuncFunc _ _ _ body
   | AffineFor _ _ _ _ body => nested body
   | _ => O
   end)%nat.

Definition weights (ops : list Operation) : nat :=
  foldr (fun o n => (weight o + n)%nat) O ops.

(** An identifier above every value of the module: where the supply of
    fresh values of the rewriter starts. *)
Definition firstFresh (ops : list Operation) : nat :=
  S (foldr Nat.max O (map vid (concat (map allValues ops)))).

(** Modelled from the spec: [applyPartialConversion], which is library code
    and missing from the sources.  The conversion either reaches a graph in
    which every node is legal, which is the result, or fails as a whole: no
    partially converted graph is handed back, the caller keeps the graph it
    gave. *)
Definition applyPartialConversion (ops : list Operation)
    : Res (LogicalResult * list Operation) :=
  match convertOps (S (weights ops)) (mkRewriter [] ops (firstFresh ops) ∅) with
  | Ok (success, rw) => Ok (success, rw_before rw ++ rw_after rw)
  | Ok (failure, _) => Ok (failure, ops)
  | Abort => Abort
  | Exhausted => Exhausted
  end.

(** ** The pass *)

Record PassResult := mkPassResult {
  passFailed : bool;
  passModule : list Operation
}.

(** [PonyToAffineLoweringPass::runOnOperation] on the operations of the
    module. *)
Definition runOnOperation (module : list Operation) : Res PassResult :=
  match applyPartialConversion module with
  | Ok (failure, m) => Ok (mkPassResult true m)
  | Ok (success, m) => Ok (mkPassResult false m)
  | Abort => Abort
  | Exhausted => Exhausted
  end.

(** ** Running the lowered code

    What the operations of the target vocabulary do on a machine with an
    environment of SSA values and a store of buffers.  A buffer has the
    shape of its [memref] type and one cell per coordinate; a fresh
    allocation holds whatever [garbage] says, since [memref.alloc] does not
    initialize.  Execution is stuck ([None]) on an operation of the Pony
    dialect other than [pony.print], on an unbound value, and on an access
    outside the shape of a buffer. *)

Context (addf mulf : elem -> elem -> elem).
Context (garbage : nat -> list Z -> elem).

Inductive RtVal :=
| RIndex (i : Z)
| RFloat (x : elem)
| RMemRef (b : nat).

Record Buffer := mkBuffer {
  buf_shape : list Z;
  buf_cells : list Z -> elem
}.

Record Machine := mkMachine {
  env : gmap nat RtVal;
  mem : gmap nat Buffer;
  next_buf : nat;
  printed : list (list Z * list elem)
}.

Fixpoint inBounds (shape idx : list Z) : bool :=
  match shape, idx with
  | [], [] => true
  | d :: shape', i :: idx' => (0 <=? i) && (i <? d) && inBounds shape' idx'
  | _, _ => false
  end.

(** The coordinates of a shape in row-major order: the last dimension
    varies fastest. *)
Fixpoint coords (shape : list Z) : list (list Z) :=
  match shape with
  | [] => [[]]
  | d :: shape' => flat_map (fun i => map (cons i) (coords shape')) (seqZ 0 d)
  end.

Definition flatten (b : Buffer) : list elem :=
  map (buf_cells b) (coords (buf_shape b)).

Definition storeCell (b : Buffer) (idx : list Z) (x : elem) : Buffer :=
  mkBuffer (buf_shape b)
           (fun c => if decide (c = idx) then x else buf_cells b c).

Definition getIndex (e : gmap nat RtVal) (v : Value) : option Z :=
  match e !! vid v with Some (RIndex i) => Some i | _ => None end.

Definition getFloat (e : gmap nat RtVal) (v : Value) : option elem :=
  match e !! vid v with Some (RFloat x) => Some x | _ => None end.

Definition getBuffer (st : Machine) (v : Value) : option (nat * Buffer) :=
  match env st !! vid v with
  | Some (RMemRef b) => match mem st !! b with
                        | Some buf => Some (b, buf)
                        | None => None
                        end
  | _ => None
  end.

Fixpoint getIndices (e : gmap nat RtVal) (vs : list Value) : option (list Z) :=
  match vs with
  | [] => Some []
  | v :: vs' => match getIndex e v, getIndices e vs' with
                | Some i, Some idx => Some (i :: idx)
                | _, _ => None
                end
  end.

Definition setEnv (st : Machine) (v : Value) (x : RtVal) : Machine :=
  mkMachine (<[vid v := x]> (env st)) (mem st) (next_buf st) (printed st).

Definition setMem (st : Machine) (b : nat) (buf : Buffer) : Machine :=
  mkMachine (env st) (<[b := buf]> (mem st)) (next_buf st) (printed st).

(** Modelled from the spec: the iterations of a loop, whose meaning is not
    part of the sources.  The body runs [n] times, one after the other, the
    induction variable starting at [i]. *)
Fixpoint forLoop (n : nat) (i step : Z)
    (body : Z -> Machine -> option Machine) (st : Machine) : option Machine :=
  match n with
  | O => Some st
  | S n' => match body i st with
            | Some st' => forLoop n' (i + step) step body st'
            | None => None
            end
  end.

Definition tripCount (lb ub step : Z) : option nat :=
  if 0 <? step then Some (Z.to_nat ((ub - lb + step - 1) / step)) else None.

(** Modelled from the spec: the meaning of the operations of the output
    vocabulary, which is not part of the sources.  A buffer is written by an
    indexed store and read by an indexed load, its lifetime is bounded by its
    allocation and its deallocation, and a loop runs its body once per value
    of its induction variable, from the lower bound up, by its step. *)
Fixpoint exec_op (op : Operation) (st : Machine) {struct op} : option Machine :=
  match op with
  | MemRefAlloc res =>
      match vtype res with
      | MemRefType shape =>
          let b := next_buf st in
          Some (mkMachine (<[vid res := RMemRef b]> (env st))
                          (<[b := mkBuffer shape (garbage b)]> (mem st))
                          (S b) (printed st))
      | _ => None
      end
  | MemRefDealloc m =>
      match getBuffer st m with
      | Some (b, _) =>
          Some (mkMachine (env st) (delete b (mem st)) (next_buf st) (printed st))
      | None => None
      end
  | ArithConstantIndex res i => Some (setEnv st res (RIndex i))
  | ArithConstant res x => Some (setEnv st res (RFloat x))
  | ArithAddF res l r =>
      match getFloat (env st) l, getFloat (env st) r with
      | Some x, Some y => Some (setEnv st res (RFloat (addf x y)))
      | _, _ => None
      end
  | ArithMulF res l r =>
      match getFloat (env st) l, getFloat (env st) r with
      | Some x, Some y => Some (setEnv st res (RFloat (mulf x y)))
      | _, _ => None
      end
  | AffineLoad res m indices =>
      match getBuffer st m, getIndices (env st) indices with
      | Some (_, buf), Some idx =>
          if inBounds (buf_shape buf) idx
          then Some (setEnv st res (RFloat (buf_cells buf idx)))
          else None
      | _, _ => None
      end
  | AffineStore v m indices =>
      match getFloat (env st) v, getBuffer st m, getIndices (env st) indices with
      | Some x, Some (b, buf), Some idx =>
          if inBounds (buf_shape buf) idx
          then Some (setMem st b (storeCell buf idx x))
          else None
      | _, _, _ => None
      end
  | AffineFor iv lb ub step body =>
      let block := fix block (ops : list Operation) (st : Machine) : option Machine :=
        match ops with
        | [] => Some st
        | o :: ops' => match exec_op o st with
                       | Some st' => block ops' st'
                       | None => None
                       end
        end in
      match tripCount lb ub step with
      | Some n =>
          forLoop n lb step
            (fun i st =>
               match block body (setEnv st iv (RIndex i)) with
               | Some st' =>
                   (* values defined in the body are not visible outside *)
                   Some (mkMachine (env st) (mem st') (next_buf st') (printed st'))
               | None => None
               end) st
      | None => None
      end
  | AffineYield | FuncReturn => Some st
  | PonyPrint operands =>
      match operands with
      | [v] => match getBuffer st v with
               | Some (_, buf) =>
                   Some (mkMachine (env st) (mem st) (next_buf st)
                                   (printed st ++ [(buf_shape buf, flatten buf)]))
               | None => None
               end
      | _ => None
      end
  | _ => None
  end.

(** The operations of a block run in order. *)
Fixpoint exec_block (ops : list Operation) (st : Machine) : option Machine :=
  match ops with
  | [] => Some st
  | o :: ops' => match exec_op o st with
                 | Some st' => exec_block ops' st'
                 | None => None
                 end
  end.

Definition initial : Machine := mkMachine ∅ ∅ O [].

(** ** Statements' vocabulary *)

(** The Pony operation a [BinaryOpLowering] instance is registered for, and
    the scalar function its lowered operation computes. *)
Definition binaryOp (k : LoweredBinaryOp) (res lhs rhs : Value) : Operation :=
  match k with
  | AddFOp => PonyAdd res lhs rhs
  | MulFOp => PonyMul res lhs rhs
  end.

Definition scalarOp (k : LoweredBinaryOp) : elem -> elem -> elem :=
  match k with
  | AddFOp => addf
  | MulFOp => mulf
  end.

(** [start + term 0 + term 1 + ... + term (K - 1)], added up from the left
    in this order with the addition of the lowered code. *)
Definition accumulate (K : Z) (start : elem) (term : Z -> elem) : elem :=
  fold_left (fun acc k => addf acc (term k)) (seqZ 0 K) start.

(** An operation that is legal for the target, and so is every operation
    nested in it. *)
Fixpoint deepLegal (op : Operation) : bool :=
  let nested := fix nested (ops : list Operation) : bool :=
    match ops with
    | [] => true
    | o :: ops' => deepLegal o && nested ops'
    end in
  isLegal op &&
  match op with
  | PonyFunc _ _ _ body | FuncFunc _ _ _ body
  | AffineFor _ _ _ _ body => nested body
  | _ => true
  end.

Definition allLegal (ops : list Operation) : bool := forallb deepLegal ops.

(** An operation the conversion cannot get past: an entry point that is
    not the parameterless [main], a return with operands, an operation of
    the Pony dialect without a pattern, or a function or loop that contains
    such an operation. *)
Inductive doomed : Operation -> Prop :=
| doomed_name name inputs results body :
    name <> "main"%string -> doomed (PonyFunc name inputs results body)
| doomed_inputs name i inputs results body :
    doomed (PonyFunc name (i :: inputs) results body)
| doomed_results name inputs r results body :
    doomed (PonyFunc name inputs (r :: results) body)
| doomed_return v operands :
    doomed (PonyReturn (v :: operands))
| doomed_other name res operands :
    doomed (PonyOther name res operands)
| doomed_main_body body op :
    op ∈ body -> doomed op -> doomed (PonyFunc "main" [] [] body)
| doomed_func_body name inputs results body op :
    op ∈ body -> doomed op -> doomed (FuncFunc name inputs results body)
| doomed_for_body iv lb ub step body op :
    op ∈ body -> doomed op -> doomed (AffineFor iv lb ub step body).

(** What a successful rewrite leaves of the operations that followed the
    rewritten one: the same operations, with at most one deallocation put in
    front of the last. *)
Definition afterStep (rest rest' : list Operation) : Prop :=
  rest' = rest \/
  exists mid back d, rest = mid ++ [back] /\ rest' = mid ++ [MemRefDealloc d; back].

(** What the driver relies on when it runs [conv] on a region with budget
    [fuel]: on success the region is converted to the end and nothing illegal
    was put in front of the insertion point; the budget runs out only on a
    region that is heavier than the budget. *)
Definition convSpec (fuel : nat) (conv : M LogicalResult) : Prop :=
  forall rw,
    match conv rw with
    | Ok (success, rw') =>
        rw_after rw' = [] /\
        (allLegal (rw_before rw) = true -> allLegal (rw_before rw') = true)
    | Ok (failure, _) => True
    | Abort => True
    | Exhausted => (fuel <= weights (rw_after rw))%nat
    end.

(** [rewriter.create] for each operation of [code] in turn. *)
Definition createAll (code : list Operation) : M unit :=
  foldr (fun op m => run create op in m) (ret tt) code.

(** Does the operation, or one nested in it, mention the value [id]? *)
Definition mentions (id : nat) (op : Operation) : bool :=
  existsb (fun v => Nat.eqb (vid v) id) (allValues op).

Definition isAllocOf (id : nat) (op : Operation) : bool :=
  match op with
  | MemRefAlloc r => Nat.eqb (vid r) id
  | _ => false
  end.

Definition isDeallocOf (id : nat) (op : Operation) : bool :=
  match op with
  | MemRefDealloc m => Nat.eqb (vid m) id
  | _ => false
  end.

(** The number of elements of a shape. *)
Definition product (shape : list Z) : Z := fold_right Z.mul 1 shape.

(** A shape whose dimensions are all known: each is a non-negative
    [int64_t]. *)
Definition staticShape (shape : list Z) : Prop :=
  Forall (fun d => 0 <= d < 2 ^ 63) shape.

(** The code [ConstantOpLowering] emits: the constant indices
    [i, i + 1, ...], then one constant and one store per element. *)
Definition indexValues (base count : nat) : list Value :=
  map (fun k => mkValue (base + k) IndexType) (seq 0 count).

Definition indexCode (base count : nat) (i : Z) : list Operation :=
  map (fun k => ArithConstantIndex (mkValue (base + k) IndexType) (i + Z.of_nat k))
      (seq 0 count).

Definition coordValues (base : nat) (c : list Z) : list Value :=
  map (fun i => mkValue (base + Z.to_nat i) IndexType) c.

Fixpoint storeCode (alloc : Value) (next : nat) (cvs : list (list Value * elem))
    : list Operation :=
  match cvs with
  | [] => []
  | (indices, v) :: cvs' =>
      ArithConstant (mkValue next F64Type) v ::
      AffineStore (mkValue next F64Type) alloc indices ::
      storeCode alloc (S next) cvs'
  end.

(** The number of constant indices [ConstantOpLowering] creates. *)
Definition indexCount (shape : list Z) : nat :=
  match shape with
  | d :: ds => Z.to_nat (max_element d ds)
  | [] => 1%nat
  end.

(** The cells of a buffer after a sequence of stores. *)
Definition storeAll (buf : Buffer) (cvs : list (list Z * elem)) : Buffer :=
  fold_left (fun b cv => storeCell b (fst cv) (snd cv)) cvs buf.

(** The state of the machine while a loop nest writes buffer [b]: the
    environment, the allocator and the output are those of the start, and so
    is every buffer but [b]. *)
Definition framed (st0 : Machine) (b : nat) (st : Machine) : Prop :=
  env st = env st0 /\ next_buf st = next_buf st0 /\ printed st = printed st0 /\
  forall b', b' <> b -> mem st !! b' = mem st0 !! b'.

(** The body of the innermost loop [GemmOpLowering] emits. *)
Definition gemmBody (alloc lhs' rhs' i j k l r mul cur upd : Value) : list Operation :=
  [AffineLoad l lhs' [i; k];
   AffineLoad r rhs' [j; k];
   ArithMulF mul l r;
   AffineLoad cur alloc [i; j];
   ArithAddF upd cur mul;
   AffineStore upd alloc [i; j];
   AffineYield].

(** A small program logic for the rewriter monad.  [hoare P m Q]: from a
    rewriter that satisfies [P], [m] either fires an assertion or returns a
    result and a rewriter that satisfy [Q]; it never uses up the step budget. *)
Definition hoare {A} (P : Rewriter -> Prop) (m : M A)
    (Q : A -> Rewriter -> Prop) : Prop :=
  forall rw, P rw ->
    match m rw with
    | Ok (a, rw') => Q a rw'
    | Abort => True
    | Exhausted => False
    end.

(** The state of the block as far as the driver cares: what is behind the
    insertion point, and whether everything in front of it is legal (given
    that it was, [L], at the start). *)
Definition blockIs (L : Prop) (after : list Operation) (rw : Rewriter) : Prop :=
  rw_after rw = after /\ (L -> allLegal (rw_before rw) = true).

(** [keeps Q m]: [m] leaves the operations behind the insertion point
    alone, creates legal operations only, and returns a result in [Q]. *)
Definition keeps {A} (Q : A -> Prop) (m : M A) : Prop :=
  forall L after, hoare (blockIs L after) m (fun a rw => Q a /\ blockIs L after rw).

(** What the driver needs to know of a pattern run on the operation [cur]
    at the insertion point. *)
Definition rewritten (L : Prop) (rest : list Operation)
    (r : LogicalResult) (rw : Rewriter) : Prop :=
  r = success -> exists rest', afterStep rest rest' /\ blockIs L rest' rw.

(** [conv] cannot convert a region that holds a doomed operation. *)
Definition stopsAtDoomed (conv : M LogicalResult) : Prop :=
  forall rw bad, bad ∈ rw_after rw -> doomed bad ->
    match conv rw with
    | Ok (success, _) => False
    | _ => True
    end.

(** The code a loop-nest builder leaves for the upper bounds [ubs], with
    lower bounds 0 and steps 1: one loop per bound, outermost first, each
    body closed by [affine.yield]; [body ivs next] is what the per-iteration
    function creates in the innermost one, given the induction variables and
    the first fresh identifier. *)
Fixpoint nestCode (ubs : list Z) (ivs : list Value) (next : nat)
    (body : list Value -> nat -> list Operation) : list Operation :=
  match ubs with
  | [] => body ivs next
  | ub :: ubs' =>
      [AffineFor (mkValue next IndexType) 0 ub 1
         (nestCode ubs' (ivs ++ [mkValue next IndexType]) (S next) body ++ [AffineYield])]
  end.

(** The body [lowerOpToLoops] builds for a [BinaryOpLowering], and the one it
    builds for the [TransposeOpLowering]. *)
Definition binaryBody (k : LoweredBinaryOp) (alloc lhs' rhs' : Value)
    (ivs : list Value) (next : nat) : list Operation :=
  [AffineLoad (mkValue next F64Type) lhs' ivs;
   AffineLoad (mkValue (1 + next) F64Type) rhs' ivs;
   createLowered k (mkValue (2 + next) F64Type)
     (mkValue next F64Type) (mkValue (1 + next) F64Type);
   AffineStore (mkValue (2 + next) F64Type) alloc ivs].

Definition transposeBody (alloc input' : Value)
    (ivs : list Value) (next : nat) : list Operation :=
  [AffineLoad (mkValue next F64Type) input' (rev ivs);
   AffineStore (mkValue next F64Type) alloc ivs].

(** The environment inside a loop nest: the induction variables [ivs] are
    bound to the coordinate [c], outermost first. *)
Fixpoint bindIvs (e : gmap nat RtVal) (ivs : list Value) (c : list Z)
    : gmap nat RtVal :=
  match ivs, c with
  | iv :: ivs', i :: c' => bindIvs (<[vid iv := RIndex i]> e) ivs' c'
  | _, _ => e
  end.

(** Is the operation a store, a loop, an allocation? *)
Definition isStore (op : Operation) : bool :=
  match op with AffineStore _ _ _ => true | _ => false end.

Definition isFor (op : Operation) : bool :=
  match op with AffineFor _ _ _ _ _ => true | _ => false end.

Definition isIndexConstant (op : Operation) : bool :=
  match op with ArithConstantIndex _ _ => true | _ => false end.

(** Solve a lookup in an environment built by insertions at known
    identifiers, given the environment [He] it was built from. *)
Ltac env_lookup :=
  repeat (rewrite lookup_insert_ne by (simpl; lia));
  rewrite ?lookup_insert_eq.

Ltac solve_get He :=
  unfold getBuffer, getFloat, getIndices, getIndex, setEnv, setMem;
  cbn [env mem next_buf printed vid vtype];
  rewrite ?He; cbn [env mem next_buf printed vid vtype];
  repeat first
    [ rewrite lookup_insert_eq
    | rewrite lookup_insert_ne by (simpl; lia)
    | match goal with
      | H : ?m !! ?k = Some _ |- context [?m !! ?k] => rewrite H
      end
    | progress cbn [env mem next_buf printed vid vtype] ];
  try reflexivity.

(** * Properties *)

(** ** Lists and the rewriter *)

Lemma splitLast_snoc {A} (l : list A) (x : A) : splitLast (l ++ [x]) = Some (l, x).
Proof.
  induction l as [|a l IH]; [reflexivity|].
  simpl. rewrite IH. destruct l; reflexivity.
Qed.

Lemma insertAllocAndDealloc_run type pre cur post back next mapping :
  insertAllocAndDealloc type (mkRewriter pre (cur :: post ++ [back]) next mapping)
  = Ok (mkValue next type,
        mkRewriter (MemRefAlloc (mkValue next type) :: pre)
                   (cur :: post ++ [MemRefDealloc (mkValue next type); back])
                   (S next) mapping).
Proof.
  unfold insertAllocAndDealloc, bind, freshValue, create, moveBeforeFront,
    moveBeforeBack, ret; cbn -[splitLast].
  rewrite splitLast_snoc; cbn -[splitLast].
  rewrite (app_comm_cons pre), splitLast_snoc; cbn -[splitLast].
  rewrite splitLast_snoc. reflexivity.
Qed.

(** ** The interpreter *)

Lemma exec_op_AffineFor iv lb ub step body st :
  exec_op (AffineFor iv lb ub step body) st =
  match tripCount lb ub step with
  | Some n =>
      forLoop n lb step
        (fun i st =>
           match exec_block body (setEnv st iv (RIndex i)) with
           | Some st' => Some (mkMachine (env st) (mem st') (next_buf st') (printed st'))
           | None => None
           end) st
  | None => None
  end.
Proof.
  simpl. destruct (tripCount lb ub step); [|reflexivity].
  f_equal.
Qed.

Lemma tripCount_unit ub : tripCount 0 ub 1 = Some (Z.to_nat ub).
Proof. unfold tripCount. simpl. f_equal. f_equal. rewrite Z.div_1_r. lia. Qed.

(** A loop with unit step run under an invariant. *)
Lemma forLoop_inv (P : Z -> Machine -> Prop) body :
  forall n lb st,
    P lb st ->
    (forall i st, lb <= i < lb + Z.of_nat n -> P i st ->
                  exists st', body i st = Some st' /\ P (i + 1) st') ->
    exists st', forLoop n lb 1 body st = Some st' /\ P (lb + Z.of_nat n) st'.
Proof.
  induction n as [|n IH]; intros lb st H0 Hstep.
  - exists st. split; [reflexivity|]. now replace (lb + Z.of_nat 0) with lb by lia.
  - destruct (Hstep lb st) as (st1 & E1 & P1); [lia|assumption|].
    simpl. rewrite E1.
    destruct (IH (lb + 1) st1 P1) as (st2 & E2 & P2).
    { intros i s Hi. apply Hstep. lia. }
    exists st2. split; [assumption|].
    now replace (lb + Z.of_nat (S n)) with (lb + 1 + Z.of_nat n) by lia.
Qed.

(** ** Loop nests that fill a buffer *)

Lemma framed_refl st0 b : framed st0 b st0.
Proof. repeat split. Qed.

Lemma exec_block_cons o ops st :
  exec_block (o :: ops) st =
  match exec_op o st with
  | Some st' => exec_block ops st'
  | None => None
  end.
Proof. reflexivity. Qed.

Lemma exec_block_app ops1 ops2 st :
  exec_block (ops1 ++ ops2) st =
  match exec_block ops1 st with
  | Some st' => exec_block ops2 st'
  | None => None
  end.
Proof.
  revert st. induction ops1 as [|o ops1 IH]; intros st; [reflexivity|].
  simpl. destruct (exec_op o st); [apply IH|reflexivity].
Qed.

(** One [affine.for] from 0 with unit step, run under an invariant on the
    states between iterations; these states all have the environment of the
    start. *)
Lemma exec_for_inv (P : Z -> Machine -> Prop) iv ub body st0 :
  P 0 st0 ->
  (forall i s, 0 <= i < ub -> P i s -> env s = env st0 ->
     exists s', exec_block body (setEnv s iv (RIndex i)) = Some s' /\
                P (i + 1) (mkMachine (env st0) (mem s') (next_buf s') (printed s'))) ->
  exists st', exec_op (AffineFor iv 0 ub 1 body) st0 = Some st' /\
              P (Z.max 0 ub) st' /\ env st' = env st0.
Proof.
  intros H0 Hstep. rewrite exec_op_AffineFor, tripCount_unit.
  destruct (forLoop_inv (fun i s => P i s /\ env s = env st0)
              (fun i st => match exec_block body (setEnv st iv (RIndex i)) with
                           | Some st' => Some (mkMachine (env st) (mem st') (next_buf st') (printed st'))
                           | None => None
                           end) (Z.to_nat ub) 0 st0) as (st' & E & HP & He).
  - split; [assumption|reflexivity].
  - intros i s Hi [HPs Hes].
    destruct (Hstep i s) as (s' & Es & HP'); [lia|assumption..|].
    rewrite Es. eexists. split; [reflexivity|]. rewrite Hes. split; [assumption|reflexivity].
  - exists st'. split; [assumption|]. split; [|assumption].
    now replace (Z.max 0 ub) with (0 + Z.of_nat (Z.to_nat ub)) by lia.
Qed.

(** A loop nest of depth two whose body stores [target i j] at [[i; j]] of
    buffer [b] leaves [target] in every cell of [b]. *)
Lemma nest2_fills iv0 iv1 body m n b (target : Z -> Z -> elem) st0 buf0 :
  (forall s buf i j,
     framed st0 b s -> mem s !! b = Some buf -> buf_shape buf = [m; n] ->
     0 <= i < m -> 0 <= j < n ->
     exists s',
       exec_block body (setEnv (setEnv s iv0 (RIndex i)) iv1 (RIndex j)) = Some s' /\
       mem s' = <[b := storeCell buf [i; j] (target i j)]> (mem s) /\
       next_buf s' = next_buf s /\ printed s' = printed s) ->
  mem st0 !! b = Some buf0 -> buf_shape buf0 = [m; n] ->
  exists st' buf,
    exec_op (AffineFor iv0 0 m 1 [AffineFor iv1 0 n 1 body; AffineYield]) st0 = Some st' /\
    framed st0 b st' /\ mem st' !! b = Some buf /\ buf_shape buf = [m; n] /\
    forall i j, 0 <= i < m -> 0 <= j < n -> buf_cells buf [i; j] = target i j.
Proof.
  intros Hbody Hb0 Hs0.
  pose (filled := fun (i j : Z) (s : Machine) =>
    framed st0 b s /\
    exists buf, mem s !! b = Some buf /\ buf_shape buf = [m; n] /\
      forall i' j', 0 <= j' < n -> 0 <= i' < i \/ (i' = i /\ j' < j) ->
                    buf_cells buf [i'; j'] = target i' j').
  destruct (exec_for_inv (fun i s => filled i 0 s) iv0 m
              [AffineFor iv1 0 n 1 body; AffineYield] st0) as (st' & E & HP & He).
  - split; [apply framed_refl|]. exists buf0. repeat split; try assumption. intros; lia.
  - intros i s Hi Hfill Hes.
    set (s1 := setEnv s iv0 (RIndex i)).
    destruct (exec_for_inv
                (fun j t => filled i j (mkMachine (env st0) (mem t) (next_buf t) (printed t)))
                iv1 n body s1) as (t & Et & HPt & Het).
    + destruct Hfill as [Hfr Hbuf]. split; [|exact Hbuf].
      destruct Hfr as (? & ? & ? & ?). repeat split; assumption.
    + intros j t Hj [Hfr (buf & Hbuf & Hshape & Hcells)] Het.
      destruct (Hbody (mkMachine (env st0) (mem t) (next_buf t) (printed t)) buf i j)
        as (s' & Es' & Hm' & Hn' & Hp'); try assumption.
      replace (setEnv t iv1 (RIndex j))
        with (setEnv (setEnv (mkMachine (env st0) (mem t) (next_buf t) (printed t))
                             iv0 (RIndex i)) iv1 (RIndex j)).
      2:{ unfold setEnv; simpl. destruct t as [te tm tn tp]; simpl in *.
          rewrite Het. unfold s1, setEnv. simpl. now rewrite Hes. }
      exists s'. split; [assumption|]. split.
      * destruct Hfr as (He1 & Hn1 & Hp1 & Hm1). repeat split; simpl in *; try congruence.
        intros b' Hb'. rewrite Hm'. rewrite lookup_insert_ne by congruence. now apply Hm1.
      * exists (storeCell buf [i; j] (target i j)). simpl. rewrite Hm'.
        split; [apply lookup_insert_eq|]. split; [assumption|].
        intros i' j' Hj' Hdone. simpl. destruct (decide ([i'; j'] = [i; j])) as [Eq|Ne].
        -- now injection Eq as -> ->.
        -- apply Hcells; [assumption|].
           destruct Hdone as [?|[-> ?]]; [now left|]. right. split; [reflexivity|].
           assert (j' <> j) by congruence. lia.
    + rewrite exec_block_cons. fold s1. rewrite Et.
      eexists. split; [reflexivity|].
      destruct HPt as [Hfr (buf & Hbuf & Hshape & Hcells)]. simpl.
      split; [exact Hfr|]. exists buf. repeat split; try assumption.
      intros i' j' Hj' Hdone. apply Hcells; [assumption|]. lia.
  - exists st'. destruct HP as [Hfr (buf & Hbuf & Hshape & Hcells)].
    exists buf. repeat split; try assumption; try apply Hfr.
    intros i j Hi Hj. apply Hcells; lia.
Qed.

(** ** Elementwise operations *)

(** The code [BinaryOpLowering] emits for a result of rank two. *)
Lemma BinaryOpLowering_run k m n rid lhs rhs lhs' rhs' pre post back next mapping :
  let res := mkValue rid (TensorType [m; n]) in
  let alloc := mkValue next (MemRefType [m; n]) in
  let iv0 := mkValue (1 + next) IndexType in
  let iv1 := mkValue (2 + next) IndexType in
  let l := mkValue (3 + next) F64Type in
  let r := mkValue (4 + next) F64Type in
  let x := mkValue (5 + next) F64Type in
  BinaryOpLowering k (binaryOp k res lhs rhs) [lhs'; rhs']
    (mkRewriter pre (binaryOp k res lhs rhs :: post ++ [back]) next mapping)
  = Ok (success,
        mkRewriter
          (MemRefAlloc alloc :: pre ++
           [AffineFor iv0 0 m 1
              [AffineFor iv1 0 n 1
                 [AffineLoad l lhs' [iv0; iv1];
                  AffineLoad r rhs' [iv0; iv1];
                  createLowered k x l r;
                  AffineStore x alloc [iv0; iv1];
                  AffineYield];
               AffineYield]])
          (post ++ [MemRefDealloc alloc; back])
          (6 + next) (<[rid := alloc]> mapping)).
Proof.
  intros. unfold BinaryOpLowering, lowerOpToLoops.
  unfold bind at 1 2 3. unfold lift at 1.
  replace (resultTensorType (binaryOp k res lhs rhs)) with (Some (TensorType [m; n]))
    by (destruct k; reflexivity).
  unfold bind at 1. unfold lift at 1. cbn [convertTensorToMemRef].
  unfold bind at 1. rewrite insertAllocAndDealloc_run.
  destruct k; reflexivity.
Qed.

Lemma getBuffer_Some st v b buf :
  getBuffer st v = Some (b, buf) ->
  env st !! vid v = Some (RMemRef b) /\ mem st !! b = Some buf.
Proof.
  unfold getBuffer. destruct (env st !! vid v) as [[| |b']|]; try discriminate.
  destruct (mem st !! b') eqn:E; [|discriminate].
  intros [= <- <-]. split; [reflexivity|assumption].
Qed.

Lemma getBuffer_intro st v b buf :
  env st !! vid v = Some (RMemRef b) -> mem st !! b = Some buf ->
  getBuffer st v = Some (b, buf).
Proof. unfold getBuffer. now intros -> ->. Qed.

Lemma inBounds2 m n i j :
  0 <= i < m -> 0 <= j < n -> inBounds [m; n] [i; j] = true.
Proof.
  intros Hi Hj. simpl.
  replace (0 <=? i) with true by (symmetry; apply Z.leb_le; lia).
  replace (i <? m) with true by (symmetry; apply Z.ltb_lt; lia).
  replace (0 <=? j) with true by (symmetry; apply Z.leb_le; lia).
  replace (j <? n) with true by (symmetry; apply Z.ltb_lt; lia).
  reflexivity.
Qed.

Lemma exec_load st res m indices b buf idx :
  getBuffer st m = Some (b, buf) ->
  getIndices (env st) indices = Some idx ->
  inBounds (buf_shape buf) idx = true ->
  exec_op (AffineLoad res m indices) st = Some (setEnv st res (RFloat (buf_cells buf idx))).
Proof. intros Hb Hi Hin. simpl. now rewrite Hb, Hi, Hin. Qed.

Lemma exec_store st v m indices x b buf idx :
  getFloat (env st) v = Some x ->
  getBuffer st m = Some (b, buf) ->
  getIndices (env st) indices = Some idx ->
  inBounds (buf_shape buf) idx = true ->
  exec_op (AffineStore v m indices) st = Some (setMem st b (storeCell buf idx x)).
Proof. intros Hx Hb Hi Hin. simpl. now rewrite Hx, Hb, Hi, Hin. Qed.

Lemma exec_lowered st k res l r x y :
  getFloat (env st) l = Some x ->
  getFloat (env st) r = Some y ->
  exec_op (createLowered k res l r) st = Some (setEnv st res (RFloat (scalarOp k x y))).
Proof. intros Hx Hy. destruct k; simpl; now rewrite Hx, Hy. Qed.

(** The template [BinaryOpLowering] at rank two, for either scalar
    operation: the code it emits and what running that code leaves in the
    new buffer. *)
Lemma BinaryOpLowering_fills
    k m n rid lhs rhs lhs' rhs' post back next mapping st bl bufl br bufr :
  let res := mkValue rid (TensorType [m; n]) in
  let op := binaryOp k res lhs rhs in
  (vid lhs' < next)%nat -> (vid rhs' < next)%nat ->
  getBuffer st lhs' = Some (bl, bufl) -> buf_shape bufl = [m; n] ->
  getBuffer st rhs' = Some (br, bufr) -> buf_shape bufr = [m; n] ->
  mem st !! next_buf st = None ->
  exists alloc iv0 iv1 l r x rw' st' b buf,
    BinaryOpLowering k op [lhs'; rhs'] (mkRewriter [] (op :: post ++ [back]) next mapping)
      = Ok (success, rw') /\
    rw_mapping rw' !! rid = Some alloc /\
    vtype alloc = MemRefType [m; n] /\
    rw_before rw' =
      [MemRefAlloc alloc;
       AffineFor iv0 0 m 1
         [AffineFor iv1 0 n 1
            [AffineLoad l lhs' [iv0; iv1];
             AffineLoad r rhs' [iv0; iv1];
             createLowered k x l r;
             AffineStore x alloc [iv0; iv1];
             AffineYield];
          AffineYield]] /\
    exec_block (rw_before rw') st = Some st' /\
    getBuffer st' alloc = Some (b, buf) /\
    buf_shape buf = [m; n] /\
    forall i j, 0 <= i < m -> 0 <= j < n ->
      buf_cells buf [i; j] = scalarOp k (buf_cells bufl [i; j]) (buf_cells bufr [i; j]).
Proof.
  intros res op Hlf Hrf Hl Hsl Hr Hsr Hfree.
  apply getBuffer_Some in Hl as [Hle Hlm]. apply getBuffer_Some in Hr as [Hre Hrm].
  unfold op, res. rewrite BinaryOpLowering_run.
  set (alloc := mkValue next (MemRefType [m; n])).
  set (b := next_buf st).
  set (st1 := mkMachine (<[next := RMemRef b]> (env st))
                        (<[b := mkBuffer [m; n] (garbage b)]> (mem st))
                        (S b) (printed st)).
  assert (Hbl : bl <> b) by (intros ->; unfold b in Hlm; congruence).
  assert (Hbr : br <> b) by (intros ->; unfold b in Hrm; congruence).
  edestruct (nest2_fills (mkValue (1 + next) IndexType) (mkValue (2 + next) IndexType)
               [AffineLoad (mkValue (3 + next) F64Type) lhs'
                  [mkValue (1 + next) IndexType; mkValue (2 + next) IndexType];
                AffineLoad (mkValue (4 + next) F64Type) rhs'
                  [mkValue (1 + next) IndexType; mkValue (2 + next) IndexType];
                createLowered k (mkValue (5 + next) F64Type)
                  (mkValue (3 + next) F64Type) (mkValue (4 + next) F64Type);
                AffineStore (mkValue (5 + next) F64Type) alloc
                  [mkValue (1 + next) IndexType; mkValue (2 + next) IndexType];
                AffineYield]
               m n b
               (fun i j => scalarOp k (buf_cells bufl [i; j]) (buf_cells bufr [i; j]))
               st1 (mkBuffer [m; n] (garbage b)))
    as (st' & buf & E & Hfr & Hbuf & Hshape & Hcells).
  - intros s buf i j (He & Hn & Hp & Hm) Hbuf Hshape Hi Hj.
    assert (Hml : mem s !! bl = Some bufl).
    { rewrite Hm by assumption. simpl. now rewrite lookup_insert_ne by congruence. }
    assert (Hmr : mem s !! br = Some bufr).
    { rewrite Hm by assumption. simpl. now rewrite lookup_insert_ne by congruence. }
    unfold st1 in He; cbn [env] in He. unfold alloc.
    eexists. split.
    + rewrite exec_block_cons.
      erewrite exec_load; [| solve_get He | solve_get He | rewrite Hsl; now apply inBounds2].
      rewrite exec_block_cons.
      erewrite exec_load; [| solve_get He | solve_get He | rewrite Hsr; now apply inBounds2].
      rewrite exec_block_cons.
      erewrite exec_lowered; [| solve_get He | solve_get He ].
      rewrite exec_block_cons.
      erewrite exec_store; [| solve_get He | solve_get He | solve_get He | rewrite Hshape; now apply inBounds2].
      reflexivity.
    + repeat split.
  - apply lookup_insert_eq.
  - reflexivity.
  - exists alloc. do 6 eexists. exists st', b, buf.
    split; [reflexivity|]. cbn [rw_mapping rw_before app].
    split; [apply lookup_insert_eq|]. split; [reflexivity|].
    split; [reflexivity|].
    split.
    { rewrite exec_block_cons. cbn [exec_op alloc vtype vid]. fold b. fold st1.
      rewrite exec_block_cons, E. reflexivity. }
    split.
    { destruct Hfr as (He & _). apply getBuffer_intro; [|assumption].
      rewrite He. apply lookup_insert_eq. }
    split; assumption.
Qed.

(** C5.  Elementwise addition and multiplication.  For same-shape operands
    of shape [[m; n]], the rule of the pass for [pony.add], [AddOpLowering],
    and its rule for [pony.mul], [MulOpLowering], each allocate a buffer of
    the result shape and emit a loop nest of depth two whose body loads both
    operands at the induction variables, applies the scalar operation of the
    rule ([arith.addf] for the addition, [arith.mulf] for the multiplication)
    and stores the value there.  Each is what the pattern set of the pass does
    on its operation when the operands have been replaced by the two buffers.
    Run on a machine that holds the two operand buffers, the code leaves
    [lhs[i][j] + rhs[i][j]], respectively [lhs[i][j] * rhs[i][j]], in cell
    [[i; j]] of the new buffer, for all [i < m] and [j < n]. *)
Theorem BinaryOpLowering_elementwise
    m n rid lhs rhs lhs' rhs' post back next mapping st bl bufl br bufr :
  let res := mkValue rid (TensorType [m; n]) in
  let add := PonyAdd res lhs rhs in
  let mul := PonyMul res lhs rhs in
  (vid lhs' < next)%nat -> (vid rhs' < next)%nat ->
  getBuffer st lhs' = Some (bl, bufl) -> buf_shape bufl = [m; n] ->
  getBuffer st rhs' = Some (br, bufr) -> buf_shape bufr = [m; n] ->
  mem st !! next_buf st = None ->
  (exists alloc iv0 iv1 l r x rw' st' b buf,
     AddOpLowering add [lhs'; rhs'] (mkRewriter [] (add :: post ++ [back]) next mapping)
       = Ok (success, rw') /\
     (mapping !! vid lhs = Some lhs' -> mapping !! vid rhs = Some rhs' ->
      applyPatterns add (mkRewriter [] (add :: post ++ [back]) next mapping)
        = Ok (success, rw')) /\
     rw_mapping rw' !! rid = Some alloc /\
     vtype alloc = MemRefType [m; n] /\
     rw_before rw' =
       [MemRefAlloc alloc;
        AffineFor iv0 0 m 1
          [AffineFor iv1 0 n 1
             [AffineLoad l lhs' [iv0; iv1];
              AffineLoad r rhs' [iv0; iv1];
              ArithAddF x l r;
              AffineStore x alloc [iv0; iv1];
              AffineYield];
           AffineYield]] /\
     exec_block (rw_before rw') st = Some st' /\
     getBuffer st' alloc = Some (b, buf) /\
     buf_shape buf = [m; n] /\
     forall i j, 0 <= i < m -> 0 <= j < n ->
       buf_cells buf [i; j] = addf (buf_cells bufl [i; j]) (buf_cells bufr [i; j])) /\
  (exists alloc iv0 iv1 l r x rw' st' b buf,
     MulOpLowering mul [lhs'; rhs'] (mkRewriter [] (mul :: post ++ [back]) next mapping)
       = Ok (success, rw') /\
     (mapping !! vid lhs = Some lhs' -> mapping !! vid rhs = Some rhs' ->
      applyPatterns mul (mkRewriter [] (mul :: post ++ [back]) next mapping)
        = Ok (success, rw')) /\
     rw_mapping rw' !! rid = Some alloc /\
     vtype alloc = MemRefType [m; n] /\
     rw_before rw' =
       [MemRefAlloc alloc;
        AffineFor iv0 0 m 1
          [AffineFor iv1 0 n 1
             [AffineLoad l lhs' [iv0; iv1];
              AffineLoad r rhs' [iv0; iv1];
              ArithMulF x l r;
              AffineStore x alloc [iv0; iv1];
              AffineYield];
           AffineYield]] /\
     exec_block (rw_before rw') st = Some st' /\
     getBuffer st' alloc = Some (b, buf) /\
     buf_shape buf = [m; n] /\
     forall i j, 0 <= i < m -> 0 <= j < n ->
       buf_cells buf [i; j] = mulf (buf_cells bufl [i; j]) (buf_cells bufr [i; j])).
Proof.
  intros res add mul Hlf Hrf Hl Hsl Hr Hsr Hfree. split.
  - destruct (BinaryOpLowering_fills AddFOp m n rid lhs rhs lhs' rhs' post back next
                mapping st bl bufl br bufr Hlf Hrf Hl Hsl Hr Hsr Hfree)
      as (alloc & iv0 & iv1 & l & r & x & rw' & st' & b & buf &
          Hrun & Hmap & Hty & Hcode & Hexec & Hget & Hshape & Hcells).
    exists alloc, iv0, iv1, l, r, x, rw', st', b, buf.
    split; [exact Hrun|]. split.
    { intros Ml Mr. unfold add. cbn [applyPatterns operandsOf].
      unfold bind at 1. unfold remapValues. cbn [rw_mapping map].
      rewrite Ml, Mr. exact Hrun. }
    split; [exact Hmap|]. split; [exact Hty|]. split; [exact Hcode|].
    split; [exact Hexec|]. split; [exact Hget|]. split; [exact Hshape|exact Hcells].
  - destruct (BinaryOpLowering_fills MulFOp m n rid lhs rhs lhs' rhs' post back next
                mapping st bl bufl br bufr Hlf Hrf Hl Hsl Hr Hsr Hfree)
      as (alloc & iv0 & iv1 & l & r & x & rw' & st' & b & buf &
          Hrun & Hmap & Hty & Hcode & Hexec & Hget & Hshape & Hcells).
    exists alloc, iv0, iv1, l, r, x, rw', st', b, buf.
    split; [exact Hrun|]. split.
    { intros Ml Mr. unfold mul. cbn [applyPatterns operandsOf].
      unfold bind at 1. unfold remapValues. cbn [rw_mapping map].
      rewrite Ml, Mr. exact Hrun. }
    split; [exact Hmap|]. split; [exact Hty|]. split; [exact Hcode|].
    split; [exact Hexec|]. split; [exact Hget|]. split; [exact Hshape|exact Hcells].
Qed.

(** ** Transpose *)

Lemma TransposeOpLowering_run m n rid input input' pre post back next mapping :
  let res := mkValue rid (TensorType [n; m]) in
  let alloc := mkValue next (MemRefType [n; m]) in
  let iv0 := mkValue (1 + next) IndexType in
  let iv1 := mkValue (2 + next) IndexType in
  let l := mkValue (3 + next) F64Type in
  TransposeOpLowering (PonyTranspose res input) [input']
    (mkRewriter pre (PonyTranspose res input :: post ++ [back]) next mapping)
  = Ok (success,
        mkRewriter
          (MemRefAlloc alloc :: pre ++
           [AffineFor iv0 0 n 1
              [AffineFor iv1 0 m 1
                 [AffineLoad l input' [iv1; iv0];
                  AffineStore l alloc [iv0; iv1];
                  AffineYield];
               AffineYield]])
          (post ++ [MemRefDealloc alloc; back])
          (4 + next) (<[rid := alloc]> mapping)).
Proof.
  intros. unfold TransposeOpLowering, lowerOpToLoops.
  unfold bind at 1 2 3. unfold lift at 1. cbn [resultTensorType resultOf vtype res isTensorType].
  unfold bind at 1. unfold lift at 1. cbn [convertTensorToMemRef].
  unfold bind at 1. rewrite insertAllocAndDealloc_run.
  reflexivity.
Qed.

(** C4.  Transpose.  For an input of shape [[m; n]] and a result of shape
    [[n; m]], [TransposeOpLowering] allocates a buffer of the result shape
    and emits a loop nest of the rank of the result whose body loads the
    input at the induction variables in reverse order and stores the value
    at the induction variables.  Run on a machine that holds the input
    buffer, the code leaves [input[j][i]] in cell [[i; j]] of the new buffer,
    for all [i < n] and [j < m]. *)
Theorem TransposeOpLowering_transposes
    m n rid input input' post back next mapping st bi bufi :
  let res := mkValue rid (TensorType [n; m]) in
  let op := PonyTranspose res input in
  (vid input' < next)%nat ->
  getBuffer st input' = Some (bi, bufi) -> buf_shape bufi = [m; n] ->
  mem st !! next_buf st = None ->
  exists alloc iv0 iv1 l rw' st' b buf,
    TransposeOpLowering op [input'] (mkRewriter [] (op :: post ++ [back]) next mapping)
      = Ok (success, rw') /\
    rw_mapping rw' !! rid = Some alloc /\
    vtype alloc = MemRefType [n; m] /\
    rw_before rw' =
      [MemRefAlloc alloc;
       AffineFor iv0 0 n 1
         [AffineFor iv1 0 m 1
            [AffineLoad l input' (rev [iv0; iv1]);
             AffineStore l alloc [iv0; iv1];
             AffineYield];
          AffineYield]] /\
    exec_block (rw_before rw') st = Some st' /\
    getBuffer st' alloc = Some (b, buf) /\
    buf_shape buf = [n; m] /\
    forall i j, 0 <= i < n -> 0 <= j < m ->
      buf_cells buf [i; j] = buf_cells bufi [j; i].
Proof.
  intros res op Hif Hi Hsi Hfree.
  apply getBuffer_Some in Hi as [Hie Him].
  unfold op, res. rewrite TransposeOpLowering_run.
  set (alloc := mkValue next (MemRefType [n; m])).
  set (b := next_buf st).
  set (st1 := mkMachine (<[next := RMemRef b]> (env st))
                        (<[b := mkBuffer [n; m] (garbage b)]> (mem st))
                        (S b) (printed st)).
  assert (Hbi : bi <> b) by (intros ->; unfold b in Him; congruence).
  edestruct (nest2_fills (mkValue (1 + next) IndexType) (mkValue (2 + next) IndexType)
               [AffineLoad (mkValue (3 + next) F64Type) input'
                  [mkValue (2 + next) IndexType; mkValue (1 + next) IndexType];
                AffineStore (mkValue (3 + next) F64Type) alloc
                  [mkValue (1 + next) IndexType; mkValue (2 + next) IndexType];
                AffineYield]
               n m b (fun i j => buf_cells bufi [j; i])
               st1 (mkBuffer [n; m] (garbage b)))
    as (st' & buf & E & Hfr & Hbuf & Hshape & Hcells).
  - intros s buf i j (He & Hn & Hp & Hm) Hbuf Hshape Hi Hj.
    assert (Hmi : mem s !! bi = Some bufi).
    { rewrite Hm by assumption. simpl. now rewrite lookup_insert_ne by congruence. }
    unfold st1 in He; cbn [env] in He. unfold alloc.
    eexists. split.
    + rewrite exec_block_cons.
      erewrite exec_load; [| solve_get He | solve_get He | rewrite Hsi; now apply inBounds2].
      rewrite exec_block_cons.
      erewrite exec_store; [| solve_get He | solve_get He | solve_get He | rewrite Hshape; now apply inBounds2].
      reflexivity.
    + repeat split.
  - apply lookup_insert_eq.
  - reflexivity.
  - exists alloc. do 4 eexists. exists st', b, buf.
    split; [reflexivity|]. cbn [rw_mapping rw_before app].
    split; [apply lookup_insert_eq|]. split; [reflexivity|].
    split; [reflexivity|].
    split.
    { rewrite exec_block_cons. cbn [exec_op alloc vtype vid]. fold b. fold st1.
      rewrite exec_block_cons, E. reflexivity. }
    split.
    { destruct Hfr as (He & _). apply getBuffer_intro; [|assumption].
      rewrite He. apply lookup_insert_eq. }
    split; assumption.
Qed.

(** ** Matrix multiplication *)

Lemma accumulate_succ k start term :
  0 <= k -> accumulate (k + 1) start term = addf (accumulate k start term) (term k).
Proof.
  intros Hk. unfold accumulate. rewrite seqZ_app by lia.
  rewrite fold_left_app. rewrite (seqZ_cons (0 + k) 1) by lia.
  rewrite seqZ_nil by lia. reflexivity.
Qed.

Lemma accumulate_nonpos k start term : k <= 0 -> accumulate k start term = start.
Proof. intros Hk. unfold accumulate. now rewrite seqZ_nil. Qed.

Lemma accumulate_max K start term :
  accumulate (Z.max 0 K) start term = accumulate K start term.
Proof.
  destruct (Z.le_gt_cases 0 K).
  - now rewrite Z.max_r.
  - rewrite Z.max_l by lia. now rewrite !accumulate_nonpos by lia.
Qed.

(** A loop nest of depth three whose body adds [term i j k] to cell
    [[i; j]] of buffer [b] accumulates, in every cell, the terms on top of
    what the cell held at the start. *)
Lemma nest3_accumulates iv0 iv1 iv2 body M_ N_ K_ b
    (term : Z -> Z -> Z -> elem) st0 buf0 :
  (forall s buf i j k,
     framed st0 b s -> mem s !! b = Some buf -> buf_shape buf = [M_; N_] ->
     0 <= i < M_ -> 0 <= j < N_ -> 0 <= k < K_ ->
     exists s',
       exec_block body
         (setEnv (setEnv (setEnv s iv0 (RIndex i)) iv1 (RIndex j)) iv2 (RIndex k))
         = Some s' /\
       mem s' = <[b := storeCell buf [i; j]
                          (addf (buf_cells buf [i; j]) (term i j k))]> (mem s) /\
       next_buf s' = next_buf s /\ printed s' = printed s) ->
  mem st0 !! b = Some buf0 -> buf_shape buf0 = [M_; N_] ->
  exists st' buf,
    exec_op (AffineFor iv0 0 M_ 1
               [AffineFor iv1 0 N_ 1
                  [AffineFor iv2 0 K_ 1 body; AffineYield];
                AffineYield]) st0 = Some st' /\
    framed st0 b st' /\ mem st' !! b = Some buf /\ buf_shape buf = [M_; N_] /\
    forall i j, 0 <= i < M_ -> 0 <= j < N_ ->
      buf_cells buf [i; j] = accumulate K_ (buf_cells buf0 [i; j]) (term i j).
Proof.
  intros Hbody Hb0 Hs0.
  pose (G := fun (i j k : Z) (s : Machine) =>
    framed st0 b s /\
    exists buf, mem s !! b = Some buf /\ buf_shape buf = [M_; N_] /\
      forall i' j', 0 <= i' < M_ -> 0 <= j' < N_ ->
        (i' < i \/ (i' = i /\ j' < j) ->
           buf_cells buf [i'; j'] = accumulate K_ (buf_cells buf0 [i'; j']) (term i' j')) /\
        (i' = i /\ j' = j ->
           buf_cells buf [i'; j'] = accumulate k (buf_cells buf0 [i'; j']) (term i' j')) /\
        (i < i' \/ (i' = i /\ j < j') ->
           buf_cells buf [i'; j'] = buf_cells buf0 [i'; j'])).
  pose (reset := fun (t : Machine) => mkMachine (env st0) (mem t) (next_buf t) (printed t)).
  destruct (exec_for_inv (fun i s => G i 0 0 s) iv0 M_
              [AffineFor iv1 0 N_ 1 [AffineFor iv2 0 K_ 1 body; AffineYield]; AffineYield]
              st0) as (st' & E & HP & He).
  - split; [apply framed_refl|]. exists buf0. split; [assumption|]. split; [assumption|].
    intros i' j' Hi' Hj'. split; [lia|]. split; [|reflexivity].
    intros _. now rewrite accumulate_nonpos by lia.
  - intros i s Hi HG Hes.
    set (s1 := setEnv s iv0 (RIndex i)).
    destruct (exec_for_inv (fun j t => G i j 0 (reset t)) iv1 N_
                [AffineFor iv2 0 K_ 1 body; AffineYield] s1) as (t & Et & HPt & Het).
    + destruct HG as [(? & ? & ? & ?) Hbuf]. split; [|exact Hbuf]. repeat split; assumption.
    + intros j t Hj HGt Het.
      set (t1 := setEnv t iv1 (RIndex j)).
      destruct (exec_for_inv (fun k u => G i j k (reset u)) iv2 K_ body t1)
        as (u & Eu & HPu & Heu).
      * exact HGt.
      * intros k u Hk [Hfr (buf & Hbuf & Hshape & Hcells)] Heu.
        destruct (Hbody (reset u) buf i j k) as (s' & Es' & Hm' & Hn' & Hp');
          try assumption.
        replace (setEnv u iv2 (RIndex k))
          with (setEnv (setEnv (setEnv (reset u) iv0 (RIndex i)) iv1 (RIndex j))
                       iv2 (RIndex k)).
        2:{ unfold setEnv, reset; simpl. destruct u as [ue um un up]; simpl in *.
            rewrite Heu. unfold t1, setEnv; simpl. rewrite Het.
            unfold s1, setEnv; simpl. now rewrite Hes. }
        exists s'. split; [assumption|]. split.
        -- destruct Hfr as (He1 & Hn1 & Hp1 & Hm1). repeat split; simpl in *; try congruence.
           intros b' Hb'. rewrite Hm'. rewrite lookup_insert_ne by congruence. now apply Hm1.
        -- exists (storeCell buf [i; j] (addf (buf_cells buf [i; j]) (term i j k))).
           simpl. rewrite Hm'. split; [apply lookup_insert_eq|]. split; [assumption|].
           intros i' j' Hi' Hj'. destruct (Hcells i' j' Hi' Hj') as (Hdone & Hcur & Hnot).
           simpl. destruct (decide ([i'; j'] = [i; j])) as [Eq|Ne].
           ++ injection Eq as -> ->. split; [lia|]. split; [|lia].
              intros _. rewrite accumulate_succ by lia. f_equal. now apply Hcur.
           ++ assert (i' <> i \/ j' <> j) by (destruct (decide (i' = i)); [right|left]; congruence).
              split; [assumption|]. split; [lia|assumption].
      * rewrite exec_block_cons. fold t1. rewrite Eu. eexists. split; [reflexivity|].
        destruct HPu as [Hfr (buf & Hbuf & Hshape & Hcells)].
        split; [exact Hfr|]. exists buf. split; [exact Hbuf|]. split; [assumption|].
        intros i' j' Hi' Hj'. destruct (Hcells i' j' Hi' Hj') as (Hdone & Hcur & Hnot).
        split; [|split].
        -- intros [?|[-> ?]]; [apply Hdone; now left|].
           destruct (decide (j' = j)) as [->|].
           ++ rewrite Hcur by tauto. apply accumulate_max.
           ++ apply Hdone. right. split; [reflexivity|lia].
        -- intros [-> ->]. rewrite accumulate_nonpos by lia. apply Hnot. right. lia.
        -- intros [?|[-> ?]]; apply Hnot; [now left|right; lia].
    + rewrite exec_block_cons. fold s1. rewrite Et. eexists. split; [reflexivity|].
      destruct HPt as [Hfr (buf & Hbuf & Hshape & Hcells)].
      split; [exact Hfr|]. exists buf. split; [exact Hbuf|]. split; [assumption|].
      intros i' j' Hi' Hj'. destruct (Hcells i' j' Hi' Hj') as (Hdone & Hcur & Hnot).
      split; [|split].
      * intros [?|[? ?]]; [|lia]. apply Hdone.
        destruct (decide (i' = i)) as [->|]; [right; split; [reflexivity|lia]|left; lia].
      * intros [-> ->]. rewrite accumulate_nonpos by lia. apply Hnot. left. lia.
      * intros [?|[-> ?]]; apply Hnot; left; lia.
  - exists st'. destruct HP as [Hfr (buf & Hbuf & Hshape & Hcells)].
    exists buf. split; [assumption|]. split; [assumption|]. split; [assumption|].
    split; [assumption|].
    intros i j Hi Hj. destruct (Hcells i j Hi Hj) as (Hdone & _ & _).
    apply Hdone. left. lia.
Qed.

Lemma GemmOpLowering_run M_ N_ K_ rid lhs rhs lhs' rhs' pre post back next mapping :
  let res := mkValue rid (TensorType [M_; N_]) in
  let alloc := mkValue next (MemRefType [M_; N_]) in
  let i := mkValue (1 + next) IndexType in
  let j := mkValue (2 + next) IndexType in
  let k := mkValue (3 + next) IndexType in
  vtype lhs' = MemRefType [M_; K_] ->
  GemmOpLowering (PonyGemm res lhs rhs) [lhs'; rhs']
    (mkRewriter pre (PonyGemm res lhs rhs :: post ++ [back]) next mapping)
  = Ok (success,
        mkRewriter
          (MemRefAlloc alloc :: pre ++
           [AffineFor i 0 M_ 1
              [AffineFor j 0 N_ 1
                 [AffineFor k 0 K_ 1
                    (gemmBody alloc lhs' rhs' i j k
                       (mkValue (4 + next) F64Type) (mkValue (5 + next) F64Type)
                       (mkValue (6 + next) F64Type) (mkValue (7 + next) F64Type)
                       (mkValue (8 + next) F64Type));
                  AffineYield];
               AffineYield]])
          (post ++ [MemRefDealloc alloc; back])
          (9 + next) (<[rid := alloc]> mapping)).
Proof.
  intros res alloc i j k Hty. unfold GemmOpLowering.
  unfold bind at 1 2 3. unfold lift at 1. cbn [resultTensorType resultOf vtype res isTensorType].
  unfold bind at 1. unfold lift at 1. cbn [convertTensorToMemRef].
  rewrite insertAllocAndDealloc_run.
  destruct lhs' as [lid lty]. simpl in Hty. subst lty.
  reflexivity.
Qed.

(** What the emitted loop nest computes, whatever the fresh buffer holds. *)
Lemma GemmOpLowering_accumulates
    M_ N_ K_ rid lhs rhs lhs' rhs' post back next mapping st bl bufl br bufr :
  let res := mkValue rid (TensorType [M_; N_]) in
  let op := PonyGemm res lhs rhs in
  vtype lhs' = MemRefType [M_; K_] ->
  (vid lhs' < next)%nat -> (vid rhs' < next)%nat ->
  getBuffer st lhs' = Some (bl, bufl) -> buf_shape bufl = [M_; K_] ->
  getBuffer st rhs' = Some (br, bufr) -> buf_shape bufr = [N_; K_] ->
  mem st !! next_buf st = None ->
  exists alloc i j k l r mul cur upd rw' st' b buf,
    GemmOpLowering op [lhs'; rhs'] (mkRewriter [] (op :: post ++ [back]) next mapping)
      = Ok (success, rw') /\
    rw_mapping rw' !! rid = Some alloc /\
    vtype alloc = MemRefType [M_; N_] /\
    rw_before rw' =
      [MemRefAlloc alloc;
       AffineFor i 0 M_ 1
         [AffineFor j 0 N_ 1
            [AffineFor k 0 K_ 1 (gemmBody alloc lhs' rhs' i j k l r mul cur upd);
             AffineYield];
          AffineYield]] /\
    exec_block (rw_before rw') st = Some st' /\
    getBuffer st' alloc = Some (b, buf) /\
    buf_shape buf = [M_; N_] /\
    forall i j, 0 <= i < M_ -> 0 <= j < N_ ->
      buf_cells buf [i; j] =
      accumulate K_ (garbage (next_buf st) [i; j])
        (fun k => mulf (buf_cells bufl [i; k]) (buf_cells bufr [j; k])).
Proof.
  intros res op Hty Hlf Hrf Hl Hsl Hr Hsr Hfree.
  apply getBuffer_Some in Hl as [Hle Hlm]. apply getBuffer_Some in Hr as [Hre Hrm].
  unfold op, res. rewrite (GemmOpLowering_run M_ N_ K_) by assumption.
  set (alloc := mkValue next (MemRefType [M_; N_])).
  set (b := next_buf st).
  set (st1 := mkMachine (<[next := RMemRef b]> (env st))
                        (<[b := mkBuffer [M_; N_] (garbage b)]> (mem st))
                        (S b) (printed st)).
  assert (Hbl : bl <> b) by (intros ->; unfold b in Hlm; congruence).
  assert (Hbr : br <> b) by (intros ->; unfold b in Hrm; congruence).
  edestruct (nest3_accumulates
               (mkValue (1 + next) IndexType) (mkValue (2 + next) IndexType)
               (mkValue (3 + next) IndexType)
               (gemmBody alloc lhs' rhs'
                  (mkValue (1 + next) IndexType) (mkValue (2 + next) IndexType)
                  (mkValue (3 + next) IndexType)
                  (mkValue (4 + next) F64Type) (mkValue (5 + next) F64Type)
                  (mkValue (6 + next) F64Type) (mkValue (7 + next) F64Type)
                  (mkValue (8 + next) F64Type))
               M_ N_ K_ b
               (fun i j k => mulf (buf_cells bufl [i; k]) (buf_cells bufr [j; k]))
               st1 (mkBuffer [M_; N_] (garbage b)))
    as (st' & buf & E & Hfr & Hbuf & Hshape & Hcells).
  - intros s buf i j k (He & Hn & Hp & Hm) Hbuf Hshape Hi Hj Hk.
    assert (Hml : mem s !! bl = Some bufl).
    { rewrite Hm by assumption. simpl. now rewrite lookup_insert_ne by congruence. }
    assert (Hmr : mem s !! br = Some bufr).
    { rewrite Hm by assumption. simpl. now rewrite lookup_insert_ne by congruence. }
    unfold st1 in He; cbn [env] in He. unfold alloc, gemmBody.
    eexists. split.
    + rewrite exec_block_cons.
      erewrite exec_load; [| solve_get He | solve_get He | rewrite Hsl; now apply inBounds2].
      rewrite exec_block_cons.
      erewrite exec_load; [| solve_get He | solve_get He | rewrite Hsr; now apply inBounds2].
      rewrite exec_block_cons.
      erewrite (exec_lowered _ MulFOp); [| solve_get He | solve_get He ].
      rewrite exec_block_cons.
      erewrite exec_load; [| solve_get He | solve_get He | rewrite Hshape; now apply inBounds2].
      rewrite exec_block_cons.
      erewrite (exec_lowered _ AddFOp); [| solve_get He | solve_get He ].
      rewrite exec_block_cons.
      erewrite exec_store; [| solve_get He | solve_get He | solve_get He | rewrite Hshape; now apply inBounds2].
      reflexivity.
    + repeat split.
  - apply lookup_insert_eq.
  - reflexivity.
  - exists alloc. do 9 eexists. exists st', b, buf.
    split; [reflexivity|]. cbn [rw_mapping rw_before app].
    split; [apply lookup_insert_eq|]. split; [reflexivity|].
    split; [reflexivity|].
    split.
    { rewrite exec_block_cons. cbn [exec_op alloc vtype vid]. fold b. fold st1.
      rewrite exec_block_cons, E. reflexivity. }
    split.
    { destruct Hfr as (He & _). apply getBuffer_intro; [|assumption].
      rewrite He. apply lookup_insert_eq. }
    split; assumption.
Qed.

(** C2.  Matrix multiplication.  For a left operand of shape [[M; K]] and a
    right operand of shape [[N; K]], [GemmOpLowering] emits a loop nest of
    depth three whose body loads [lhs[i][k]] and [rhs[j][k]], multiplies
    them, loads the cell [[i; j]] of the result buffer, adds the product and
    stores the sum back; nothing in the code initializes the result buffer.
    When that buffer holds [zero] in every cell as the loops start, the code
    leaves in cell [[i; j]] the sum over [k < K] of [lhs[i][k] * rhs[j][k]],
    added up from [zero] in the order of [k], for all [i < M] and [j < N]. *)
Theorem GemmOpLowering_matmul
    zero M_ N_ K_ rid lhs rhs lhs' rhs' post back next mapping st bl bufl br bufr :
  let res := mkValue rid (TensorType [M_; N_]) in
  let op := PonyGemm res lhs rhs in
  vtype lhs' = MemRefType [M_; K_] -> vtype rhs' = MemRefType [N_; K_] ->
  (vid lhs' < next)%nat -> (vid rhs' < next)%nat ->
  getBuffer st lhs' = Some (bl, bufl) -> buf_shape bufl = [M_; K_] ->
  getBuffer st rhs' = Some (br, bufr) -> buf_shape bufr = [N_; K_] ->
  mem st !! next_buf st = None ->
  (forall c, garbage (next_buf st) c = zero) ->
  exists alloc i j k l r mul cur upd rw' st' b buf,
    GemmOpLowering op [lhs'; rhs'] (mkRewriter [] (op :: post ++ [back]) next mapping)
      = Ok (success, rw') /\
    rw_mapping rw' !! rid = Some alloc /\
    vtype alloc = MemRefType [M_; N_] /\
    rw_before rw' =
      [MemRefAlloc alloc;
       AffineFor i 0 M_ 1
         [AffineFor j 0 N_ 1
            [AffineFor k 0 K_ 1
               [AffineLoad l lhs' [i; k];
                AffineLoad r rhs' [j; k];
                ArithMulF mul l r;
                AffineLoad cur alloc [i; j];
                ArithAddF upd cur mul;
                AffineStore upd alloc [i; j];
                AffineYield];
             AffineYield];
          AffineYield]] /\
    exec_block (rw_before rw') st = Some st' /\
    getBuffer st' alloc = Some (b, buf) /\
    buf_shape buf = [M_; N_] /\
    forall i j, 0 <= i < M_ -> 0 <= j < N_ ->
      buf_cells buf [i; j] =
      accumulate K_ zero (fun k => mulf (buf_cells bufl [i; k]) (buf_cells bufr [j; k])).
Proof.
  intros res op Hty _ Hlf Hrf Hl Hsl Hr Hsr Hfree Hzero.
  destruct (GemmOpLowering_accumulates M_ N_ K_ rid lhs rhs lhs' rhs' post back
              next mapping st bl bufl br bufr Hty Hlf Hrf Hl Hsl Hr Hsr Hfree)
    as (alloc & i & j & k & l & r & mul & cur & upd & rw' & st' & b & buf &
        Hrun & Hmap & Hat & Hcode & Hexec & Hget & Hshape & Hcells).
  exists alloc, i, j, k, l, r, mul, cur, upd, rw', st', b, buf.
  repeat (split; [assumption|]).
  intros i' j' Hi' Hj'. rewrite Hcells by assumption. now rewrite Hzero.
Qed.

(** ** Literals *)

Lemma createConstantIndices_run count :
  forall i rw,
    createConstantIndices count i rw =
    Ok (indexValues (rw_next rw) count,
        mkRewriter (rw_before rw ++ indexCode (rw_next rw) count i) (rw_after rw)
                   (rw_next rw + count) (rw_mapping rw)).
Proof.
  unfold indexValues, indexCode.
  induction count as [|count IH]; intros i rw.
  - simpl. unfold ret. destruct rw; simpl. rewrite app_nil_r, Nat.add_0_r. reflexivity.
  - cbn [createConstantIndices]. unfold bind at 1.
    unfold createConstantIndex, bind, freshValue, create, ret.
    cbn [rw_before rw_after rw_next rw_mapping].
    rewrite IH. cbn [rw_before rw_after rw_next rw_mapping seq map].
    rewrite <- !seq_shift, !map_map.
    rewrite Nat.add_0_r, Z.add_0_r, <- app_assoc. cbn [app].
    replace (S (rw_next rw) + count)%nat with (rw_next rw + S count)%nat by lia.
    assert (E1 : map (fun k : nat => mkValue (S (rw_next rw) + k) IndexType) (seq 0 count)
                 = map (fun x : nat => mkValue (rw_next rw + S x) IndexType) (seq 0 count)).
    { apply map_ext. intros k. f_equal. lia. }
    assert (E2 : map (fun k : nat => @ArithConstantIndex
                        (mkValue (S (rw_next rw) + k) IndexType) (i + 1 + Z.of_nat k))
                     (seq 0 count)
                 = map (fun x : nat => ArithConstantIndex
                        (mkValue (rw_next rw + S x) IndexType) (i + Z.of_nat (S x)))
                     (seq 0 count)).
    { apply map_ext. intros k. f_equal; [f_equal|]; lia. }
    rewrite E1, E2. reflexivity.
Qed.

Lemma storeCode_app alloc cvs1 cvs2 :
  forall next,
    storeCode alloc next (cvs1 ++ cvs2) =
    storeCode alloc next cvs1 ++ storeCode alloc (next + length cvs1) cvs2.
Proof.
  induction cvs1 as [|[c v] cvs1 IH]; intros next; simpl.
  - now rewrite Nat.add_0_r.
  - rewrite IH. now replace (S next + length cvs1)%nat with (next + S (length cvs1))%nat by lia.
Qed.

Lemma zip_app_drop {A B} (l1 l2 : list A) :
  forall vs : list B,
    (length l1 <= length vs)%nat ->
    zip (l1 ++ l2) vs = zip l1 vs ++ zip l2 (drop (length l1) vs).
Proof.
  induction l1 as [|a l1 IH]; intros vs Hlen; [reflexivity|].
  destruct vs as [|v vs]; simpl in *; [lia|].
  rewrite IH by lia. reflexivity.
Qed.

Lemma length_zip_le {A B} (l : list A) (vs : list B) :
  (length l <= length vs)%nat -> length (zip l vs) = length l.
Proof. intros H. rewrite length_zip. lia. Qed.

Lemma product_nonneg shape : Forall (fun d => 0 <= d) shape -> 0 <= product shape.
Proof. induction 1; simpl; lia. Qed.

Lemma staticShape_nonneg shape : staticShape shape -> Forall (fun d => 0 <= d) shape.
Proof. intros H. eapply Forall_impl; [exact H|]. simpl. intros; lia. Qed.

Lemma length_coords shape :
  Forall (fun d => 0 <= d) shape -> length (coords shape) = Z.to_nat (product shape).
Proof.
  induction 1 as [|d shape Hd Hs IH]; [reflexivity|].
  cbn [coords product fold_right]. fold (product shape).
  rewrite Z2Nat.inj_mul by (auto using product_nonneg).
  unfold seqZ. rewrite <- IH. generalize (coords shape) as cs. intros cs.
  generalize (Z.to_nat d) as n. intros n. generalize 0%nat as i.
  induction n as [|n IHn]; intros i; [reflexivity|].
  simpl. rewrite length_app, length_map. rewrite IHn. reflexivity.
Qed.

Lemma lookup_indexValues base cnt i :
  (i < cnt)%nat -> indexValues base cnt !! i = Some (mkValue (base + i) IndexType).
Proof.
  intros Hi. unfold indexValues. rewrite list_lookup_fmap.
  rewrite lookup_seq_lt by assumption. reflexivity.
Qed.

Lemma coords_cons_values base indices e dims :
  map (fun c => indices ++ coordValues base c) (coords (e :: dims)) =
  flat_map (fun i : nat =>
              map (fun c => (indices ++ [mkValue (base + i) IndexType]) ++ coordValues base c)
                  (coords dims))
           (seq 0 (Z.to_nat e)).
Proof.
  cbn [coords]. unfold seqZ. generalize (seq 0 (Z.to_nat e)) as l.
  induction l as [|i l IH]; [reflexivity|].
  cbn [fmap list_fmap flat_map]. rewrite map_app, IH. f_equal.
  rewrite map_map. apply map_ext. intros c. cbn [coordValues map].
  rewrite <- app_assoc. cbn [app]. do 4 f_equal. lia.
Qed.

Lemma storeElements_run base cnt alloc dims :
  forall indices values rw,
    Forall (fun d => 0 <= d < 2 ^ 63 /\ (Z.to_nat d <= cnt)%nat) dims ->
    (Z.to_nat (product dims) <= length values)%nat ->
    storeElements (indexValues base cnt) alloc dims indices values rw =
    Ok (drop (Z.to_nat (product dims)) values,
        mkRewriter
          (rw_before rw ++
           storeCode alloc (rw_next rw)
             (zip (map (fun c => indices ++ coordValues base c) (coords dims)) values))
          (rw_after rw) (rw_next rw + Z.to_nat (product dims)) (rw_mapping rw)).
Proof.
  induction dims as [|e dims IH]; intros indices values rw Hdims Hlen.
  - destruct values as [|v values]; [simpl in Hlen; lia|].
    cbn. unfold bind, freshValue, create, ret. cbn.
    rewrite app_nil_r, <- app_assoc. cbn [app].
    change (Z.to_nat 1) with 1%nat. cbn [drop].
    now replace (rw_next rw + 1)%nat with (S (rw_next rw)) by lia.
  - apply Forall_cons in Hdims as [[He Hcnt] Hdims].
    assert (Hnn : Forall (fun d => 0 <= d) dims).
    { eapply Forall_impl; [exact Hdims|]. simpl. intros; lia. }
    pose proof (product_nonneg dims Hnn) as Hp.
    cbn [storeElements]. rewrite Z.mod_small by lia.
    rewrite coords_cons_values.
    cbn [product fold_right] in *. fold (product dims) in *.
    rewrite Z2Nat.inj_mul in * by lia.
    set (N' := Z.to_nat (product dims)) in *.
    assert (Hsub : forall count i values rw,
      (i + count <= cnt)%nat -> (count * N' <= length values)%nat ->
      forEachIndex count i
        (fun i valueIt =>
           let* ci := lift (indexValues base cnt !! i) in
           storeElements (indexValues base cnt) alloc dims (indices ++ [ci]) valueIt)
        values rw =
      Ok (drop (count * N') values,
          mkRewriter
            (rw_before rw ++
             storeCode alloc (rw_next rw)
               (zip (flat_map
                       (fun i : nat =>
                          map (fun c => (indices ++ [mkValue (base + i) IndexType])
                                          ++ coordValues base c) (coords dims))
                       (seq i count)) values))
            (rw_after rw) (rw_next rw + count * N') (rw_mapping rw))).
    { clear values rw Hlen. induction count as [|count IHc]; intros i values rw Hi Hlen.
      - cbn. unfold ret. destruct rw; cbn. rewrite app_nil_r, Nat.add_0_r. reflexivity.
      - cbn [forEachIndex]. unfold bind at 1. unfold bind at 1.
        rewrite lookup_indexValues by lia. unfold lift at 1.
        rewrite IH by (assumption || (fold N'; lia)). fold N'.
        rewrite IHc by (try lia; rewrite length_drop; lia).
        cbn [rw_before rw_after rw_next rw_mapping seq flat_map].
        rewrite drop_drop.
        assert (Hl : length (map (fun c => (indices ++ [mkValue (base + i) IndexType])
                                             ++ coordValues base c) (coords dims)) = N').
        { rewrite length_map. now apply length_coords. }
        rewrite zip_app_drop by (rewrite Hl; lia).
        rewrite storeCode_app, length_zip_le by (rewrite Hl; lia).
        rewrite Hl, <- app_assoc.
        do 3 f_equal; lia. }
    apply Hsub; lia.
Qed.

Lemma max_element_ge ds :
  forall d, d <= max_element d ds /\ Forall (fun x => x <= max_element d ds) ds.
Proof.
  unfold max_element. induction ds as [|x ds IH]; intros d; simpl.
  - split; [lia|constructor].
  - destruct (IH (Z.max d x)) as [H1 H2]. split; [lia|].
    constructor; [lia|assumption].
Qed.

Lemma indexCount_covers shape :
  staticShape shape ->
  Forall (fun d => 0 <= d < 2 ^ 63 /\ (Z.to_nat d <= indexCount shape)%nat) shape.
Proof.
  intros Hs. destruct shape as [|d ds]; [constructor|].
  destruct (max_element_ge ds d) as [H1 H2]. unfold indexCount.
  apply Forall_cons in Hs as [Hd Hds]. constructor.
  - split; [assumption|lia].
  - apply Forall_forall. intros x Hx.
    rewrite Forall_forall in Hds, H2. specialize (Hds x Hx). specialize (H2 x Hx).
    split; [assumption|lia].
Qed.

Lemma ConstantOpLowering_run shape rid values pre post back next mapping :
  let res := mkValue rid (TensorType shape) in
  let alloc := mkValue next (MemRefType shape) in
  staticShape shape ->
  (Z.to_nat (product shape) <= length values)%nat ->
  ConstantOpLowering (PonyConstant res values)
    (mkRewriter pre (PonyConstant res values :: post ++ [back]) next mapping)
  = Ok (success,
        mkRewriter
          (MemRefAlloc alloc :: pre ++
           indexCode (S next) (indexCount shape) 0 ++
           storeCode alloc (S next + indexCount shape)
             (zip (map (coordValues (S next)) (coords shape)) values))
          (post ++ [MemRefDealloc alloc; back])
          (S next + indexCount shape + Z.to_nat (product shape))
          (<[rid := alloc]> mapping)).
Proof.
  intros res alloc Hs Hlen. unfold ConstantOpLowering.
  unfold bind at 1. unfold lift at 1. cbn [vtype res isTensorType].
  unfold bind at 1. unfold lift at 1. cbn [convertTensorToMemRef].
  unfold bind at 1. rewrite insertAllocAndDealloc_run.
  unfold bind at 1. unfold lift at 1. cbn [getShape].
  assert (Hci : forall rw : Rewriter,
    match shape with
    | d :: ds => createConstantIndices (Z.to_nat (max_element d ds)) 0
    | [] => let* c := createConstantIndex 0 in ret [c]
    end rw = createConstantIndices (indexCount shape) 0 rw).
  { intros rw. destruct shape; reflexivity. }
  unfold bind at 1. rewrite Hci, createConstantIndices_run.
  cbn [rw_before rw_after rw_next rw_mapping].
  unfold bind at 1.
  rewrite storeElements_run by (auto using indexCount_covers).
  cbn [rw_before rw_after rw_next rw_mapping].
  unfold bind, replaceOp, mapValue, eraseOp, ret. cbn.
  rewrite <- !app_assoc. reflexivity.
Qed.

(** *** Running the emitted stores *)

Lemma indexCode_snoc base cnt i :
  indexCode base (S cnt) i =
  indexCode base cnt i ++
  [ArithConstantIndex (mkValue (base + cnt) IndexType) (i + Z.of_nat cnt)].
Proof. unfold indexCode. now rewrite seq_S, map_app. Qed.

Lemma exec_indexCode base cnt i st :
  exists st',
    exec_block (indexCode base cnt i) st = Some st' /\
    mem st' = mem st /\ next_buf st' = next_buf st /\ printed st' = printed st /\
    (forall k, (k < cnt)%nat -> env st' !! (base + k)%nat = Some (RIndex (i + Z.of_nat k))) /\
    (forall id, (id < base)%nat -> env st' !! id = env st !! id).
Proof.
  induction cnt as [|cnt (st' & E & Hm & Hn & Hp & Hnew & Hold)].
  - exists st. repeat split; try reflexivity. intros; lia.
  - rewrite indexCode_snoc, exec_block_app, E. eexists. split; [reflexivity|].
    cbn [setEnv env mem next_buf printed vid]. repeat split; try assumption.
    + intros k Hk. destruct (decide (k = cnt)) as [->|Hne].
      * apply lookup_insert_eq.
      * rewrite lookup_insert_ne by lia. apply Hnew. lia.
    + intros id Hid. rewrite lookup_insert_ne by lia. now apply Hold.
Qed.

Lemma getIndices_coordValues e base cnt c :
  (forall k, (k < cnt)%nat -> e !! (base + k)%nat = Some (RIndex (Z.of_nat k))) ->
  Forall (fun i => 0 <= i < Z.of_nat cnt) c ->
  getIndices e (coordValues base c) = Some c.
Proof.
  intros He. induction 1 as [|i c Hi Hc IH]; [reflexivity|].
  cbn [coordValues map getIndices]. fold (coordValues base c). rewrite IH.
  unfold getIndex. cbn [vid]. rewrite He by lia. now rewrite Z2Nat.id by lia.
Qed.

Lemma storeAll_shape cvs : forall buf, buf_shape (storeAll buf cvs) = buf_shape buf.
Proof.
  unfold storeAll. induction cvs as [|cv cvs IH]; intros buf; [reflexivity|].
  simpl. now rewrite IH.
Qed.

Lemma exec_storeCode base cnt alloc b cs :
  forall vs next st buf,
    (base + cnt <= next)%nat -> (vid alloc < next)%nat ->
    (forall k, (k < cnt)%nat -> env st !! (base + k)%nat = Some (RIndex (Z.of_nat k))) ->
    env st !! vid alloc = Some (RMemRef b) -> mem st !! b = Some buf ->
    Forall (fun c => inBounds (buf_shape buf) c = true /\
                     Forall (fun i => 0 <= i < Z.of_nat cnt) c) cs ->
    exists st',
      exec_block (storeCode alloc next (zip (map (coordValues base) cs) vs)) st = Some st' /\
      mem st' = <[b := storeAll buf (zip cs vs)]> (mem st) /\
      next_buf st' = next_buf st /\ printed st' = printed st /\
      forall id, (id < next)%nat -> env st' !! id = env st !! id.
Proof.
  induction cs as [|c cs IH]; intros vs next st buf Hbase Halloc Hidx He Hm Hcs.
  - exists st. repeat split. cbn. now rewrite insert_id.
  - destruct vs as [|v vs].
    { exists st. repeat split. cbn. now rewrite insert_id. }
    apply Forall_cons in Hcs as [[Hin Hc] Hcs].
    cbn [map zip zip_with storeCode].
    rewrite exec_block_cons. cbn [exec_op].
    rewrite exec_block_cons.
    erewrite exec_store.
    2:{ unfold getFloat, setEnv. cbn [env vid]. now rewrite lookup_insert_eq. }
    2:{ apply getBuffer_intro; [|exact Hm].
        unfold setEnv. cbn [env vid]. rewrite lookup_insert_ne by lia. exact He. }
    2:{ apply (getIndices_coordValues _ base cnt); [|assumption].
        intros k Hk. unfold setEnv. cbn [env vid]. rewrite lookup_insert_ne by lia.
        now apply Hidx. }
    2:{ assumption. }
    destruct (IH vs (S next)
                (setMem (setEnv st (mkValue next F64Type) (RFloat v)) b (storeCell buf c v))
                (storeCell buf c v))
      as (st' & E & Hm' & Hn' & Hp' & He'); try lia.
    + intros k Hk. cbn [setMem setEnv env vid]. rewrite lookup_insert_ne by lia.
      now apply Hidx.
    + cbn [setMem setEnv env vid]. now rewrite lookup_insert_ne by lia.
    + cbn [setMem setEnv mem]. apply lookup_insert_eq.
    + exact Hcs.
    + exists st'. split; [exact E|]. cbn [setMem setEnv mem env next_buf printed vid] in *.
      split; [|split; [assumption|split; [assumption|]]].
      * rewrite Hm'. now rewrite insert_insert_eq.
      * intros id Hid. rewrite He' by lia. now rewrite lookup_insert_ne by lia.
Qed.

Lemma storeAll_other c cvs :
  forall buf, c ∉ map fst cvs -> buf_cells (storeAll buf cvs) c = buf_cells buf c.
Proof.
  unfold storeAll. induction cvs as [|[c' v] cvs IH]; intros buf Hc; [reflexivity|].
  simpl in *. apply not_elem_of_cons in Hc as [Hne Hc].
  rewrite IH by assumption. simpl. now rewrite decide_False.
Qed.

Lemma flatten_storeAll cs :
  forall vs buf,
    NoDup cs -> (length cs <= length vs)%nat ->
    map (buf_cells (storeAll buf (zip cs vs))) cs = take (length cs) vs.
Proof.
  induction cs as [|c cs IH]; intros vs buf Hnd Hlen; [reflexivity|].
  destruct vs as [|v vs]; [simpl in Hlen; lia|].
  apply NoDup_cons in Hnd as [Hc Hnd]. simpl in Hlen.
  cbn [zip zip_with map length take].
  unfold storeAll in *. cbn [fold_left fst snd].
  rewrite IH by (assumption || lia). f_equal.
  fold (storeAll (storeCell buf c v) (zip cs vs)).
  rewrite storeAll_other.
  - simpl. now rewrite decide_True.
  - intros Hin. apply Hc. apply list_elem_of_fmap in Hin as ([c' v'] & -> & Hin).
    simpl. now apply elem_of_zip_l in Hin.
Qed.

Lemma flat_map_bind {A B} (f : A -> list B) l : flat_map f l = l ≫= f.
Proof. induction l as [|x l IH]; [reflexivity|]. simpl. now rewrite IH. Qed.

Lemma NoDup_coords shape : NoDup (coords shape).
Proof.
  induction shape as [|d shape IH]; cbn [coords].
  - apply NoDup_singleton.
  - rewrite flat_map_bind. apply NoDup_bind.
    + intros x1 x2 y _ _ H1 H2.
      apply list_elem_of_fmap in H1 as (c1 & -> & _).
      apply list_elem_of_fmap in H2 as (c2 & E & _). now injection E.
    + intros x _. apply NoDup_fmap_2; [|exact IH]. intros c1 c2 E. now injection E.
    + apply NoDup_seqZ.
Qed.

Lemma coords_inBounds cnt shape :
  Forall (fun d => (Z.to_nat d <= cnt)%nat) shape ->
  Forall (fun c => inBounds shape c = true /\
                   Forall (fun i => 0 <= i < Z.of_nat cnt) c) (coords shape).
Proof.
  induction 1 as [|d shape Hd Hs IH]; cbn [coords].
  - repeat constructor.
  - rewrite flat_map_bind. apply Forall_forall. intros c Hc.
    apply list_elem_of_bind in Hc as (i & Hc & Hi).
    apply list_elem_of_fmap in Hc as (c' & -> & Hc').
    apply elem_of_seqZ in Hi. rewrite Forall_forall in IH.
    destruct (IH c' Hc') as [Hin Hall]. split.
    + cbn [inBounds]. rewrite Hin.
      replace (0 <=? i) with true by (symmetry; apply Z.leb_le; lia).
      replace (i <? d) with true by (symmetry; apply Z.ltb_lt; lia).
      reflexivity.
    + constructor; [lia|assumption].
Qed.

(** The literal code run on a machine: the buffer it fills holds, in
    row-major order, the first elements of the literal. *)
Lemma ConstantOpLowering_stores shape rid values post back next mapping st :
  let res := mkValue rid (TensorType shape) in
  let op := PonyConstant res values in
  staticShape shape ->
  (Z.to_nat (product shape) <= length values)%nat ->
  exists alloc rw' st' b buf,
    ConstantOpLowering op (mkRewriter [] (op :: post ++ [back]) next mapping)
      = Ok (success, rw') /\
    rw_mapping rw' !! rid = Some alloc /\
    vtype alloc = MemRefType shape /\
    exec_block (rw_before rw') st = Some st' /\
    getBuffer st' alloc = Some (b, buf) /\
    buf_shape buf = shape /\
    flatten buf = take (Z.to_nat (product shape)) values.
Proof.
  intros res op Hs Hlen. unfold op, res.
  rewrite ConstantOpLowering_run by assumption.
  set (alloc := mkValue next (MemRefType shape)).
  set (b := next_buf st).
  set (buf0 := mkBuffer shape (garbage b)).
  set (st1 := mkMachine (<[next := RMemRef b]> (env st)) (<[b := buf0]> (mem st))
                        (S b) (printed st)).
  destruct (exec_indexCode (S next) (indexCount shape) 0 st1)
    as (st2 & E2 & Hm2 & Hn2 & Hp2 & Hnew2 & Hold2).
  pose proof (indexCount_covers shape Hs) as Hcov.
  destruct (exec_storeCode (S next) (indexCount shape) alloc b (coords shape) values
              (S next + indexCount shape) st2 buf0)
    as (st3 & E3 & Hm3 & Hn3 & Hp3 & He3).
  - lia.
  - simpl. lia.
  - intros k Hk. rewrite Hnew2 by assumption. f_equal.
  - rewrite Hold2 by (simpl; lia). apply lookup_insert_eq.
  - rewrite Hm2. apply lookup_insert_eq.
  - apply coords_inBounds. eapply Forall_impl; [exact Hcov|]. simpl. tauto.
  - exists alloc. eexists. exists st3, b, (storeAll buf0 (zip (coords shape) values)).
    split; [reflexivity|]. cbn [rw_mapping rw_before app].
    split; [apply lookup_insert_eq|]. split; [reflexivity|].
    split.
    { rewrite exec_block_cons. cbn [exec_op alloc vtype vid]. fold b buf0 st1.
      rewrite exec_block_app, E2. exact E3. }
    split.
    { apply getBuffer_intro.
      - rewrite He3 by (simpl; lia). rewrite Hold2 by (simpl; lia). apply lookup_insert_eq.
      - rewrite Hm3. apply lookup_insert_eq. }
    split; [apply storeAll_shape|].
    unfold flatten. rewrite storeAll_shape. cbn [buf0 buf_shape].
    rewrite flatten_storeAll.
    + now rewrite length_coords by (apply staticShape_nonneg; assumption).
    + apply NoDup_coords.
    + now rewrite length_coords by (apply staticShape_nonneg; assumption).
Qed.

(** C6.  Literals keep the row-major order.  For a literal whose number of
    elements is the product of the dimensions of its shape, the code
    [ConstantOpLowering] emits fills a buffer of that shape such that reading
    its cells in row-major order (last dimension varying fastest) gives back
    the flattened element sequence of the literal. *)
Theorem ConstantOpLowering_row_major shape rid values post back next mapping st :
  let res := mkValue rid (TensorType shape) in
  let op := PonyConstant res values in
  staticShape shape ->
  length values = Z.to_nat (product shape) ->
  exists alloc rw' st' b buf,
    ConstantOpLowering op (mkRewriter [] (op :: post ++ [back]) next mapping)
      = Ok (success, rw') /\
    rw_mapping rw' !! rid = Some alloc /\
    vtype alloc = MemRefType shape /\
    exec_block (rw_before rw') st = Some st' /\
    getBuffer st' alloc = Some (b, buf) /\
    buf_shape buf = shape /\
    flatten buf = values.
Proof.
  intros res op Hs Hlen.
  destruct (ConstantOpLowering_stores shape rid values post back next mapping st Hs)
    as (alloc & rw' & st' & b & buf & H1 & H2 & H3 & H4 & H5 & H6 & H7); [lia|].
  exists alloc, rw', st', b, buf. repeat (split; [assumption|]).
  rewrite H7, <- Hlen. apply firstn_all.
Qed.

(** The rule has no check of the element count: whatever it returns, it
    does not decline. *)
Lemma bind_Ok {A B} (m : M A) (f : A -> M B) rw b rw' :
  bind m f rw = Ok (b, rw') ->
  exists a rw1, m rw = Ok (a, rw1) /\ f a rw1 = Ok (b, rw').
Proof.
  unfold bind. destruct (m rw) as [[a rw1]| |]; try discriminate.
  intros H. now exists a, rw1.
Qed.

Lemma ConstantOpLowering_never_declines res values rw r rw' :
  ConstantOpLowering (PonyConstant res values) rw = Ok (r, rw') -> r = success.
Proof.
  unfold ConstantOpLowering. intros H.
  repeat (apply bind_Ok in H as (? & ? & _ & H)).
  unfold ret in H. congruence.
Qed.

(** C1, as the code has it.  [ConstantOpLowering] does not compare the
    number of elements with the product of the dimensions: whatever it
    returns, it does not decline; and whenever the literal has at least as
    many elements as the shape has cells (more included) the rule succeeds
    and the buffer holds, in row-major order, the first elements of the
    literal, as many as the shape has cells. *)
Theorem ConstantOpLowering_no_payload_check
    shape rid values post back next mapping st :
  let res := mkValue rid (TensorType shape) in
  let op := PonyConstant res values in
  staticShape shape ->
  (Z.to_nat (product shape) <= length values)%nat ->
  (exists alloc rw' st' b buf,
     ConstantOpLowering op (mkRewriter [] (op :: post ++ [back]) next mapping)
       = Ok (success, rw') /\
     rw_mapping rw' !! rid = Some alloc /\
     vtype alloc = MemRefType shape /\
     exec_block (rw_before rw') st = Some st' /\
     getBuffer st' alloc = Some (b, buf) /\
     buf_shape buf = shape /\
     flatten buf = take (Z.to_nat (product shape)) values) /\
  (forall rw r rw', ConstantOpLowering op rw = Ok (r, rw') -> r = success).
Proof.
  intros res op Hs Hlen. split.
  - now apply ConstantOpLowering_stores.
  - intros rw r rw'. apply ConstantOpLowering_never_declines.
Qed.

(** C10.  A literal of rank 0.  The rule succeeds; it emits the allocation,
    one constant index, one constant for the single element and exactly one
    store, with an empty list of indices, into the buffer of rank 0; run on a
    machine, the code leaves the element in the only cell of that buffer. *)
Theorem ConstantOpLowering_rank0 rid (v : elem) post back next mapping st :
  let res := mkValue rid (TensorType []) in
  let op := PonyConstant res [v] in
  let alloc := mkValue next (MemRefType []) in
  let zero := mkValue (1 + next) IndexType in
  let c := mkValue (2 + next) F64Type in
  ConstantOpLowering op (mkRewriter [] (op :: post ++ [back]) next mapping)
    = Ok (success,
          mkRewriter
            [MemRefAlloc alloc; ArithConstantIndex zero 0;
             ArithConstant c v; AffineStore c alloc []]
            (post ++ [MemRefDealloc alloc; back])
            (3 + next) (<[rid := alloc]> mapping)) /\
  exists st' b buf,
    exec_block [MemRefAlloc alloc; ArithConstantIndex zero 0;
                ArithConstant c v; AffineStore c alloc []] st = Some st' /\
    getBuffer st' alloc = Some (b, buf) /\
    buf_shape buf = [] /\
    flatten buf = [v].
Proof.
  intros res op alloc zero c. split.
  - unfold op, res, ConstantOpLowering.
    unfold bind at 1. unfold lift at 1. cbn [vtype isTensorType].
    unfold bind at 1. unfold lift at 1. cbn [convertTensorToMemRef].
    unfold bind at 1. rewrite insertAllocAndDealloc_run. reflexivity.
  - subst alloc zero c. do 3 eexists. split.
    + rewrite exec_block_cons. cbn [exec_op vtype vid].
      rewrite exec_block_cons. cbn [exec_op].
      rewrite exec_block_cons. cbn [exec_op].
      rewrite exec_block_cons.
      erewrite exec_store; [reflexivity| | | |].
      * unfold getFloat, setEnv. cbn [env vid]. now rewrite lookup_insert_eq.
      * apply getBuffer_intro.
        -- unfold setEnv. cbn [env vid].
           rewrite !lookup_insert_ne by lia. apply lookup_insert_eq.
        -- unfold setEnv. cbn [mem]. apply lookup_insert_eq.
      * reflexivity.
      * reflexivity.
    + split; [|split].
      * apply getBuffer_intro.
        -- unfold setMem, setEnv. cbn [env vid].
           rewrite !lookup_insert_ne by lia. apply lookup_insert_eq.
        -- unfold setMem, setEnv. cbn [mem]. apply lookup_insert_eq.
      * reflexivity.
      * reflexivity.
Qed.

(** ** Buffer lifetime *)

Lemma createAll_run code :
  forall rw,
    createAll code rw =
    Ok (tt, mkRewriter (rw_before rw ++ code) (rw_after rw) (rw_next rw) (rw_mapping rw)).
Proof.
  induction code as [|o code IH]; intros rw.
  - cbn. unfold ret. destruct rw; cbn. now rewrite app_nil_r.
  - cbn [createAll foldr]. unfold bind at 1. unfold create at 1.
    fold (createAll code). rewrite IH. cbn. now rewrite <- app_assoc.
Qed.

Lemma mentions_fresh next op :
  (forall v, v ∈ allValues op -> (vid v < next)%nat) -> mentions next op = false.
Proof.
  intros H. unfold mentions. apply not_true_is_false. intros E.
  apply existsb_exists in E as (v & Hv & Ev).
  apply Nat.eqb_eq in Ev. apply list_elem_of_In in Hv. specialize (H v Hv). lia.
Qed.

Lemma filter_fresh (P : nat -> Operation -> bool) next ops :
  (forall id o, P id o = true -> mentions id o = true) ->
  (forall o, o ∈ ops -> forall v, v ∈ allValues o -> (vid v < next)%nat) ->
  List.filter (P next) ops = [].
Proof.
  intros HP. induction ops as [|o ops IH]; intros H; [reflexivity|].
  simpl. destruct (P next o) eqn:E.
  - apply HP in E. rewrite mentions_fresh in E; [discriminate|].
    apply H. left.
  - apply IH. intros o' Ho'. apply H. now right.
Qed.

Lemma isAllocOf_mentions id o : isAllocOf id o = true -> mentions id o = true.
Proof. destruct o; try discriminate. unfold mentions. simpl. now intros ->. Qed.

Lemma isDeallocOf_mentions id o : isDeallocOf id o = true -> mentions id o = true.
Proof. destruct o; try discriminate. unfold mentions. simpl. now intros ->. Qed.

(** C9.  Buffer lifetime.  In a block whose last operation is not the one
    being rewritten, [insertAllocAndDealloc] puts the allocation of the new
    buffer in front of the first operation of the block and its deallocation
    right in front of the last one; the block then holds exactly one
    allocation and exactly one deallocation of the buffer.  Whatever the rule
    creates afterwards at the insertion point lands between the two, and
    neither the last operation nor any other operation that was in the block
    mentions the buffer: every use lies strictly between the allocation and
    the deallocation, in the same block. *)
Theorem insertAllocAndDealloc_placement
    type pre cur post back next mapping code :
  let block := pre ++ cur :: post ++ [back] in
  (forall o, o ∈ block -> forall v, v ∈ allValues o -> (vid v < next)%nat) ->
  exists alloc rw1 rw2,
    insertAllocAndDealloc type (mkRewriter pre (cur :: post ++ [back]) next mapping)
      = Ok (alloc, rw1) /\
    alloc = mkValue next type /\
    rw_before rw1 ++ rw_after rw1 =
      MemRefAlloc alloc :: pre ++ cur :: post ++ [MemRefDealloc alloc; back] /\
    length (List.filter (isAllocOf (vid alloc)) (rw_before rw1 ++ rw_after rw1)) = 1%nat /\
    length (List.filter (isDeallocOf (vid alloc)) (rw_before rw1 ++ rw_after rw1)) = 1%nat /\
    createAll code rw1 = Ok (tt, rw2) /\
    rw_before rw2 ++ rw_after rw2 =
      MemRefAlloc alloc :: (pre ++ code ++ cur :: post) ++ [MemRefDealloc alloc; back] /\
    mentions (vid alloc) back = false /\
    forall o, o ∈ block -> mentions (vid alloc) o = false.
Proof.
  intros block Hfresh.
  assert (Hm : forall o, o ∈ block -> mentions next o = false).
  { intros o Ho. apply mentions_fresh. now apply Hfresh. }
  exists (mkValue next type). do 2 eexists.
  split; [apply insertAllocAndDealloc_run|]. split; [reflexivity|].
  cbn [rw_before rw_after vid].
  split; [reflexivity|].
  assert (Hsplit : pre ++ cur :: post ++ [MemRefDealloc (mkValue next type); back]
                   = (pre ++ cur :: post) ++ [MemRefDealloc (mkValue next type)] ++ [back]).
  { now rewrite <- app_assoc. }
  assert (Hblock : block = (pre ++ cur :: post) ++ [back]).
  { unfold block. now rewrite <- app_assoc. }
  assert (Hpre : forall o, o ∈ pre ++ cur :: post ->
                 forall v, v ∈ allValues o -> (vid v < next)%nat).
  { intros o Ho. apply Hfresh. rewrite Hblock. apply elem_of_app. now left. }
  assert (Hback : forall o, o ∈ [back] ->
                  forall v, v ∈ allValues o -> (vid v < next)%nat).
  { intros o Ho. apply Hfresh. rewrite Hblock. apply elem_of_app. now right. }
  split.
  { cbn [app List.filter isAllocOf vid]. rewrite Nat.eqb_refl. cbn [length]. f_equal.
    rewrite Hsplit, (List.filter_app _ (pre ++ cur :: post)), (List.filter_app _ [_] [back]).
    rewrite (filter_fresh isAllocOf next (pre ++ cur :: post) isAllocOf_mentions Hpre).
    rewrite (filter_fresh isAllocOf next [back] isAllocOf_mentions Hback).
    reflexivity. }
  split.
  { cbn [app List.filter isAllocOf isDeallocOf vid].
    rewrite Hsplit, (List.filter_app _ (pre ++ cur :: post)), (List.filter_app _ [_] [back]).
    rewrite (filter_fresh isDeallocOf next (pre ++ cur :: post) isDeallocOf_mentions Hpre).
    rewrite (filter_fresh isDeallocOf next [back] isDeallocOf_mentions Hback).
    cbn [app List.filter isDeallocOf vid]. rewrite Nat.eqb_refl. reflexivity. }
  split; [apply createAll_run|].
  cbn [rw_before rw_after].
  split.
  { cbn [app]. f_equal. rewrite <- !app_assoc. reflexivity. }
  split.
  { apply Hm. rewrite Hblock. apply elem_of_app. right. left. }
  exact Hm.
Qed.

(** ** What a rewrite does to the block *)

Lemma hoare_bind {A B} P (m : M A) R (f : A -> M B) Q :
  hoare P m R -> (forall a, hoare (R a) (f a) Q) -> hoare P (bind m f) Q.
Proof.
  intros Hm Hf rw HP. specialize (Hm rw HP). unfold bind.
  destruct (m rw) as [[a rw1]| |]; [|exact I|contradiction].
  now apply Hf.
Qed.

Lemma hoare_conseq {A} (P P' : Rewriter -> Prop) (m : M A) (Q Q' : A -> Rewriter -> Prop) :
  hoare P' m Q' -> (forall rw, P rw -> P' rw) -> (forall a rw, Q' a rw -> Q a rw) ->
  hoare P m Q.
Proof.
  intros Hm HP HQ rw Hrw. specialize (Hm rw (HP rw Hrw)).
  destruct (m rw) as [[a rw1]| |]; auto.
Qed.

Lemma hoare_abort {A} P (Q : A -> Rewriter -> Prop) : hoare P abort Q.
Proof. intros rw HP. exact I. Qed.

Lemma keeps_bind {A B} (P : A -> Prop) (Q : B -> Prop) (m : M A) (f : A -> M B) :
  keeps P m -> (forall a, P a -> keeps Q (f a)) -> keeps Q (bind m f).
Proof.
  intros Hm Hf L after. eapply hoare_bind; [apply Hm|].
  intros a rw [Ha Hrw]. now apply Hf.
Qed.

Lemma keeps_ret {A} (Q : A -> Prop) (a : A) : Q a -> keeps Q (ret a).
Proof. intros Ha L after rw Hrw. simpl. auto. Qed.

Lemma keeps_lift {A} (o : option A) : keeps (fun a => o = Some a) (lift o).
Proof. intros L after rw Hrw. unfold lift. destruct o; simpl; auto. Qed.

Lemma keeps_freshValue t : keeps (fun _ => True) (freshValue t).
Proof. intros L after rw Hrw. simpl. auto. Qed.

Lemma allLegal_app ops1 ops2 :
  allLegal (ops1 ++ ops2) = allLegal ops1 && allLegal ops2.
Proof. apply forallb_app. Qed.

Lemma keeps_create op : deepLegal op = true -> keeps (fun _ => True) (create op).
Proof.
  intros Hop L after rw [Ha Hl]. unfold create, blockIs.
  cbn [rw_before rw_after]. split; [exact I|]. split; [assumption|].
  intros HL. rewrite allLegal_app, Hl by assumption. simpl. now rewrite Hop.
Qed.

Lemma splitLast_Some {A} (l pre : list A) (x : A) :
  splitLast l = Some (pre, x) -> l = pre ++ [x].
Proof.
  revert pre. induction l as [|a l IH]; intros pre; [discriminate|].
  simpl. destruct l as [|b l].
  - intros [= <- <-]. reflexivity.
  - destruct (splitLast (b :: l)) as [[i z]|]; [|discriminate].
    intros [= <- <-]. simpl. f_equal. now apply IH.
Qed.

Lemma keeps_mapValue old new : keeps (fun _ => True) (mapValue old new).
Proof. intros L after rw Hrw. simpl. auto. Qed.

Lemma keeps_inRegion {A} (Q : A -> Prop) (m : M A) :
  keeps Q m ->
  keeps (fun r => Q (fst r) /\ allLegal (snd r) = true) (inRegion m).
Proof.
  intros Hm L after rw [Ha Hl]. unfold inRegion.
  specialize (Hm True [] (mkRewriter [] [] (rw_next rw) (rw_mapping rw))).
  destruct (m _) as [[a rw']| |].
  - destruct Hm as [HQ [Ha' Hl']]; [split; [reflexivity|reflexivity]|].
    simpl. split; [|split; assumption].
    split; [assumption|]. rewrite Ha', app_nil_r. now apply Hl'.
  - exact I.
  - apply Hm. split; reflexivity.
Qed.

Lemma deepLegal_AffineFor iv lb ub step body :
  deepLegal (AffineFor iv lb ub step body) = allLegal body.
Proof.
  cbn [deepLegal isLegal dialectOf]. cbn [andb].
  induction body as [|o body IH]; [reflexivity|]. simpl. now rewrite IH.
Qed.

Lemma deepLegal_FuncFunc name inputs results body :
  deepLegal (FuncFunc name inputs results body) = allLegal body.
Proof.
  cbn [deepLegal isLegal dialectOf]. cbn [andb].
  induction body as [|o body IH]; [reflexivity|]. simpl. now rewrite IH.
Qed.

Lemma keeps_affineLoops bodyBuilderFn :
  (forall ivs, keeps (fun _ => True) (bodyBuilderFn ivs)) ->
  forall lbs ubs steps ivs,
    keeps (fun _ => True) (affineLoops lbs ubs steps ivs bodyBuilderFn).
Proof.
  intros Hbody. induction lbs as [|lb lbs IH]; intros ubs steps ivs.
  - destruct ubs, steps; cbn [affineLoops]; try (intros L after rw Hrw; exact I).
    apply Hbody.
  - destruct ubs as [|ub ubs], steps as [|st steps]; cbn [affineLoops];
      try (intros L after rw Hrw; exact I).
    eapply keeps_bind; [apply keeps_freshValue|]. intros iv _.
    eapply keeps_bind.
    + apply keeps_inRegion. eapply keeps_bind; [apply IH|]. intros _ _.
      now apply keeps_create.
    + intros r [_ Hr]. apply keeps_create. now rewrite deepLegal_AffineFor.
Qed.

Lemma keeps_createLoad memref indices : keeps (fun _ => True) (createLoad memref indices).
Proof.
  unfold createLoad. eapply keeps_bind; [apply keeps_freshValue|]. intros r _.
  eapply keeps_bind; [now apply keeps_create|]. intros _ _. now apply keeps_ret.
Qed.

Lemma hoare_exists {A X} (P : X -> Rewriter -> Prop) (m : M A) Q :
  (forall x, hoare (P x) m Q) -> hoare (fun rw => exists x, P x rw) m Q.
Proof. intros H rw [x Hx]. now apply (H x). Qed.

Lemma hoare_pure {A} (F : Prop) (P : Rewriter -> Prop) (m : M A) Q :
  (F -> hoare P m Q) -> hoare (fun rw => F /\ P rw) m Q.
Proof. intros H rw [HF HP]. now apply H. Qed.

Lemma hoare_keeps {A} (Q : A -> Prop) (m : M A) L after :
  keeps Q m -> hoare (blockIs L after) m (fun a rw => Q a /\ blockIs L after rw).
Proof. intros H. apply H. Qed.

Lemma hoare_insertAllocAndDealloc type L cur rest :
  hoare (blockIs L (cur :: rest)) (insertAllocAndDealloc type)
        (fun _ rw => exists rest', afterStep rest rest' /\ blockIs L (cur :: rest') rw).
Proof.
  intros rw [Ha Hl].
  unfold insertAllocAndDealloc, bind, freshValue, create, moveBeforeFront,
    moveBeforeBack, ret; cbn -[splitLast].
  rewrite splitLast_snoc; cbn -[splitLast].
  rewrite (app_comm_cons (rw_before rw)), splitLast_snoc; cbn -[splitLast].
  rewrite Ha. destruct (splitLast rest) as [[mid back]|] eqn:E.
  - apply splitLast_Some in E. subst rest.
    exists (mid ++ [MemRefDealloc (mkValue (rw_next rw) type); back]). split.
    + right. now exists mid, back, (mkValue (rw_next rw) type).
    + split; [reflexivity|]. cbn [rw_before]. intros HL.
      change (allLegal (MemRefAlloc (mkValue (rw_next rw) type) :: rw_before rw))
        with (true && allLegal (rw_before rw)). now rewrite Hl.
  - exists rest. split; [now left|]. split; [first [reflexivity|assumption]|].
    cbn [rw_before]. intros HL.
    change (allLegal (MemRefAlloc (mkValue (rw_next rw) type) ::
                      rw_before rw ++ [MemRefDealloc (mkValue (rw_next rw) type)]))
      with (true && allLegal (rw_before rw ++ [MemRefDealloc (mkValue (rw_next rw) type)])).
    rewrite allLegal_app, Hl by assumption. reflexivity.
Qed.

Lemma hoare_eraseOp L cur rest :
  hoare (blockIs L (cur :: rest)) eraseOp (fun _ rw => blockIs L rest rw).
Proof.
  intros rw [Ha Hl]. unfold eraseOp. rewrite Ha. split; [reflexivity|assumption].
Qed.

Lemma hoare_replaceOp op v L cur rest :
  hoare (blockIs L (cur :: rest)) (replaceOp op v) (fun _ rw => blockIs L rest rw).
Proof.
  unfold replaceOp. destruct (resultOf op); [|apply hoare_abort].
  eapply hoare_bind; [apply hoare_keeps, keeps_mapValue|].
  intros ?. apply hoare_pure. intros _. apply hoare_eraseOp.
Qed.

Lemma hoare_lowerOpToLoops op operands processIteration L cur rest :
  (forall memRefOperands ivs, keeps (fun _ => True) (processIteration memRefOperands ivs)) ->
  hoare (blockIs L (cur :: rest)) (lowerOpToLoops op operands processIteration)
        (fun _ rw => exists rest', afterStep rest rest' /\ blockIs L rest' rw).
Proof.
  intros Hpi. unfold lowerOpToLoops.
  eapply hoare_bind; [apply hoare_keeps, keeps_lift|]. intros tensorType.
  apply hoare_pure. intros _.
  eapply hoare_bind; [apply hoare_keeps, keeps_lift|]. intros memRefType.
  apply hoare_pure. intros _.
  eapply hoare_bind; [apply hoare_insertAllocAndDealloc|]. intros alloc.
  apply hoare_exists. intros rest'. apply hoare_pure. intros Hstep.
  eapply hoare_bind; [apply hoare_keeps, keeps_lift|]. intros shape.
  apply hoare_pure. intros _.
  eapply hoare_bind.
  { apply hoare_keeps. apply (keeps_affineLoops
      (fun ivs => let* valueToStore := processIteration operands ivs in
                  create (AffineStore valueToStore alloc ivs))).
    intros ivs. eapply keeps_bind; [apply Hpi|]. intros v _. now apply keeps_create. }
  intros ?. apply hoare_pure. intros _.
  eapply hoare_conseq; [apply hoare_replaceOp|intros rw0 H0; exact H0|].
  intros ? rw Hrw. now exists rest'.
Qed.

Lemma hoare_success {A} (P : Rewriter -> Prop) (m : M A) L rest :
  hoare P m (fun _ rw => exists rest', afterStep rest rest' /\ blockIs L rest' rw) ->
  hoare P (run m in ret success) (rewritten L rest).
Proof.
  intros H. eapply hoare_bind; [exact H|]. intros ? rw Hrw. simpl. intros _. exact Hrw.
Qed.

Lemma hoare_BinaryOpLowering k op operands L cur rest :
  hoare (blockIs L (cur :: rest)) (BinaryOpLowering k op operands) (rewritten L rest).
Proof.
  unfold BinaryOpLowering. apply hoare_success.
  apply hoare_lowerOpToLoops. intros ops ivs.
  eapply keeps_bind; [apply keeps_lift|]. intros lhs _.
  eapply keeps_bind; [apply keeps_lift|]. intros rhs _.
  eapply keeps_bind; [apply keeps_createLoad|]. intros l _.
  eapply keeps_bind; [apply keeps_createLoad|]. intros r _.
  eapply keeps_bind; [apply keeps_freshValue|]. intros x _.
  eapply keeps_bind; [apply keeps_create; now destruct k|]. intros _ _.
  now apply keeps_ret.
Qed.

Lemma hoare_TransposeOpLowering op operands L cur rest :
  hoare (blockIs L (cur :: rest)) (TransposeOpLowering op operands) (rewritten L rest).
Proof.
  unfold TransposeOpLowering. apply hoare_success.
  apply hoare_lowerOpToLoops. intros ops ivs.
  eapply keeps_bind; [apply keeps_lift|]. intros input _.
  apply keeps_createLoad.
Qed.

Lemma hoare_GemmOpLowering op operands L cur rest :
  hoare (blockIs L (cur :: rest)) (GemmOpLowering op operands) (rewritten L rest).
Proof.
  unfold GemmOpLowering.
  eapply hoare_bind; [apply hoare_keeps, keeps_lift|]. intros tensorType.
  apply hoare_pure. intros _.
  eapply hoare_bind; [apply hoare_keeps, keeps_lift|]. intros memRefType.
  apply hoare_pure. intros _.
  eapply hoare_bind; [apply hoare_insertAllocAndDealloc|]. intros alloc.
  apply hoare_exists. intros rest'. apply hoare_pure. intros Hstep.
  do 6 (eapply hoare_bind; [apply hoare_keeps, keeps_lift|]; intros ?;
        apply hoare_pure; intros _).
  eapply hoare_bind.
  { apply hoare_keeps. apply keeps_affineLoops. intros ivs.
    do 5 (eapply keeps_bind; [apply keeps_lift|]; intros ? _).
    eapply keeps_bind; [apply keeps_createLoad|]. intros l _.
    eapply keeps_bind; [apply keeps_createLoad|]. intros r _.
    eapply keeps_bind; [apply keeps_freshValue|]. intros mul _.
    eapply keeps_bind; [now apply keeps_create|]. intros _ _.
    eapply keeps_bind; [apply keeps_createLoad|]. intros current _.
    eapply keeps_bind; [apply keeps_freshValue|]. intros updated _.
    eapply keeps_bind; [now apply keeps_create|]. intros _ _.
    now apply keeps_create. }
  intros ?. apply hoare_pure. intros _.
  eapply hoare_bind; [apply hoare_replaceOp|].
  intros ? rw Hrw. simpl. intros _. now exists rest'.
Qed.

Lemma keeps_createConstantIndex i : keeps (fun _ => True) (createConstantIndex i).
Proof.
  unfold createConstantIndex. eapply keeps_bind; [apply keeps_freshValue|]. intros r _.
  eapply keeps_bind; [now apply keeps_create|]. intros _ _. now apply keeps_ret.
Qed.

Lemma keeps_createConstantIndices count :
  forall i, keeps (fun _ => True) (createConstantIndices count i).
Proof.
  induction count as [|count IH]; intros i; cbn [createConstantIndices].
  - now apply keeps_ret.
  - eapply keeps_bind; [apply keeps_createConstantIndex|]. intros c _.
    eapply keeps_bind; [apply IH|]. intros cs _. now apply keeps_ret.
Qed.

Lemma keeps_forEachIndex {S} (body : nat -> S -> M S) :
  (forall i s, keeps (fun _ => True) (body i s)) ->
  forall count i s, keeps (fun _ => True) (forEachIndex count i body s).
Proof.
  intros Hbody. induction count as [|count IH]; intros i s; cbn [forEachIndex].
  - now apply keeps_ret.
  - eapply keeps_bind; [apply Hbody|]. intros s' _. apply IH.
Qed.

Lemma keeps_storeElements constantIndices alloc dims :
  forall indices valueIt,
    keeps (fun _ => True) (storeElements constantIndices alloc dims indices valueIt).
Proof.
  induction dims as [|e dims IH]; intros indices valueIt; cbn [storeElements].
  - destruct valueIt as [|v valueIt]; [intros L after rw Hrw; exact I|].
    eapply keeps_bind; [apply keeps_freshValue|]. intros c _.
    eapply keeps_bind; [now apply keeps_create|]. intros _ _.
    eapply keeps_bind; [now apply keeps_create|]. intros _ _.
    now apply keeps_ret.
  - apply keeps_forEachIndex. intros i s.
    eapply keeps_bind; [apply keeps_lift|]. intros ci _. apply IH.
Qed.

Lemma hoare_failure (P : Rewriter -> Prop) L rest :
  hoare P (ret failure) (rewritten L rest).
Proof. intros rw _. simpl. discriminate. Qed.

Lemma hoare_ConstantOpLowering op L cur rest :
  hoare (blockIs L (cur :: rest)) (ConstantOpLowering op) (rewritten L rest).
Proof.
  unfold ConstantOpLowering. destruct op; try apply hoare_failure.
  eapply hoare_bind; [apply hoare_keeps, keeps_lift|]. intros tensorType.
  apply hoare_pure. intros _.
  eapply hoare_bind; [apply hoare_keeps, keeps_lift|]. intros memRefType.
  apply hoare_pure. intros _.
  eapply hoare_bind; [apply hoare_insertAllocAndDealloc|]. intros alloc.
  apply hoare_exists. intros rest'. apply hoare_pure. intros Hstep.
  eapply hoare_bind; [apply hoare_keeps, keeps_lift|]. intros valueShape.
  apply hoare_pure. intros _.
  eapply hoare_bind.
  { apply hoare_keeps. instantiate (1 := fun _ => True). destruct valueShape.
    - eapply keeps_bind; [apply keeps_createConstantIndex|]. intros c _. now apply keeps_ret.
    - apply keeps_createConstantIndices. }
  intros constantIndices. apply hoare_pure. intros _.
  eapply hoare_bind; [apply hoare_keeps, keeps_storeElements|].
  intros ?. apply hoare_pure. intros _.
  eapply hoare_bind; [apply hoare_replaceOp|].
  intros ? rw Hrw. simpl. intros _. now exists rest'.
Qed.

Lemma hoare_ReturnOpLowering op L cur rest :
  hoare (blockIs L (cur :: rest)) (ReturnOpLowering op) (rewritten L rest).
Proof.
  unfold ReturnOpLowering. destruct op; try apply hoare_failure.
  destruct operands; [|apply hoare_failure].
  eapply hoare_bind; [apply hoare_keeps; now apply keeps_create|].
  intros ?. apply hoare_pure. intros _.
  eapply hoare_bind; [apply hoare_eraseOp|].
  intros ? rw Hrw. simpl. intros _. exists rest. split; [now left|assumption].
Qed.

Lemma keeps_remapValues operands : keeps (fun _ => True) (remapValues operands).
Proof. intros L after rw Hrw. simpl. auto. Qed.

(** [FuncOpLowering] and [PrintOpLowering] on the rewriter, in full. *)
Lemma FuncOpLowering_run name inputs results body before cur rest next mapping :
  FuncOpLowering (PonyFunc name inputs results body)
    (mkRewriter before (cur :: rest) next mapping) =
  if String.eqb name "main" && Nat.eqb (length inputs) 0 && Nat.eqb (length results) 0
  then Ok (success,
           mkRewriter (before ++ [FuncFunc name inputs results body]) rest next mapping)
  else Ok (failure, mkRewriter before (cur :: rest) next mapping).
Proof.
  unfold FuncOpLowering.
  destruct (String.eqb name "main"); [|reflexivity].
  destruct (Nat.eqb (length inputs) 0); [|reflexivity].
  destruct (Nat.eqb (length results) 0); reflexivity.
Qed.

Lemma PrintOpLowering_run operands operands' before rest next mapping :
  PrintOpLowering (PonyPrint operands) operands'
    (mkRewriter before (PonyPrint operands :: rest) next mapping) =
  Ok (success, mkRewriter before (PonyPrint operands' :: rest) next mapping).
Proof. reflexivity. Qed.

(** ** The driver *)

Lemma weights_app ops1 ops2 : weights (ops1 ++ ops2) = (weights ops1 + weights ops2)%nat.
Proof. induction ops1 as [|o ops1 IH]; simpl; [reflexivity|]. rewrite IH. lia. Qed.

Lemma weight_unfold op :
  weight op =
  ((match dialectOf op with PonyDialect => 2 | _ => 1 end) +
   match op with
   | PonyFunc _ _ _ body | FuncFunc _ _ _ body
   | AffineFor _ _ _ _ body => weights body
   | _ => O
   end)%nat.
Proof.
  assert (H : forall body,
    (fix nested (ops : list Operation) : nat :=
       match ops with
       | [] => O
       | o :: ops' => (weight o + nested ops')%nat
       end) body = weights body).
  { induction body as [|o body IH]; [reflexivity|]. simpl. now rewrite IH. }
  destruct op; cbn [weight]; rewrite ?H; reflexivity.
Qed.

Lemma weight_pos op : (1 <= weight op)%nat.
Proof. rewrite weight_unfold. destruct (dialectOf op); lia. Qed.

Lemma weight_illegal op : isLegal op = false -> (2 <= weight op)%nat.
Proof. rewrite weight_unfold. destruct op; simpl; intros; try discriminate; lia. Qed.

Lemma weights_afterStep rest rest' :
  afterStep rest rest' -> (weights rest' <= weights rest + 1)%nat.
Proof.
  intros [->|(mid & back & d & -> & ->)]; [lia|].
  rewrite !weights_app. simpl. lia.
Qed.

Lemma weight_region op body :
  regionOf op = Some body -> (weights body < weight op)%nat.
Proof.
  rewrite weight_unfold. destruct op; try discriminate; intros [= ->]; simpl; lia.
Qed.

Lemma deepLegal_unfold op :
  deepLegal op =
  isLegal op &&
  match op with
  | PonyFunc _ _ _ body | FuncFunc _ _ _ body
  | AffineFor _ _ _ _ body => allLegal body
  | _ => true
  end.
Proof.
  assert (H : forall body,
    (fix nested (ops : list Operation) : bool :=
       match ops with
       | [] => true
       | o :: ops' => deepLegal o && nested ops'
       end) body = allLegal body).
  { induction body as [|o body IH]; [reflexivity|]. simpl. now rewrite IH. }
  destruct op; cbn [deepLegal]; rewrite ?H; reflexivity.
Qed.

Lemma deepLegal_leaf op :
  regionOf op = None -> isLegal op = true -> deepLegal op = true.
Proof.
  intros Hr Hl. rewrite deepLegal_unfold, Hl. destruct op; try reflexivity; discriminate.
Qed.

Lemma deepLegal_setBody op body body' :
  regionOf op = Some body -> isLegal op = true -> allLegal body' = true ->
  deepLegal (setBody op body') = true.
Proof.
  intros Hr Hl Hb. destruct op; try discriminate; simpl setBody.
  - now rewrite deepLegal_FuncFunc.
  - now rewrite deepLegal_AffineFor.
Qed.

(** The region of the operation in front of the insertion point converted
    by [conv]. *)
Lemma convertRegionOfLast_spec fuel conv before op rest next mapping :
  convSpec fuel conv ->
  isLegal op = true ->
  match convertRegionOfLast conv (mkRewriter (before ++ [op]) rest next mapping) with
  | Ok (success, rw') =>
      rw_after rw' = rest /\
      (allLegal before = true -> allLegal (rw_before rw') = true)
  | Ok (failure, _) => True
  | Abort => True
  | Exhausted => (fuel < weight op)%nat
  end.
Proof.
  intros Hconv Hl. unfold convertRegionOfLast. cbn [rw_before rw_after rw_next rw_mapping].
  rewrite splitLast_snoc. destruct (regionOf op) as [body|] eqn:Hr.
  - specialize (Hconv (mkRewriter [] body next mapping)).
    destruct (conv _) as [[[|] rw']| |]; try exact I.
    + destruct Hconv as [Ha Hb]. cbn [rw_before rw_after].
      split; [reflexivity|]. intros HL.
      rewrite allLegal_app, HL. cbn [allLegal forallb andb].
      rewrite (deepLegal_setBody op body); try assumption; [reflexivity|].
      rewrite Ha, app_nil_r. now apply Hb.
    + cbn [rw_after] in Hconv. pose proof (weight_region op body Hr). lia.
  - cbn [rw_before rw_after]. split; [reflexivity|]. intros HL.
    rewrite allLegal_app, HL. cbn [allLegal forallb andb].
    now rewrite deepLegal_leaf.
Qed.

(** A pattern other than those for [pony.print] and [pony.func], run by
    the driver on the operation at the insertion point. *)
Lemma legalize_lowering op before rest next mapping (m : M LogicalResult) :
  isLegal op = false ->
  hoare (blockIs (allLegal before = true) (op :: rest)) m
        (rewritten (allLegal before = true) rest) ->
  match (let* r := m in
         match r with
         | failure => ret failure
         | success => ret success
         end) (mkRewriter before (op :: rest) next mapping) with
  | Ok (success, rw') =>
      (allLegal before = true -> allLegal (rw_before rw') = true) /\
      afterStep rest (rw_after rw') /\
      (weights (rw_after rw') < weight op + weights rest)%nat
  | Ok (failure, _) => True
  | Abort => True
  | Exhausted => False
  end.
Proof.
  intros Hl Hm. specialize (Hm (mkRewriter before (op :: rest) next mapping)).
  unfold bind. destruct (m _) as [[[|] rw']| |]; cbn [ret]; try exact I.
  - destruct Hm as (rest' & Hstep & Ha & Hb); [split; [reflexivity|auto]|reflexivity|].
    rewrite Ha. split; [assumption|]. split; [assumption|].
    pose proof (weights_afterStep _ _ Hstep). pose proof (weight_illegal op Hl). lia.
  - apply Hm. split; [reflexivity|auto].
Qed.

Lemma legalize_spec fuel conv op before rest next mapping :
  convSpec fuel conv ->
  match legalize conv op (mkRewriter before (op :: rest) next mapping) with
  | Ok (success, rw') =>
      (allLegal before = true -> allLegal (rw_before rw') = true) /\
      afterStep rest (rw_after rw') /\
      (weights (rw_after rw') < weight op + weights rest)%nat
  | Ok (failure, _) => True
  | Abort => True
  | Exhausted => (fuel < weight op)%nat
  end.
Proof.
  intros Hconv. unfold legalize. destruct (isLegal op) eqn:Hl.
  - unfold bind at 1. unfold advance. cbn [rw_before rw_after rw_next rw_mapping].
    pose proof (convertRegionOfLast_spec fuel conv before op rest next mapping Hconv Hl) as H.
    destruct (convertRegionOfLast conv _) as [[[|] rw']| |]; try exact I; try assumption.
    destruct H as [Ha Hb]. rewrite Ha. split; [assumption|]. split; [now left|].
    pose proof (weight_pos op). lia.
  - assert (Hlow : forall m : M LogicalResult,
      hoare (blockIs (allLegal before = true) (op :: rest)) m
            (rewritten (allLegal before = true) rest) ->
      match (let* r := m in
             match r with
             | failure => ret failure
             | success => ret success
             end) (mkRewriter before (op :: rest) next mapping) with
      | Ok (success, rw') =>
          (allLegal before = true -> allLegal (rw_before rw') = true) /\
          afterStep rest (rw_after rw') /\
          (weights (rw_after rw') < weight op + weights rest)%nat
      | Ok (failure, _) => True
      | Abort => True
      | Exhausted => (fuel < weight op)%nat
      end).
    { intros m Hm. pose proof (legalize_lowering op before rest next mapping m Hl Hm) as H.
      destruct (bind m _ _) as [[[|] rw']| |]; try exact I; try assumption. contradiction. }
    destruct op; try discriminate Hl; cbn [applyPatterns].
    + (* pony.constant *) apply Hlow, hoare_ConstantOpLowering.
    + (* pony.add *)
      apply Hlow. eapply hoare_bind; [apply hoare_keeps, keeps_remapValues|].
      intros ?. apply hoare_pure. intros _. apply hoare_BinaryOpLowering.
    + (* pony.mul *)
      apply Hlow. eapply hoare_bind; [apply hoare_keeps, keeps_remapValues|].
      intros ?. apply hoare_pure. intros _. apply hoare_BinaryOpLowering.
    + (* pony.gemm *)
      apply Hlow. eapply hoare_bind; [apply hoare_keeps, keeps_remapValues|].
      intros ?. apply hoare_pure. intros _. apply hoare_GemmOpLowering.
    + (* pony.transpose *)
      apply Hlow. eapply hoare_bind; [apply hoare_keeps, keeps_remapValues|].
      intros ?. apply hoare_pure. intros _. apply hoare_TransposeOpLowering.
    + (* pony.print *)
      unfold bind at 1. unfold bind at 1. unfold remapValues at 1.
      cbn [rw_before rw_after rw_next rw_mapping operandsOf].
      rewrite PrintOpLowering_run. unfold legalizeRootUpdate. cbn [rw_after].
      destruct (isLegal (PonyPrint (map _ operands))) eqn:Hl'; [|exact I].
      unfold bind, advance, ret. cbn [rw_before rw_after rw_next rw_mapping].
      split; [|split; [now left|]].
      * intros HL. rewrite allLegal_app, HL. cbn [allLegal forallb andb].
        rewrite deepLegal_leaf; [reflexivity|reflexivity|assumption].
      * rewrite weight_unfold. simpl. lia.
    + (* pony.return *) apply Hlow, hoare_ReturnOpLowering.
    + (* pony.func *)
      unfold bind at 1. rewrite FuncOpLowering_run.
      destruct (String.eqb name "main" && Nat.eqb (length inputs) 0
                && Nat.eqb (length results) 0); [|exact I].
      pose proof (convertRegionOfLast_spec fuel conv before
                    (FuncFunc name inputs results body) rest next mapping Hconv eq_refl) as H.
      destruct (convertRegionOfLast conv _) as [[[|] rw']| |]; try exact I.
      * destruct H as [Ha Hb]. rewrite Ha. split; [assumption|]. split; [now left|].
        rewrite weight_unfold. simpl. lia.
      * rewrite weight_unfold in *. simpl in *. lia.
    + (* an operation without a pattern *) exact I.
Qed.

Lemma convertOps_spec fuel : convSpec fuel (convertOps fuel).
Proof.
  induction fuel as [|fuel IH]; intros rw.
  - cbn. lia.
  - cbn [convertOps]. destruct rw as [before after next mapping].
    cbn [rw_after rw_before]. destruct after as [|op rest].
    + split; [reflexivity|auto].
    + unfold bind.
      pose proof (legalize_spec fuel (convertOps fuel) op before rest next mapping IH) as H.
      destruct (legalize _ op _) as [[[|] rw1]| |]; try exact I.
      * destruct H as (Hb & Hstep & Hw).
        specialize (IH rw1). destruct (convertOps fuel rw1) as [[[|] rw2]| |]; try exact I.
        -- destruct IH as [Ha2 Hb2]. split; [assumption|auto].
        -- cbn [weights foldr]. fold (weights rest). lia.
      * cbn [weights foldr]. fold (weights rest). lia.
Qed.

Lemma afterStep_elem rest rest' (x : Operation) :
  afterStep rest rest' -> x ∈ rest -> x ∈ rest'.
Proof.
  intros [->|(mid & back & d & -> & ->)] Hx; [assumption|].
  apply elem_of_app in Hx as [Hx|Hx]; apply elem_of_app; [now left|right].
  apply list_elem_of_singleton in Hx as ->. right. left.
Qed.

Lemma convertRegionOfLast_doomed conv before op body bad rest next mapping :
  stopsAtDoomed conv -> regionOf op = Some body -> bad ∈ body -> doomed bad ->
  match convertRegionOfLast conv (mkRewriter (before ++ [op]) rest next mapping) with
  | Ok (success, _) => False
  | _ => True
  end.
Proof.
  intros Hconv Hr Hin Hbad. unfold convertRegionOfLast.
  cbn [rw_before rw_after rw_next rw_mapping]. rewrite splitLast_snoc, Hr.
  specialize (Hconv (mkRewriter [] body next mapping) bad Hin Hbad).
  destruct (conv _) as [[[|] rw']| |]; auto.
Qed.

Lemma legalize_doomed conv op before rest next mapping :
  stopsAtDoomed conv -> doomed op ->
  match legalize conv op (mkRewriter before (op :: rest) next mapping) with
  | Ok (success, _) => False
  | _ => True
  end.
Proof.
  intros Hconv Hd. unfold legalize.
  inversion Hd as [name inputs results body Hname
                  |name i inputs results body
                  |name inputs r results body
                  |v operands
                  |name res operands
                  |body bad Hin Hbad
                  |name inputs results body bad Hin Hbad
                  |iv lb ub step body bad Hin Hbad]; subst op;
    cbn [isLegal dialectOf applyPatterns].
  - unfold bind at 1. rewrite FuncOpLowering_run.
    apply String.eqb_neq in Hname. rewrite Hname. cbn [andb]. exact I.
  - unfold bind at 1. rewrite FuncOpLowering_run.
    cbn [length Nat.eqb]. rewrite andb_false_r. exact I.
  - unfold bind at 1. rewrite FuncOpLowering_run.
    cbn [length Nat.eqb]. rewrite andb_false_r. exact I.
  - exact I.
  - exact I.
  - unfold bind at 1. rewrite FuncOpLowering_run. cbn [String.eqb length Nat.eqb andb].
    change (String.eqb "main" "main") with true. cbn [andb].
    now apply (convertRegionOfLast_doomed conv before _ body bad).
  - unfold bind at 1. unfold advance. cbn [rw_before rw_after rw_next rw_mapping].
    now apply (convertRegionOfLast_doomed conv before _ body bad).
  - unfold bind at 1. unfold advance. cbn [rw_before rw_after rw_next rw_mapping].
    now apply (convertRegionOfLast_doomed conv before _ body bad).
Qed.

Lemma convertOps_doomed fuel : stopsAtDoomed (convertOps fuel).
Proof.
  induction fuel as [|fuel IH]; intros rw bad Hin Hbad; [exact I|].
  cbn [convertOps]. destruct rw as [before after next mapping].
  cbn [rw_after] in *. destruct after as [|op rest]; [now apply elem_of_nil in Hin|].
  unfold bind. apply elem_of_cons in Hin as [->|Hin].
  - pose proof (legalize_doomed (convertOps fuel) op before rest next mapping IH Hbad) as H.
    destruct (legalize _ op _) as [[[|] rw1]| |]; cbn [ret]; try exact I. contradiction.
  - pose proof (legalize_spec fuel (convertOps fuel) op before rest next mapping
                  (convertOps_spec fuel)) as H.
    destruct (legalize _ op _) as [[[|] rw1]| |]; cbn [ret]; try exact I.
    destruct H as (_ & Hstep & _).
    apply (IH rw1 bad); [|assumption]. now apply (afterStep_elem rest).
Qed.

(** C3.  The conversion is atomic.  The pass always comes to an end within
    its budget, and when it returns, either it reports failure and hands
    back the module it was given, untouched, or it reports success and every
    operation of the module it returns, nested ones included, is legal for
    the target: no operation of the Pony dialect is left but [pony.print]
    without tensor operands.  So a module in which an illegal operation
    remains is never returned as the result. *)
Theorem runOnOperation_atomic module :
  runOnOperation module <> Exhausted /\
  forall r, runOnOperation module = Ok r ->
    (passFailed r = true /\ passModule r = module) \/
    (passFailed r = false /\ allLegal (passModule r) = true).
Proof.
  unfold runOnOperation, applyPartialConversion.
  pose proof (convertOps_spec (S (weights module))
                (mkRewriter [] module (firstFresh module) ∅)) as H.
  destruct (convertOps _ _) as [[[|] rw']| |]; cbn [rw_before rw_after] in *.
  - split; [discriminate|]. intros r [= <-]. right. cbn [passFailed passModule].
    split; [reflexivity|]. destruct H as [Ha Hb]. rewrite Ha, app_nil_r. now apply Hb.
  - split; [discriminate|]. intros r [= <-]. left. split; reflexivity.
  - split; discriminate.
  - lia.
Qed.

(** C7.  Entry points and returns.  [FuncOpLowering] rewrites a function
    named [main] with no inputs and no results into a plain function with
    the same body and declines every other function; [ReturnOpLowering]
    rewrites a return without operands into a plain return and declines a
    return with operands.  A module that holds an operation a rule declines
    (at the top, or inside a function or a loop) makes the pass report
    failure and hand back the module untouched, whenever the pass returns;
    and the pass does return so when the module starts with a function a
    rule declines, or with a [main] whose body starts with a return with
    operands.  The module made of the parameterless [main] with a bare
    return is converted to a plain function with a plain return. *)
Theorem noninlined_call_rules :
  (forall name inputs results body before cur rest next mapping,
     FuncOpLowering (PonyFunc name inputs results body)
       (mkRewriter before (cur :: rest) next mapping) =
     if String.eqb name "main" && Nat.eqb (length inputs) 0 && Nat.eqb (length results) 0
     then Ok (success,
              mkRewriter (before ++ [FuncFunc name inputs results body]) rest next mapping)
     else Ok (failure, mkRewriter before (cur :: rest) next mapping)) /\
  (forall operands before cur rest next mapping,
     ReturnOpLowering (PonyReturn operands)
       (mkRewriter before (cur :: rest) next mapping) =
     match operands with
     | [] => Ok (success, mkRewriter (before ++ [FuncReturn]) rest next mapping)
     | _ :: _ => Ok (failure, mkRewriter before (cur :: rest) next mapping)
     end) /\
  (forall module bad r,
     bad ∈ module -> doomed bad -> runOnOperation module = Ok r ->
     passFailed r = true /\ passModule r = module) /\
  (forall name inputs results body rest,
     name <> "main"%string \/ inputs <> [] \/ results <> [] ->
     runOnOperation (PonyFunc name inputs results body :: rest) =
     Ok (mkPassResult true (PonyFunc name inputs results body :: rest))) /\
  (forall v operands ops rest,
     runOnOperation (PonyFunc "main" [] [] (PonyReturn (v :: operands) :: ops) :: rest) =
     Ok (mkPassResult true
           (PonyFunc "main" [] [] (PonyReturn (v :: operands) :: ops) :: rest))) /\
  runOnOperation [PonyFunc "main" [] [] [PonyReturn []]] =
    Ok (mkPassResult false [FuncFunc "main" [] [] [FuncReturn]]).
Proof.
  split; [|split; [|split; [|split; [|split]]]].
  - intros. apply FuncOpLowering_run.
  - intros operands before cur rest next mapping. destruct operands; reflexivity.
  - intros module bad r Hin Hbad. unfold runOnOperation, applyPartialConversion.
    pose proof (convertOps_doomed (S (weights module))
                  (mkRewriter [] module (firstFresh module) ∅) bad Hin Hbad) as H.
    destruct (convertOps _ _) as [[[|] rw']| |]; try discriminate; [contradiction|].
    intros [= <-]. split; reflexivity.
  - intros name inputs results body rest Hbad.
    unfold runOnOperation, applyPartialConversion.
    cbn [convertOps rw_after]. unfold bind at 1. unfold legalize.
    cbn [isLegal dialectOf applyPatterns]. unfold bind at 1.
    rewrite FuncOpLowering_run.
    replace (String.eqb name "main" && Nat.eqb (length inputs) 0
             && Nat.eqb (length results) 0) with false; [reflexivity|].
    symmetry. destruct Hbad as [Hn|[Hi|Hr]].
    + apply String.eqb_neq in Hn. now rewrite Hn.
    + destruct inputs; [contradiction|]. cbn [length Nat.eqb].
      now rewrite andb_false_r.
    + destruct results; [contradiction|]. cbn [length Nat.eqb].
      now rewrite andb_false_r.
  - intros v operands ops rest.
    unfold runOnOperation, applyPartialConversion.
    set (bad := PonyReturn (v :: operands)).
    set (main := PonyFunc "main" [] [] (bad :: ops)).
    assert (Hw : exists n, weights (main :: rest) = S n).
    { cbn [weights foldr]. rewrite weight_unfold. simpl. eauto. }
    destruct Hw as [n Hw]. rewrite Hw.
    cbn [convertOps rw_after]. unfold bind at 1. unfold legalize.
    unfold main at 1 2. cbn [isLegal dialectOf applyPatterns]. unfold bind at 1.
    unfold main at 1. rewrite FuncOpLowering_run.
    change (String.eqb "main" "main") with true.
    cbn [length Nat.eqb andb]. unfold convertRegionOfLast.
    cbn [rw_before rw_after rw_next rw_mapping app splitLast regionOf]. reflexivity.
  - reflexivity.
Qed.

(** What the driver does with a [pony.print]: a legal one is stepped over
    untouched; an illegal one gets, for each operand, the value that
    replaced it, if any, and is then stepped over if it has become legal;
    otherwise the conversion fails. *)
Lemma legalize_print operands conv before rest next mapping :
  legalize conv (PonyPrint operands)
    (mkRewriter before (PonyPrint operands :: rest) next mapping) =
    let replaced := map (fun v => default v (mapping !! vid v)) operands in
    if isLegal (PonyPrint operands)
    then Ok (success, mkRewriter (before ++ [PonyPrint operands]) rest next mapping)
    else if isLegal (PonyPrint replaced)
    then Ok (success, mkRewriter (before ++ [PonyPrint replaced]) rest next mapping)
    else Ok (failure, mkRewriter before (PonyPrint replaced :: rest) next mapping).
Proof.
  unfold legalize. destruct (isLegal (PonyPrint operands)) eqn:Hl.
  - unfold bind, advance, convertRegionOfLast.
    cbn [rw_before rw_after rw_next rw_mapping].
    rewrite splitLast_snoc. reflexivity.
  - cbn [applyPatterns]. unfold bind at 1. unfold bind at 1. unfold remapValues at 1.
    cbn [rw_before rw_after rw_next rw_mapping operandsOf].
    rewrite PrintOpLowering_run. unfold legalizeRootUpdate. cbn [rw_after].
    cbv zeta. destruct (isLegal (PonyPrint (map _ operands))); reflexivity.
Qed.

(** C8.  [pony.print].  The operation is legal for the target exactly when
    none of its operands has a tensor type.  Its pattern never declines and
    creates nothing: it only replaces the operands of the operation by the
    operands it is given (the values that replaced them), and the operation
    stays a [pony.print] at its place in the block, between the same
    neighbours. *)
Theorem print_legality_and_rewrite operands operands' before rest next mapping :
  (isLegal (PonyPrint operands) = true <->
   forall v, v ∈ operands -> isTensorType (vtype v) = false) /\
  PrintOpLowering (PonyPrint operands) operands'
    (mkRewriter before (PonyPrint operands :: rest) next mapping) =
    Ok (success, mkRewriter before (PonyPrint operands' :: rest) next mapping).
Proof.
  split; [|reflexivity].
  cbn [isLegal]. unfold printIsLegal. rewrite negb_true_iff. split.
  - intros H v Hv. apply not_true_is_false. intros Ht.
    assert (existsb isTensorType (map vtype operands) = true); [|congruence].
    apply existsb_exists. exists (vtype v). split; [|assumption].
    apply in_map. now apply list_elem_of_In.
  - intros H. apply not_true_is_false. intros Ht.
    apply existsb_exists in Ht as (t & Hin & Ht).
    apply in_map_iff in Hin as (v & <- & Hv).
    apply list_elem_of_In in Hv. rewrite (H v Hv) in Ht. discriminate.
Qed.

(** * Further properties of the lowering *)

(** ** Loop nests of any depth *)

(** What [buildAffineLoopNest] leaves at the insertion point, for a
    per-iteration function that creates [body] and takes [k] fresh values. *)
Lemma affineLoops_run (bodyBuilderFn : list Value -> M unit) body k :
  (forall ivs rw, bodyBuilderFn ivs rw =
     Ok (tt, mkRewriter (rw_before rw ++ body ivs (rw_next rw)) (rw_after rw)
                        (rw_next rw + k) (rw_mapping rw))) ->
  forall ubs ivs rw,
    affineLoops (replicate (length ubs) 0) ubs (replicate (length ubs) 1) ivs
      bodyBuilderFn rw =
    Ok (tt, mkRewriter (rw_before rw ++ nestCode ubs ivs (rw_next rw) body) (rw_after rw)
                       (rw_next rw + length ubs + k) (rw_mapping rw)).
Proof.
  intros Hb. induction ubs as [|ub ubs IH]; intros ivs rw.
  - cbn [length replicate affineLoops nestCode]. rewrite Hb.
    now replace (rw_next rw + 0 + k)%nat with (rw_next rw + k)%nat by lia.
  - cbn [length replicate affineLoops nestCode].
    unfold bind at 1. unfold freshValue at 1.
    unfold bind at 1. unfold inRegion. unfold bind at 1.
    rewrite IH. cbn [rw_before rw_after rw_next rw_mapping app fst snd].
    unfold create. cbn [rw_before rw_after rw_next rw_mapping app fst snd].
    rewrite app_nil_r.
    now replace (S (rw_next rw) + length ubs + k)%nat
      with (rw_next rw + S (length ubs) + k)%nat by lia.
Qed.

Lemma indexValues_cons base n :
  indexValues base (S n) = mkValue base IndexType :: indexValues (S base) n.
Proof.
  unfold indexValues. cbn [seq map]. rewrite Nat.add_0_r. f_equal.
  rewrite <- seq_shift, map_map. apply map_ext. intros a. f_equal. lia.
Qed.

Lemma elem_of_indexValues base n v :
  v ∈ indexValues base n -> (base <= vid v < base + n)%nat.
Proof.
  unfold indexValues. intros H. apply list_elem_of_fmap in H as (k & -> & Hk).
  apply list_elem_of_In, in_seq in Hk. simpl. lia.
Qed.

Lemma NoDup_indexValues base n : NoDup (map vid (indexValues base n)).
Proof.
  unfold indexValues. rewrite map_map. cbn [vid].
  apply NoDup_fmap_2; [intros a1 a2; lia|]. apply NoDup_ListNoDup, List.seq_NoDup.
Qed.

Lemma bindIvs_snoc e ivs c iv i :
  length ivs = length c ->
  bindIvs e (ivs ++ [iv]) (c ++ [i]) = <[vid iv := RIndex i]> (bindIvs e ivs c).
Proof.
  revert e c. induction ivs as [|a ivs IH]; intros e [|x c] H; simpl in *;
    try discriminate; [reflexivity|]. apply IH. lia.
Qed.

Lemma bindIvs_other e ivs c id :
  id ∉ map vid ivs -> bindIvs e ivs c !! id = e !! id.
Proof.
  revert e c. induction ivs as [|a ivs IH]; intros e [|x c] H; simpl in *; try reflexivity.
  apply not_elem_of_cons in H as [Hne H].
  rewrite IH by assumption. now rewrite lookup_insert_ne by congruence.
Qed.

Lemma bindIvs_lookup e ivs c :
  NoDup (map vid ivs) -> length ivs = length c ->
  Forall2 (fun v i => bindIvs e ivs c !! vid v = Some (RIndex i)) ivs c.
Proof.
  revert e c. induction ivs as [|a ivs IH]; intros e [|x c] Hnd Hlen; simpl in *;
    try discriminate; [constructor|].
  apply NoDup_cons in Hnd as [Ha Hnd]. constructor.
  - rewrite bindIvs_other by assumption. apply lookup_insert_eq.
  - apply IH; [assumption|lia].
Qed.

Lemma getIndices_Forall2 e vs idx :
  Forall2 (fun v i => e !! vid v = Some (RIndex i)) vs idx ->
  getIndices e vs = Some idx.
Proof.
  induction 1 as [|v i vs idx Hv Hvs IH]; [reflexivity|].
  cbn [getIndices]. unfold getIndex. now rewrite Hv, IH.
Qed.

Lemma Forall2_insert_fresh (e : gmap nat RtVal) id x vs idx :
  id ∉ map vid vs ->
  Forall2 (fun v i => e !! vid v = Some (RIndex i)) vs idx ->
  Forall2 (fun v i => <[id := x]> e !! vid v = Some (RIndex i)) vs idx.
Proof.
  intros Hid H. induction H as [|v i vs idx Hv Hvs IH]; [constructor|].
  simpl in Hid. apply not_elem_of_cons in Hid as [Hne Hid].
  constructor; [|now apply IH]. now rewrite lookup_insert_ne by congruence.
Qed.

(** The coordinates of a shape are the index tuples within its bounds. *)
Lemma elem_of_coords shape c : c ∈ coords shape <-> inBounds shape c = true.
Proof.
  revert c. induction shape as [|d shape IH]; intros c; cbn [coords].
  - destruct c; simpl; split; intros H; try discriminate.
    + reflexivity.
    + apply list_elem_of_singleton. reflexivity.
    + apply list_elem_of_singleton in H. discriminate.
  - rewrite flat_map_bind. split.
    + intros H. apply list_elem_of_bind in H as (i & Hc & Hi).
      apply list_elem_of_fmap in Hc as (c' & -> & Hc').
      apply elem_of_seqZ in Hi. apply IH in Hc'. cbn [inBounds]. rewrite Hc'.
      replace (0 <=? i) with true by (symmetry; apply Z.leb_le; lia).
      replace (i <? d) with true by (symmetry; apply Z.ltb_lt; lia).
      reflexivity.
    + destruct c as [|i c']; [discriminate|]. cbn [inBounds].
      intros H. apply andb_prop in H as [H Hc']. apply andb_prop in H as [H0 Hd].
      apply Z.leb_le in H0. apply Z.ltb_lt in Hd.
      apply list_elem_of_bind. exists i. split.
      * apply list_elem_of_fmap. exists c'. split; [reflexivity|]. now apply IH.
      * apply elem_of_seqZ. lia.
Qed.

Lemma inBounds_Forall2 shape c :
  inBounds shape c = true <-> Forall2 (fun d i => 0 <= i < d) shape c.
Proof.
  revert c. induction shape as [|d shape IH]; intros [|i c]; cbn [inBounds];
    split; intros H; try discriminate; try constructor; try (now inversion H).
  - apply andb_prop in H as [H _]. apply andb_prop in H as [H0 Hd].
    apply Z.leb_le in H0. apply Z.ltb_lt in Hd. lia.
  - apply andb_prop in H as [_ H]. now apply IH.
  - inversion H as [|? ? ? ? Hi Hc]; subst. apply IH in Hc. rewrite Hc.
    replace (0 <=? i) with true by (symmetry; apply Z.leb_le; lia).
    replace (i <? d) with true by (symmetry; apply Z.ltb_lt; lia).
    reflexivity.
Qed.

Lemma Forall2_rev {A B} (P : A -> B -> Prop) l k :
  Forall2 P l k -> Forall2 P (rev l) (rev k).
Proof. rewrite !rev_alt. apply Forall2_reverse. Qed.

Lemma inBounds_rev shape c :
  inBounds shape c = true -> inBounds (rev shape) (rev c) = true.
Proof. rewrite !inBounds_Forall2. apply Forall2_rev. Qed.

Lemma storeAll_app buf cvs1 cvs2 :
  storeAll (storeAll buf cvs1) cvs2 = storeAll buf (cvs1 ++ cvs2).
Proof. unfold storeAll. now rewrite fold_left_app. Qed.

(** After the stores of [target c] at every [c] of [cs], each of these cells
    holds its target. *)
Lemma storeAll_target (target : list Z -> elem) cs :
  forall buf c, c ∈ cs ->
    buf_cells (storeAll buf (map (fun c => (c, target c)) cs)) c = target c.
Proof.
  induction cs as [|c0 cs IH]; intros buf c Hc; [now apply elem_of_nil in Hc|].
  cbn [map]. change (storeAll buf ((c0, target c0) :: map (fun c => (c, target c)) cs))
    with (storeAll (storeCell buf c0 (target c0)) (map (fun c => (c, target c)) cs)).
  destruct (decide (c ∈ cs)) as [Hin|Hnin]; [now apply IH|].
  apply elem_of_cons in Hc as [->|Hc]; [|contradiction].
  rewrite storeAll_other.
  - simpl. now rewrite decide_True.
  - rewrite map_map. simpl. now rewrite map_id.
Qed.

(** A loop nest over [ubs] whose innermost body stores [target c] at the
    coordinate [c] the induction variables hold: run inside the enclosing
    loops, at the coordinate prefix [cp], it performs these stores in
    row-major order and nothing else.  The values the body keeps, [kept],
    are kept by the nest. *)
Lemma nestCode_fills (body : list Value -> nat -> list Operation) shape b
    (target : list Z -> elem) e0 (m0 : gmap nat Buffer) ivsF nextF
    (kept : nat -> Prop) :
  (forall c s buf,
     c ∈ coords shape ->
     env s = bindIvs e0 ivsF c ->
     mem s !! b = Some buf -> buf_shape buf = shape ->
     (forall b', b' <> b -> mem s !! b' = m0 !! b') ->
     exists s', exec_block (body ivsF nextF) s = Some s' /\
       mem s' = <[b := storeCell buf c (target c)]> (mem s) /\
       next_buf s' = next_buf s /\ printed s' = printed s /\
       forall id, kept id -> env s' !! id = env s !! id) ->
  forall ubs ivs next cp s buf,
    ivs ++ indexValues next (length ubs) = ivsF -> (next + length ubs)%nat = nextF ->
    length ivs = length cp ->
    (forall c', c' ∈ coords ubs -> cp ++ c' ∈ coords shape) ->
    env s = bindIvs e0 ivs cp ->
    mem s !! b = Some buf -> buf_shape buf = shape ->
    (forall b', b' <> b -> mem s !! b' = m0 !! b') ->
    exists s', exec_block (nestCode ubs ivs next body) s = Some s' /\
      mem s' = <[b := storeAll buf (map (fun c' => (cp ++ c', target (cp ++ c')))
                                        (coords ubs))]> (mem s) /\
      next_buf s' = next_buf s /\ printed s' = printed s /\
      forall id, kept id -> env s' !! id = env s !! id.
Proof.
  intros Hbody. induction ubs as [|ub ubs IH];
    intros ivs next cp s buf Hivs Hnext Hlen Hin He Hm Hshape Hframe.
  - cbn [length indexValues seq map] in Hivs. rewrite app_nil_r in Hivs.
    rewrite Nat.add_0_r in Hnext. subst ivs next.
    cbn [nestCode coords map]. rewrite app_nil_r.
    apply Hbody; try assumption.
    specialize (Hin [] ltac:(cbn; apply list_elem_of_singleton; reflexivity)).
    now rewrite app_nil_r in Hin.
  - cbn [nestCode]. set (iv := mkValue next IndexType).
    set (f := fun c' : list Z => (cp ++ c', target (cp ++ c'))).
    set (row := fun i : Z => map (cons i) (coords ubs)).
    pose (P := fun (i : Z) (t : Machine) =>
      mem t = <[b := storeAll buf (map f (flat_map row (seqZ 0 i)))]> (mem s) /\
      next_buf t = next_buf s /\ printed t = printed s).
    destruct (exec_for_inv P iv ub
                (nestCode ubs (ivs ++ [iv]) (S next) body ++ [AffineYield]) s)
      as (s' & E & HP & He').
    + unfold P. rewrite seqZ_nil by lia. cbn. repeat split. now rewrite insert_id.
    + intros i t Hi (Pm & Pn & Pp) Het.
      set (buft := storeAll buf (map f (flat_map row (seqZ 0 i)))) in *.
      destruct (IH (ivs ++ [iv]) (S next) (cp ++ [i]) (setEnv t iv (RIndex i)) buft)
        as (t' & Et & Hm' & Hn' & Hp' & _).
      * rewrite <- Hivs. cbn [length]. rewrite indexValues_cons, <- app_assoc. reflexivity.
      * cbn [length] in Hnext. lia.
      * rewrite !length_app. cbn [length]. lia.
      * intros c' Hc'. rewrite <- app_assoc. cbn [app]. apply Hin.
        cbn [coords]. rewrite flat_map_bind. apply list_elem_of_bind. exists i. split.
        -- apply list_elem_of_fmap. now exists c'.
        -- apply elem_of_seqZ. lia.
      * cbn [setEnv env]. rewrite Het, He. now rewrite bindIvs_snoc.
      * cbn [setEnv mem]. rewrite Pm. apply lookup_insert_eq.
      * unfold buft. now rewrite storeAll_shape.
      * intros b' Hb'. cbn [setEnv mem]. rewrite Pm.
        rewrite lookup_insert_ne by congruence. now apply Hframe.
      * rewrite exec_block_app, Et. cbn [exec_block exec_op].
        eexists. split; [reflexivity|]. unfold P. cbn [mem next_buf printed].
        split; [|split; [etransitivity; [exact Hn'|exact Pn]
                        |etransitivity; [exact Hp'|exact Pp]]].
        rewrite Hm'. cbn [setEnv mem]. rewrite Pm, insert_insert_eq. f_equal.
        unfold buft. rewrite storeAll_app. f_equal.
        rewrite (seqZ_app 0 i 1) by lia. rewrite (seqZ_cons (0 + i) 1) by lia.
        rewrite (seqZ_nil (Z.succ (0 + i))) by lia. rewrite flat_map_app, map_app. f_equal.
        cbn [flat_map]. rewrite app_nil_r. unfold row, f. rewrite map_map.
        apply map_ext. intros c'. now rewrite <- app_assoc.
    + cbn [exec_block]. rewrite E. exists s'. split; [reflexivity|].
      destruct HP as (Pm & Pn & Pp).
      split; [|split; [assumption|split; [assumption|intros id _; now rewrite He']]].
      rewrite Pm. do 2 f_equal. cbn [coords]. fold row. unfold f.
      destruct (Z.le_gt_cases 0 ub) as [Hub|Hub].
      * now rewrite Z.max_r by lia.
      * now rewrite !seqZ_nil by lia.
Qed.


(** What [lowerOpToLoops] leaves in the block, for a shape of any rank. *)
Lemma lowerOpToLoops_run op operands processIteration body k shape rid
    pre post back next mapping :
  let alloc := mkValue next (MemRefType shape) in
  resultOf op = Some (mkValue rid (TensorType shape)) ->
  (forall alloc ivs rw,
     (let* valueToStore := processIteration operands ivs in
      create (AffineStore valueToStore alloc ivs)) rw =
     Ok (tt, mkRewriter (rw_before rw ++ body alloc ivs (rw_next rw)) (rw_after rw)
                        (rw_next rw + k) (rw_mapping rw))) ->
  lowerOpToLoops op operands processIteration
    (mkRewriter pre (op :: post ++ [back]) next mapping) =
  Ok (tt, mkRewriter (MemRefAlloc alloc :: pre ++ nestCode shape [] (S next) (body alloc))
                     (post ++ [MemRefDealloc alloc; back])
                     (S next + length shape + k) (<[rid := alloc]> mapping)).
Proof.
  intros alloc Hres Hbody. unfold lowerOpToLoops.
  unfold bind at 1. unfold lift at 1. unfold resultTensorType. rewrite Hres.
  cbn [vtype isTensorType].
  unfold bind at 1. unfold lift at 1. cbn [convertTensorToMemRef].
  unfold bind at 1. rewrite insertAllocAndDealloc_run.
  unfold bind at 1. unfold lift at 1. cbn [getShape].
  unfold bind at 1. unfold buildAffineLoopNest.
  rewrite (affineLoops_run _ (body alloc) k) by (intros; apply Hbody).
  cbn [rw_before rw_after rw_next rw_mapping].
  unfold replaceOp. rewrite Hres. unfold bind, mapValue, eraseOp.
  cbn [rw_before rw_after rw_next rw_mapping vid app].
  reflexivity.
Qed.

Lemma BinaryOpLowering_nest k shape rid lhs rhs lhs' rhs' pre post back next mapping :
  let res := mkValue rid (TensorType shape) in
  let alloc := mkValue next (MemRefType shape) in
  BinaryOpLowering k (binaryOp k res lhs rhs) [lhs'; rhs']
    (mkRewriter pre (binaryOp k res lhs rhs :: post ++ [back]) next mapping)
  = Ok (success,
        mkRewriter
          (MemRefAlloc alloc :: pre ++
           nestCode shape [] (S next) (binaryBody k alloc lhs' rhs'))
          (post ++ [MemRefDealloc alloc; back])
          (S next + length shape + 3) (<[rid := alloc]> mapping)).
Proof.
  intros res alloc. unfold BinaryOpLowering. unfold bind at 1.
  rewrite (lowerOpToLoops_run _ _ _ (fun a => binaryBody k a lhs' rhs') 3 shape rid).
  - reflexivity.
  - destruct k; reflexivity.
  - intros a ivs rw. unfold binaryBody.
    cbv [bind lift createLoad freshValue create ret]. cbn.
    rewrite <- !app_assoc. cbn [app].
    replace (S (S (S (rw_next rw)))) with (rw_next rw + 3)%nat by lia.
    reflexivity.
Qed.

Lemma TransposeOpLowering_nest shape rid input input' pre post back next mapping :
  let res := mkValue rid (TensorType shape) in
  let alloc := mkValue next (MemRefType shape) in
  TransposeOpLowering (PonyTranspose res input) [input']
    (mkRewriter pre (PonyTranspose res input :: post ++ [back]) next mapping)
  = Ok (success,
        mkRewriter
          (MemRefAlloc alloc :: pre ++
           nestCode shape [] (S next) (transposeBody alloc input'))
          (post ++ [MemRefDealloc alloc; back])
          (S next + length shape + 1) (<[rid := alloc]> mapping)).
Proof.
  intros res alloc. unfold TransposeOpLowering. unfold bind at 1.
  rewrite (lowerOpToLoops_run _ _ _ (fun a => transposeBody a input') 1 shape rid).
  - reflexivity.
  - reflexivity.
  - intros a ivs rw. unfold transposeBody.
    cbv [bind lift createLoad freshValue create ret]. cbn.
    rewrite <- ?app_assoc. cbn [app].
    replace (S (rw_next rw)) with (rw_next rw + 1)%nat by lia.
    reflexivity.
Qed.

Lemma length_indexValues base n : length (indexValues base n) = n.
Proof. unfold indexValues. now rewrite length_map, length_seq. Qed.

Lemma length_coord shape c : c ∈ coords shape -> length c = length shape.
Proof.
  intros H. apply elem_of_coords, inBounds_Forall2, Forall2_length in H. congruence.
Qed.

Lemma indexValues_fresh base n id :
  (id < base \/ base + n <= id)%nat -> id ∉ map vid (indexValues base n).
Proof.
  intros Hid Hin. apply list_elem_of_fmap in Hin as (v & -> & Hv).
  apply elem_of_indexValues in Hv. lia.
Qed.


Lemma getBuffer_setEnv s r x v :
  vid v <> vid r -> getBuffer (setEnv s r x) v = getBuffer s v.
Proof. intros H. unfold getBuffer, setEnv. cbn [env mem]. now rewrite lookup_insert_ne by congruence. Qed.

Lemma getIndices_setEnv s r x vs :
  Forall (fun v => vid v <> vid r) vs ->
  getIndices (env (setEnv s r x)) vs = getIndices (env s) vs.
Proof.
  induction 1 as [|v vs Hv Hvs IH]; [reflexivity|].
  cbn [getIndices]. rewrite IH. unfold getIndex, setEnv. cbn [env].
  now rewrite lookup_insert_ne by congruence.
Qed.

Lemma getFloat_setEnv s r x : getFloat (env (setEnv s r (RFloat x))) r = Some x.
Proof. unfold getFloat, setEnv. cbn [env]. now rewrite lookup_insert_eq. Qed.

Lemma getFloat_setEnv_ne s r y v :
  vid v <> vid r -> getFloat (env (setEnv s r y)) v = getFloat (env s) v.
Proof. intros H. unfold getFloat, setEnv. cbn [env]. now rewrite lookup_insert_ne by congruence. Qed.

Lemma Forall_older (vs : list Value) next id :
  Forall (fun v => (vid v < next)%nat) vs -> (next <= id)%nat ->
  Forall (fun v => vid v <> id) vs.
Proof. intros H Hid. eapply Forall_impl; [exact H|]. simpl. intros; lia. Qed.

(** One iteration of the body of a [BinaryOpLowering]. *)
Lemma exec_binaryBody k alloc lhs' rhs' ivs next s c b buf bl bufl br bufr :
  (vid lhs' < next)%nat -> (vid rhs' < next)%nat -> (vid alloc < next)%nat ->
  Forall (fun v => (vid v < next)%nat) ivs ->
  getIndices (env s) ivs = Some c ->
  getBuffer s lhs' = Some (bl, bufl) -> inBounds (buf_shape bufl) c = true ->
  getBuffer s rhs' = Some (br, bufr) -> inBounds (buf_shape bufr) c = true ->
  getBuffer s alloc = Some (b, buf) -> inBounds (buf_shape buf) c = true ->
  exists s',
    exec_block (binaryBody k alloc lhs' rhs' ivs next) s = Some s' /\
    mem s' = <[b := storeCell buf c (scalarOp k (buf_cells bufl c) (buf_cells bufr c))]>
               (mem s) /\
    next_buf s' = next_buf s /\ printed s' = printed s /\
    forall id, (id < next \/ next + 3 <= id)%nat -> env s' !! id = env s !! id.
Proof.
  intros Hl Hr Ha Hivs Hc Hbl Hil Hbr Hir Hb Hib. unfold binaryBody.
  eexists. split.
  - rewrite exec_block_cons. erewrite exec_load; [|eassumption..].
    rewrite exec_block_cons. erewrite exec_load.
    2:{ rewrite getBuffer_setEnv by (simpl; lia). eassumption. }
    2:{ rewrite getIndices_setEnv by (apply (Forall_older _ next); simpl; [assumption|lia]).
        eassumption. }
    2:{ assumption. }
    rewrite exec_block_cons. erewrite exec_lowered.
    2:{ rewrite getFloat_setEnv_ne by (simpl; lia). apply getFloat_setEnv. }
    2:{ apply getFloat_setEnv. }
    rewrite exec_block_cons. erewrite exec_store.
    2:{ apply getFloat_setEnv. }
    2:{ rewrite !getBuffer_setEnv by (simpl; lia). eassumption. }
    2:{ rewrite !getIndices_setEnv
          by (apply (Forall_older _ next); simpl; [assumption|lia]).
        eassumption. }
    2:{ assumption. }
    reflexivity.
  - cbn [setMem setEnv mem next_buf printed env vid]. repeat split.
    intros id Hid. now rewrite !lookup_insert_ne by lia.
Qed.

(** One iteration of the body of the [TransposeOpLowering]. *)
Lemma exec_transposeBody alloc input' ivs next s c b buf bi bufi :
  (vid input' < next)%nat -> (vid alloc < next)%nat ->
  Forall (fun v => (vid v < next)%nat) ivs ->
  getIndices (env s) ivs = Some c ->
  getIndices (env s) (rev ivs) = Some (rev c) ->
  getBuffer s input' = Some (bi, bufi) -> inBounds (buf_shape bufi) (rev c) = true ->
  getBuffer s alloc = Some (b, buf) -> inBounds (buf_shape buf) c = true ->
  exists s',
    exec_block (transposeBody alloc input' ivs next) s = Some s' /\
    mem s' = <[b := storeCell buf c (buf_cells bufi (rev c))]> (mem s) /\
    next_buf s' = next_buf s /\ printed s' = printed s /\
    forall id, (id < next \/ next + 1 <= id)%nat -> env s' !! id = env s !! id.
Proof.
  intros Hi Ha Hivs Hc Hrc Hbi Hii Hb Hib. unfold transposeBody.
  eexists. split.
  - rewrite exec_block_cons. erewrite exec_load; [|eassumption..].
    rewrite exec_block_cons. erewrite exec_store.
    2:{ apply getFloat_setEnv. }
    2:{ rewrite !getBuffer_setEnv by (simpl; lia). eassumption. }
    2:{ rewrite !getIndices_setEnv
          by (apply (Forall_older _ next); simpl; [assumption|lia]).
        eassumption. }
    2:{ assumption. }
    reflexivity.
  - cbn [setMem setEnv mem next_buf printed env vid]. repeat split.
    intros id Hid. now rewrite !lookup_insert_ne by lia.
Qed.

(** The machine inside the loop nest of a rewrite: the induction variables
    hold the coordinate, the values of the block are those of the start, and
    so are the buffers other than the new one. *)
Lemma inside_nest st next b buf0 shape c s v bv bufv :
  (vid v < next)%nat ->
  env st !! vid v = Some (RMemRef bv) -> mem st !! bv = Some bufv ->
  mem st !! b = None ->
  c ∈ coords shape ->
  env s = bindIvs (<[next := RMemRef b]> (env st))
            (indexValues (S next) (length shape)) c ->
  (forall b', b' <> b -> mem s !! b' = <[b := buf0]> (mem st) !! b') ->
  getBuffer s v = Some (bv, bufv) /\
  env s !! next = Some (RMemRef b) /\
  getIndices (env s) (indexValues (S next) (length shape)) = Some c /\
  getIndices (env s) (rev (indexValues (S next) (length shape))) = Some (rev c) /\
  Forall (fun v => (vid v < S next + length shape)%nat)
         (indexValues (S next) (length shape)).
Proof.
  intros Hv Hev Hmv Hfree Hc He Hframe.
  assert (Hne : bv <> b) by (intros ->; congruence).
  assert (Hall : Forall2 (fun v i => env s !! vid v = Some (RIndex i))
                   (indexValues (S next) (length shape)) c).
  { rewrite He. apply bindIvs_lookup; [apply NoDup_indexValues|].
    rewrite length_indexValues. symmetry. now apply length_coord. }
  split; [|split; [|split; [|split]]].
  - apply getBuffer_intro.
    + rewrite He, bindIvs_other by (apply indexValues_fresh; lia).
      now rewrite lookup_insert_ne by lia.
    + rewrite Hframe by assumption. now rewrite lookup_insert_ne by congruence.
  - rewrite He, bindIvs_other by (apply indexValues_fresh; lia). apply lookup_insert_eq.
  - now apply getIndices_Forall2.
  - now apply getIndices_Forall2, Forall2_rev.
  - apply Forall_forall. intros x Hx. apply elem_of_indexValues in Hx. lia.
Qed.

(** X1.  Elementwise addition and multiplication at any rank.  For operands and
    a result of one shape, of whatever rank, [BinaryOpLowering] emits the
    allocation and a loop nest with one loop per dimension whose innermost body
    loads both operands at the induction variables, applies the scalar operation
    and stores the value there.  Run on a machine that holds the two operand
    buffers, the code leaves [lhs[c] OP rhs[c]] in every cell [c] of the new
    buffer. *)
Theorem BinaryOpLowering_any_rank
    k shape rid lhs rhs lhs' rhs' post back next mapping st bl bufl br bufr :
  let res := mkValue rid (TensorType shape) in
  let op := binaryOp k res lhs rhs in
  let alloc := mkValue next (MemRefType shape) in
  (vid lhs' < next)%nat -> (vid rhs' < next)%nat ->
  getBuffer st lhs' = Some (bl, bufl) -> buf_shape bufl = shape ->
  getBuffer st rhs' = Some (br, bufr) -> buf_shape bufr = shape ->
  mem st !! next_buf st = None ->
  exists rw' st' b buf,
    BinaryOpLowering k op [lhs'; rhs'] (mkRewriter [] (op :: post ++ [back]) next mapping)
      = Ok (success, rw') /\
    rw_mapping rw' !! rid = Some alloc /\
    rw_before rw' =
      MemRefAlloc alloc :: nestCode shape [] (S next) (binaryBody k alloc lhs' rhs') /\
    exec_block (rw_before rw') st = Some st' /\
    getBuffer st' alloc = Some (b, buf) /\
    buf_shape buf = shape /\
    forall c, inBounds shape c = true ->
      buf_cells buf c = scalarOp k (buf_cells bufl c) (buf_cells bufr c).
Proof.
  intros res op alloc Hlf Hrf Hl Hsl Hr Hsr Hfree.
  apply getBuffer_Some in Hl as [Hle Hlm]. apply getBuffer_Some in Hr as [Hre Hrm].
  unfold op, res. rewrite BinaryOpLowering_nest. fold alloc.
  set (b := next_buf st) in *.
  set (buf0 := mkBuffer shape (garbage b)).
  set (st1 := mkMachine (<[next := RMemRef b]> (env st)) (<[b := buf0]> (mem st))
                        (S b) (printed st)).
  set (target := fun c => scalarOp k (buf_cells bufl c) (buf_cells bufr c)).
  destruct (nestCode_fills (binaryBody k alloc lhs' rhs') shape b target
              (env st1) (mem st1) (indexValues (S next) (length shape))
              (S next + length shape)%nat
              (fun id => (id < S next + length shape \/
                          S next + length shape + 3 <= id)%nat)) with
      (ubs := shape) (ivs := @nil Value) (next := S next) (cp := @nil Z)
      (s := st1) (buf := buf0)
    as (st' & E & Hm' & Hn' & Hp' & He'); try reflexivity.
  - intros c s buf Hc He Hm Hshape Hframe.
    destruct (inside_nest st next b buf0 shape c s lhs' bl bufl)
      as (Hgl & Hea & Hidx & _ & Hold); try assumption.
    destruct (inside_nest st next b buf0 shape c s rhs' br bufr)
      as (Hgr & _); try assumption.
    apply elem_of_coords in Hc.
    eapply exec_binaryBody; try eassumption; try (simpl; lia).
    + now rewrite Hsl.
    + now rewrite Hsr.
    + apply getBuffer_intro; eassumption.
    + now rewrite Hshape.
  - auto.
  - apply lookup_insert_eq.
  - exists (mkRewriter
              (MemRefAlloc alloc :: [] ++
               nestCode shape [] (S next) (binaryBody k alloc lhs' rhs'))
              (post ++ [MemRefDealloc alloc; back])
              (S next + length shape + 3) (<[rid := alloc]> mapping)).
    exists st', b, (storeAll buf0 (map (fun c => (c, target c)) (coords shape))).
    split; [reflexivity|]. cbn [rw_mapping rw_before app].
    split; [apply lookup_insert_eq|]. split; [reflexivity|].
    split.
    { rewrite exec_block_cons. cbn [exec_op alloc vtype vid]. exact E. }
    split.
    { apply getBuffer_intro.
      - unfold alloc; cbn [vid]. rewrite He' by lia. apply lookup_insert_eq.
      - rewrite Hm'. apply lookup_insert_eq. }
    split; [apply storeAll_shape|].
    intros c Hc. apply (storeAll_target target). now apply elem_of_coords.
Qed.

(** X2.  Transposition at any rank.  For a result of shape [shape] and an input
    whose shape is [shape] reversed, [TransposeOpLowering] emits the allocation
    and a loop nest with one loop per dimension whose innermost body loads the
    input at the induction variables in reverse order and stores the value at
    the induction variables.  Run on a machine that holds the input buffer, the
    code leaves [input[rev c]] in every cell [c] of the new buffer. *)
Theorem TransposeOpLowering_any_rank
    shape rid input input' post back next mapping st bi bufi :
  let res := mkValue rid (TensorType shape) in
  let op := PonyTranspose res input in
  let alloc := mkValue next (MemRefType shape) in
  (vid input' < next)%nat ->
  getBuffer st input' = Some (bi, bufi) -> buf_shape bufi = rev shape ->
  mem st !! next_buf st = None ->
  exists rw' st' b buf,
    TransposeOpLowering op [input'] (mkRewriter [] (op :: post ++ [back]) next mapping)
      = Ok (success, rw') /\
    rw_mapping rw' !! rid = Some alloc /\
    rw_before rw' =
      MemRefAlloc alloc :: nestCode shape [] (S next) (transposeBody alloc input') /\
    exec_block (rw_before rw') st = Some st' /\
    getBuffer st' alloc = Some (b, buf) /\
    buf_shape buf = shape /\
    forall c, inBounds shape c = true -> buf_cells buf c = buf_cells bufi (rev c).
Proof.
  intros res op alloc Hif Hi Hsi Hfree.
  apply getBuffer_Some in Hi as [Hie Him].
  unfold op, res. rewrite TransposeOpLowering_nest. fold alloc.
  set (b := next_buf st) in *.
  set (buf0 := mkBuffer shape (garbage b)).
  set (st1 := mkMachine (<[next := RMemRef b]> (env st)) (<[b := buf0]> (mem st))
                        (S b) (printed st)).
  set (target := fun c => buf_cells bufi (rev c)).
  destruct (nestCode_fills (transposeBody alloc input') shape b target
              (env st1) (mem st1) (indexValues (S next) (length shape))
              (S next + length shape)%nat
              (fun id => (id < S next + length shape \/
                          S next + length shape + 1 <= id)%nat)) with
      (ubs := shape) (ivs := @nil Value) (next := S next) (cp := @nil Z)
      (s := st1) (buf := buf0)
    as (st' & E & Hm' & Hn' & Hp' & He'); try reflexivity.
  - intros c s buf Hc He Hm Hshape Hframe.
    destruct (inside_nest st next b buf0 shape c s input' bi bufi)
      as (Hgi & Hea & Hidx & Hrev & Hold); try assumption.
    apply elem_of_coords in Hc.
    eapply exec_transposeBody; try eassumption; try (simpl; lia).
    + rewrite Hsi. now apply inBounds_rev.
    + apply getBuffer_intro; eassumption.
    + now rewrite Hshape.
  - auto.
  - apply lookup_insert_eq.
  - exists (mkRewriter
              (MemRefAlloc alloc :: [] ++
               nestCode shape [] (S next) (transposeBody alloc input'))
              (post ++ [MemRefDealloc alloc; back])
              (S next + length shape + 1) (<[rid := alloc]> mapping)).
    exists st', b, (storeAll buf0 (map (fun c => (c, target c)) (coords shape))).
    split; [reflexivity|]. cbn [rw_mapping rw_before app].
    split; [apply lookup_insert_eq|]. split; [reflexivity|].
    split.
    { rewrite exec_block_cons. cbn [exec_op alloc vtype vid]. exact E. }
    split.
    { apply getBuffer_intro.
      - unfold alloc; cbn [vid]. rewrite He' by lia. apply lookup_insert_eq.
      - rewrite Hm'. apply lookup_insert_eq. }
    split; [apply storeAll_shape|].
    intros c Hc. apply (storeAll_target target). now apply elem_of_coords.
Qed.

(** The loop nest of a [TransposeOpLowering], run on any machine that holds
    the input buffer and the buffer to fill. *)
Lemma exec_transposeNest alloc input' shape next s b buf bi bufi :
  (vid input' < next)%nat -> (vid alloc < next)%nat ->
  getBuffer s alloc = Some (b, buf) -> buf_shape buf = shape ->
  getBuffer s input' = Some (bi, bufi) -> buf_shape bufi = rev shape ->
  bi <> b ->
  exists s',
    exec_block (nestCode shape [] next (transposeBody alloc input')) s = Some s' /\
    mem s' = <[b := storeAll buf (map (fun c => (c, buf_cells bufi (rev c)))
                                      (coords shape))]> (mem s) /\
    next_buf s' = next_buf s /\ printed s' = printed s /\
    forall id, (id < next \/ next + length shape + 1 <= id)%nat ->
      env s' !! id = env s !! id.
Proof.
  intros Hi Ha Hb Hsb Hbi Hsi Hne.
  apply getBuffer_Some in Hb as [Hbe Hbm]. apply getBuffer_Some in Hbi as [Hie Him].
  destruct (nestCode_fills (transposeBody alloc input') shape b
              (fun c => buf_cells bufi (rev c))
              (env s) (mem s) (indexValues next (length shape))
              (next + length shape)%nat
              (fun id => (id < next + length shape \/
                          next + length shape + 1 <= id)%nat)) with
      (ubs := shape) (ivs := @nil Value) (next := next) (cp := @nil Z)
      (s := s) (buf := buf)
    as (s' & E & Hm' & Hn' & Hp' & He'); try reflexivity; try assumption.
  - intros c s0 buf' Hc He0 Hm0 Hshape Hframe.
    assert (Hall : Forall2 (fun v i => env s0 !! vid v = Some (RIndex i))
                     (indexValues next (length shape)) c).
    { rewrite He0. apply bindIvs_lookup; [apply NoDup_indexValues|].
      rewrite length_indexValues. symmetry. now apply length_coord. }
    apply elem_of_coords in Hc.
    eapply exec_transposeBody.
    + lia.
    + lia.
    + apply Forall_forall. intros x Hx. apply elem_of_indexValues in Hx. lia.
    + now apply getIndices_Forall2.
    + now apply getIndices_Forall2, Forall2_rev.
    + apply getBuffer_intro.
      * rewrite He0, bindIvs_other by (apply indexValues_fresh; lia). exact Hie.
      * rewrite Hframe by assumption. exact Him.
    + rewrite Hsi. now apply inBounds_rev.
    + apply getBuffer_intro.
      * rewrite He0, bindIvs_other by (apply indexValues_fresh; lia). exact Hbe.
      * exact Hm0.
    + now rewrite Hshape.
  - auto.
  - exists s'. split; [exact E|]. split; [exact Hm'|]. split; [exact Hn'|].
    split; [exact Hp'|]. intros id Hid. apply He'. lia.
Qed.

(** X3.  Transposing twice gives back the input.  Two transpositions that follow
    each other in a block are rewritten one after the other, the second on the
    buffer the first one filled.  The allocation of the second buffer lands in
    front of the allocation of the first.  Run on a machine that holds the input
    buffer, the code the two rewrites leave fills the second buffer with the
    cells of the input, each at its own place. *)
Theorem TransposeOpLowering_round_trip
    shape rid1 rid2 input input' post back next mapping st bi bufi :
  let mid := mkValue rid1 (TensorType (rev shape)) in
  let op1 := PonyTranspose mid input in
  let op2 := PonyTranspose (mkValue rid2 (TensorType shape)) mid in
  let alloc1 := mkValue next (MemRefType (rev shape)) in
  let alloc2 := mkValue (S next + length shape + 1) (MemRefType shape) in
  (vid input' < next)%nat ->
  getBuffer st input' = Some (bi, bufi) -> buf_shape bufi = shape ->
  (forall b, (next_buf st <= b)%nat -> mem st !! b = None) ->
  exists rw1 rw2 st' b buf,
    TransposeOpLowering op1 [input']
      (mkRewriter [] (op1 :: op2 :: post ++ [back]) next mapping) = Ok (success, rw1) /\
    rw_mapping rw1 !! rid1 = Some alloc1 /\
    TransposeOpLowering op2 [alloc1] rw1 = Ok (success, rw2) /\
    rw_mapping rw2 !! rid2 = Some alloc2 /\
    rw_before rw2 =
      MemRefAlloc alloc2 :: MemRefAlloc alloc1 ::
      nestCode (rev shape) [] (S next) (transposeBody alloc1 input') ++
      nestCode shape [] (S (S next + length shape + 1)) (transposeBody alloc2 alloc1) /\
    exec_block (rw_before rw2) st = Some st' /\
    getBuffer st' alloc2 = Some (b, buf) /\
    buf_shape buf = shape /\
    forall c, inBounds shape c = true -> buf_cells buf c = buf_cells bufi c.
Proof.
  intros mid op1 op2 alloc1 alloc2 Hif Hi Hsi Hfree.
  apply getBuffer_Some in Hi as [Hie Him].
  set (n2 := (S next + length shape + 1)%nat) in *.
  set (nest1 := nestCode (rev shape) [] (S next) (transposeBody alloc1 input')).
  set (nest2 := nestCode shape [] (S n2) (transposeBody alloc2 alloc1)).
  set (rw1 := mkRewriter (MemRefAlloc alloc1 :: nest1)
                         (op2 :: post ++ [MemRefDealloc alloc1; back])
                         n2 (<[rid1 := alloc1]> mapping)).
  set (rw2 := mkRewriter (MemRefAlloc alloc2 :: MemRefAlloc alloc1 :: nest1 ++ nest2)
                         (post ++ [MemRefDealloc alloc1; MemRefDealloc alloc2; back])
                         (S n2 + length shape + 1) (<[rid2 := alloc2]> (<[rid1 := alloc1]> mapping))).
  assert (H1 : TransposeOpLowering op1 [input']
                 (mkRewriter [] (op1 :: op2 :: post ++ [back]) next mapping)
               = Ok (success, rw1)).
  { unfold op1, mid.
    change (PonyTranspose (mkValue rid1 (TensorType (rev shape))) input
              :: op2 :: post ++ [back])
      with (PonyTranspose (mkValue rid1 (TensorType (rev shape))) input
              :: (op2 :: post) ++ [back]).
    rewrite TransposeOpLowering_nest. rewrite length_rev. reflexivity. }
  assert (H2 : TransposeOpLowering op2 [alloc1] rw1 = Ok (success, rw2)).
  { unfold rw1, op2.
    replace (post ++ [MemRefDealloc alloc1; back])
      with ((post ++ [MemRefDealloc alloc1]) ++ [back])
      by (now rewrite <- app_assoc).
    rewrite TransposeOpLowering_nest. unfold rw2. fold alloc2 nest2.
    rewrite <- app_assoc. reflexivity. }
  (* the machine behind the two allocations *)
  set (b2 := next_buf st) in *.
  set (buf2 := mkBuffer shape (garbage b2)).
  set (buf1 := mkBuffer (rev shape) (garbage (S b2))).
  set (st2 := mkMachine (<[next := RMemRef (S b2)]> (<[n2 := RMemRef b2]> (env st)))
                        (<[S b2 := buf1]> (<[b2 := buf2]> (mem st)))
                        (S (S b2)) (printed st)).
  assert (Hbi : (bi < b2)%nat).
  { destruct (Nat.lt_ge_cases bi b2) as [?|Hge]; [assumption|].
    rewrite (Hfree bi Hge) in Him. discriminate. }
  destruct (exec_transposeNest alloc1 input' (rev shape) (S next) st2 (S b2) buf1 bi bufi)
    as (st3 & E3 & Hm3 & Hn3 & Hp3 & He3).
  { lia. }
  { simpl. lia. }
  { apply getBuffer_intro; [apply lookup_insert_eq|apply lookup_insert_eq]. }
  { reflexivity. }
  { apply getBuffer_intro; cbn [st2 env mem].
    - rewrite !lookup_insert_ne by lia. exact Hie.
    - rewrite !lookup_insert_ne by lia. exact Him. }
  { now rewrite rev_involutive. }
  { lia. }
  set (buf1' := storeAll buf1 (map (fun c => (c, buf_cells bufi (rev c)))
                                   (coords (rev shape)))) in *.
  rewrite length_rev in He3.
  destruct (exec_transposeNest alloc2 alloc1 shape (S n2) st3 b2 buf2 (S b2) buf1')
    as (st4 & E4 & Hm4 & Hn4 & Hp4 & He4).
  { simpl. lia. }
  { simpl. lia. }
  { apply getBuffer_intro.
    - rewrite He3 by (simpl; lia). cbn [st2 env alloc2 vid].
      rewrite lookup_insert_ne by lia. apply lookup_insert_eq.
    - rewrite Hm3. cbn [st2 mem]. rewrite lookup_insert_ne by lia.
      rewrite lookup_insert_ne by lia. apply lookup_insert_eq. }
  { reflexivity. }
  { apply getBuffer_intro.
    - rewrite He3 by (simpl; lia). cbn [st2 env alloc1 vid]. apply lookup_insert_eq.
    - rewrite Hm3. apply lookup_insert_eq. }
  { unfold buf1'. now rewrite storeAll_shape. }
  { lia. }
  exists rw1, rw2, st4, b2,
    (storeAll buf2 (map (fun c => (c, buf_cells buf1' (rev c))) (coords shape))).
  split; [exact H1|]. split; [apply lookup_insert_eq|]. split; [exact H2|].
  split; [apply lookup_insert_eq|]. split; [reflexivity|].
  split.
  { cbn [rw2 rw_before]. rewrite exec_block_cons.
    cbn [exec_op alloc2 vtype vid]. fold b2 buf2.
    rewrite exec_block_cons. cbn [exec_op alloc1 vtype vid next_buf env mem printed].
    fold buf1. fold st2. rewrite exec_block_app. unfold nest1. rewrite E3. exact E4. }
  split.
  { apply getBuffer_intro.
    - rewrite He4 by (simpl; lia). rewrite He3 by (simpl; lia).
      cbn [st2 env alloc2 vid]. rewrite lookup_insert_ne by lia. apply lookup_insert_eq.
    - rewrite Hm4. apply lookup_insert_eq. }
  split; [apply storeAll_shape|].
  intros c Hc.
  rewrite (storeAll_target (fun c => buf_cells buf1' (rev c))) by now apply elem_of_coords.
  unfold buf1'.
  rewrite (storeAll_target (fun c => buf_cells bufi (rev c))).
  - now rewrite rev_involutive.
  - apply elem_of_coords. now apply inBounds_rev.
Qed.


(** ** Matrix multiplication on an uninitialized buffer *)

(** X4.  [GemmOpLowering] never writes the result buffer before it reads it: the
    emitted loops add the products onto whatever the allocation left in each
    cell.  Run on a machine that holds the two operand buffers, the code leaves
    in cell [[i; j]] the content of the fresh cell followed by the products
    [lhs[i][k] * rhs[j][k]], added in the order of [k]; when the inner dimension
    is empty the fresh cells are left as they were. *)
Theorem GemmOpLowering_uninitialized
    M_ N_ K_ rid lhs rhs lhs' rhs' post back next mapping st bl bufl br bufr :
  let res := mkValue rid (TensorType [M_; N_]) in
  let op := PonyGemm res lhs rhs in
  vtype lhs' = MemRefType [M_; K_] ->
  (vid lhs' < next)%nat -> (vid rhs' < next)%nat ->
  getBuffer st lhs' = Some (bl, bufl) -> buf_shape bufl = [M_; K_] ->
  getBuffer st rhs' = Some (br, bufr) -> buf_shape bufr = [N_; K_] ->
  mem st !! next_buf st = None ->
  exists alloc rw' st' b buf,
    GemmOpLowering op [lhs'; rhs'] (mkRewriter [] (op :: post ++ [back]) next mapping)
      = Ok (success, rw') /\
    rw_mapping rw' !! rid = Some alloc /\
    exec_block (rw_before rw') st = Some st' /\
    getBuffer st' alloc = Some (b, buf) /\
    (forall i j, 0 <= i < M_ -> 0 <= j < N_ ->
       buf_cells buf [i; j] =
       accumulate K_ (garbage (next_buf st) [i; j])
         (fun k => mulf (buf_cells bufl [i; k]) (buf_cells bufr [j; k]))) /\
    (K_ <= 0 -> forall i j, 0 <= i < M_ -> 0 <= j < N_ ->
       buf_cells buf [i; j] = garbage (next_buf st) [i; j]).
Proof.
  intros res op Hty Hlf Hrf Hl Hsl Hr Hsr Hfree.
  destruct (GemmOpLowering_accumulates M_ N_ K_ rid lhs rhs lhs' rhs' post back
              next mapping st bl bufl br bufr Hty Hlf Hrf Hl Hsl Hr Hsr Hfree)
    as (alloc & i & j & k & l & r & mul & cur & upd & rw' & st' & b & buf &
        Hrun & Hmap & Hat & Hcode & Hexec & Hget & Hshape & Hcells).
  exists alloc, rw', st', b, buf. repeat (split; [assumption|]).
  intros HK i' j' Hi' Hj'. rewrite Hcells by assumption. now apply accumulate_nonpos.
Qed.

(** ** Buffers of several rewrites *)


(** X5.  Two rewrites in one block, one after the other: the first allocates a
    buffer, creates [code1] and erases its operation, the second does the same
    on the next operation.  The allocation of the second buffer lands in front
    of the allocation of the first, and its deallocation behind the deallocation
    of the first, right in front of the last operation of the block: the
    lifetime of the first buffer is nested in that of the second. *)
Theorem insertAllocAndDealloc_nested
    type1 type2 code1 code2 pre op1 op2 post back next mapping :
  let alloc1 := mkValue next type1 in
  let alloc2 := mkValue (S next) type2 in
  (let* a1 := insertAllocAndDealloc type1 in
   run createAll code1 in
   run eraseOp in
   let* a2 := insertAllocAndDealloc type2 in
   run createAll code2 in
   run eraseOp in
   ret (a1, a2))
    (mkRewriter pre (op1 :: op2 :: post ++ [back]) next mapping)
  = Ok ((alloc1, alloc2),
        mkRewriter (MemRefAlloc alloc2 :: MemRefAlloc alloc1 :: pre ++ code1 ++ code2)
                   (post ++ [MemRefDealloc alloc1; MemRefDealloc alloc2; back])
                   (S (S next)) mapping).
Proof.
  intros alloc1 alloc2.
  change (op1 :: op2 :: post ++ [back]) with (op1 :: (op2 :: post) ++ [back]).
  unfold bind at 1. rewrite (insertAllocAndDealloc_run type1 pre op1 (op2 :: post)).
  unfold bind at 1. rewrite createAll_run. cbn [rw_before rw_after rw_next rw_mapping].
  unfold bind at 1. unfold eraseOp at 1. cbn [rw_before rw_after rw_next rw_mapping app].
  unfold bind at 1.
  replace (op2 :: post ++ [MemRefDealloc (mkValue next type1); back])
    with (op2 :: (post ++ [MemRefDealloc (mkValue next type1)]) ++ [back])
    by (now rewrite <- app_assoc).
  rewrite insertAllocAndDealloc_run.
  unfold bind at 1. rewrite createAll_run. cbn [rw_before rw_after rw_next rw_mapping].
  unfold bind, eraseOp, ret. cbn [rw_before rw_after rw_next rw_mapping app].
  rewrite <- !app_assoc. reflexivity.
Qed.

(** ** Literals: edge cases *)

Lemma coords_empty shape :
  staticShape shape -> 0 ∈ shape -> coords shape = [] /\ product shape = 0.
Proof.
  intros Hs H0.
  assert (Hp : product shape = 0).
  { clear Hs. induction shape as [|d shape IH]; [now apply elem_of_nil in H0|].
    cbn [product fold_right]. fold (product shape).
    apply elem_of_cons in H0 as [<-|H0]; [reflexivity|]. rewrite IH by assumption. lia. }
  split; [|assumption].
  apply nil_length_inv. rewrite length_coords by (now apply staticShape_nonneg).
  now rewrite Hp.
Qed.

(** X6.  A literal with a dimension of size zero.  However many elements the
    literal holds, none included, [ConstantOpLowering] succeeds: it emits the
    allocation and the constant indices, takes no element and emits no store. *)
Theorem ConstantOpLowering_empty_dimension
    shape rid values post back next mapping :
  let res := mkValue rid (TensorType shape) in
  let op := PonyConstant res values in
  let alloc := mkValue next (MemRefType shape) in
  staticShape shape -> 0 ∈ shape ->
  ConstantOpLowering op (mkRewriter [] (op :: post ++ [back]) next mapping)
  = Ok (success,
        mkRewriter (MemRefAlloc alloc :: indexCode (S next) (indexCount shape) 0)
                   (post ++ [MemRefDealloc alloc; back])
                   (S next + indexCount shape) (<[rid := alloc]> mapping)).
Proof.
  intros res op alloc Hs H0. destruct (coords_empty shape Hs H0) as [Hc Hp].
  unfold op, res. rewrite ConstantOpLowering_run by (assumption || (rewrite Hp; simpl; lia)).
  rewrite Hc, Hp. cbn [map zip zip_with storeCode app]. rewrite app_nil_r.
  now replace (S next + indexCount shape + Z.to_nat 0)%nat
    with (S next + indexCount shape)%nat by (simpl; lia).
Qed.

Lemma filter_indexCode (P : Operation -> bool) base cnt i :
  (forall r x, P (ArithConstantIndex r x) = true) ->
  List.filter P (indexCode base cnt i) = indexCode base cnt i.
Proof.
  intros HP. unfold indexCode. induction (seq 0 cnt) as [|k l IH]; [reflexivity|].
  cbn [map List.filter]. now rewrite HP, IH.
Qed.

Lemma filter_indexCode_nil (P : Operation -> bool) base cnt i :
  (forall r x, P (ArithConstantIndex r x) = false) ->
  List.filter P (indexCode base cnt i) = [].
Proof.
  intros HP. unfold indexCode. induction (seq 0 cnt) as [|k l IH]; [reflexivity|].
  cbn [map List.filter]. now rewrite HP, IH.
Qed.

Lemma length_indexCode base cnt i : length (indexCode base cnt i) = cnt.
Proof. unfold indexCode. now rewrite length_map, length_seq. Qed.

Lemma storeCode_counts alloc cvs :
  forall next,
    length (List.filter isStore (storeCode alloc next cvs)) = length cvs /\
    List.filter isFor (storeCode alloc next cvs) = [] /\
    List.filter isIndexConstant (storeCode alloc next cvs) = [].
Proof.
  induction cvs as [|[indices v] cvs IH]; intros next; [repeat split|].
  destruct (IH (S next)) as (H1 & H2 & H3).
  cbn [storeCode List.filter isStore isFor isIndexConstant length].
  now rewrite H1, H2, H3.
Qed.

(** X7.  A literal is lowered without loops.  The code [ConstantOpLowering]
    emits holds one store per cell of the shape, as many constant indices as the
    largest dimension is long (one for a shape of rank 0), and no loop. *)
Theorem ConstantOpLowering_unrolled shape rid values post back next mapping :
  let res := mkValue rid (TensorType shape) in
  let op := PonyConstant res values in
  staticShape shape ->
  (Z.to_nat (product shape) <= length values)%nat ->
  exists rw',
    ConstantOpLowering op (mkRewriter [] (op :: post ++ [back]) next mapping)
      = Ok (success, rw') /\
    length (List.filter isStore (rw_before rw')) = Z.to_nat (product shape) /\
    length (List.filter isIndexConstant (rw_before rw')) = indexCount shape /\
    List.filter isFor (rw_before rw') = [].
Proof.
  intros res op Hs Hlen. unfold op, res.
  rewrite ConstantOpLowering_run by assumption.
  eexists. split; [reflexivity|]. cbn [rw_before app].
  set (cvs := zip (map (coordValues (S next)) (coords shape)) values).
  destruct (storeCode_counts (mkValue next (MemRefType shape)) cvs
              (S next + indexCount shape)) as (H1 & H2 & H3).
  assert (Hcvs : length cvs = Z.to_nat (product shape)).
  { unfold cvs. rewrite length_zip_with, length_map.
    rewrite length_coords by (now apply staticShape_nonneg). lia. }
  cbn [List.filter isStore isIndexConstant isFor].
  rewrite !List.filter_app.
  rewrite (filter_indexCode_nil isStore) by reflexivity.
  rewrite (filter_indexCode isIndexConstant) by reflexivity.
  rewrite (filter_indexCode_nil isFor) by reflexivity.
  rewrite H2, H3, app_nil_r. cbn [app]. rewrite H1, length_indexCode.
  repeat split. assumption.
Qed.



(** ** Rules on operations whose types are not resolved *)

Lemma insertAllocAndDealloc_not_exhausted type rw :
  insertAllocAndDealloc type rw <> Exhausted.
Proof.
  unfold insertAllocAndDealloc, bind, freshValue, create, moveBeforeFront,
    moveBeforeBack, ret. cbn -[splitLast].
  repeat (match goal with
          | |- context [match splitLast ?l with _ => _ end] =>
              destruct (splitLast l) as [[? ?]|]
          | |- context [match rw_after ?r with _ => _ end] => destruct (rw_after r)
          end; cbn -[splitLast]); discriminate.
Qed.

(** X9.  The rules that allocate a buffer expect the shape of the result to be
    known.  On an operation whose result is an unranked tensor, none of them
    declines: each one runs into the assertion of [convertTensorToMemRef]. *)
Theorem unranked_result_asserts rid lhs rhs input values operands rw :
  let res := mkValue rid UnrankedTensorType in
  AddOpLowering (PonyAdd res lhs rhs) operands rw = Abort /\
  MulOpLowering (PonyMul res lhs rhs) operands rw = Abort /\
  TransposeOpLowering (PonyTranspose res input) operands rw = Abort /\
  GemmOpLowering (PonyGemm res lhs rhs) operands rw = Abort /\
  ConstantOpLowering (PonyConstant res values) rw = Abort.
Proof. intros res. repeat split; reflexivity. Qed.

(** X10.  [GemmOpLowering] reads the inner dimension off the type of its first
    operand.  When that operand has not been replaced by a buffer, or is a
    buffer of rank below two, the rule does not decline: it runs into an
    assertion. *)
Theorem GemmOpLowering_operand_asserts M_ N_ rid lhs rhs lhs' rhs' rw :
  let res := mkValue rid (TensorType [M_; N_]) in
  (forall d0 d1 ds, vtype lhs' <> MemRefType (d0 :: d1 :: ds)) ->
  GemmOpLowering (PonyGemm res lhs rhs) [lhs'; rhs'] rw = Abort.
Proof.
  intros res Hty. unfold GemmOpLowering.
  unfold bind at 1. unfold lift at 1. cbn [resultTensorType resultOf vtype res isTensorType].
  unfold bind at 1. unfold lift at 1. cbn [convertTensorToMemRef].
  unfold bind at 1.
  pose proof (insertAllocAndDealloc_not_exhausted (MemRefType [M_; N_]) rw) as Hne.
  destruct (insertAllocAndDealloc (MemRefType [M_; N_]) rw) as [[alloc rw1]| |];
    [|reflexivity|contradiction].
  unfold bind at 1. unfold lift at 1. cbn [getShape].
  cbv [bind lift]. cbn [lookup list_lookup].
  destruct (vtype lhs') as [s|  |[|d0 [|d1 ds]]| |] eqn:E; try reflexivity.
  exfalso. exact (Hty d0 d1 ds eq_refl).
Qed.


(** ** The pass on a module that is already lowered *)

Lemma convertOps_legal fuel :
  forall rw,
    allLegal (rw_after rw) = true -> (weights (rw_after rw) < fuel)%nat ->
    convertOps fuel rw =
    Ok (success, mkRewriter (rw_before rw ++ rw_after rw) [] (rw_next rw) (rw_mapping rw)).
Proof.
  induction fuel as [|fuel IH]; intros [before after next mapping] Hl Hw; [lia|].
  cbn [rw_before rw_after rw_next rw_mapping] in *.
  destruct after as [|op rest].
  - cbn. now rewrite app_nil_r.
  - cbn [convertOps rw_after].
    cbn [allLegal forallb] in Hl. apply andb_prop in Hl as [Hop Hrest].
    rewrite deepLegal_unfold in Hop. apply andb_prop in Hop as [Hleg Hbody].
    cbn [weights foldr] in Hw. fold (weights rest) in Hw.
    unfold bind at 1. unfold legalize. rewrite Hleg.
    unfold bind at 1. unfold advance at 1. cbn [rw_before rw_after rw_next rw_mapping].
    unfold convertRegionOfLast. cbn [rw_before rw_after rw_next rw_mapping].
    rewrite splitLast_snoc. pose proof (weight_pos op) as Hpos.
    destruct (regionOf op) as [body|] eqn:Hr.
    + pose proof (weight_region op body Hr) as Hwb.
      assert (Hlb : allLegal body = true).
      { destruct op; try discriminate; injection Hr as <-; exact Hbody. }
      assert (Hset : setBody op body = op).
      { destruct op; try discriminate; injection Hr as <-; reflexivity. }
      rewrite IH by (cbn [rw_after]; (assumption || lia)).
      cbn [rw_before rw_after rw_next rw_mapping app].
      rewrite app_nil_r, Hset.
      rewrite IH by (cbn [rw_after]; (assumption || lia)).
      cbn [rw_before rw_after rw_next rw_mapping]. now rewrite <- app_assoc.
    + rewrite IH by (cbn [rw_after]; (assumption || lia)).
      cbn [rw_before rw_after rw_next rw_mapping]. now rewrite <- app_assoc.
Qed.

(** X11.  The pass leaves a lowered module alone, and running it twice is
    running it once.  On a module whose operations are all legal for the target
    the pass reports success and returns the module as it is; so the module a
    successful run returns is returned unchanged by a second run. *)
Theorem runOnOperation_idempotent module r :
  runOnOperation module = Ok r -> passFailed r = false ->
  allLegal (passModule r) = true /\
  runOnOperation (passModule r) = Ok r /\
  (allLegal module = true -> passModule r = module).
Proof.
  assert (Hid : forall m, allLegal m = true ->
                          runOnOperation m = Ok (mkPassResult false m)).
  { intros m Hm. unfold runOnOperation, applyPartialConversion.
    rewrite convertOps_legal by (cbn [rw_after]; (assumption || lia)).
    cbn [rw_before rw_after app]. now rewrite app_nil_r. }
  intros Hrun Hok.
  assert (Hlegal : allLegal (passModule r) = true).
  { revert Hrun. unfold runOnOperation, applyPartialConversion.
    pose proof (convertOps_spec (S (weights module))
                  (mkRewriter [] module (firstFresh module) ∅)) as H.
    destruct (convertOps _ _) as [[[|] rw']| |]; cbn [rw_before rw_after] in *;
      try discriminate.
    - intros [= <-]. cbn [passModule]. destruct H as [Ha Hb].
      rewrite Ha, app_nil_r. now apply Hb.
    - intros [= <-]. discriminate. }
  split; [assumption|]. split.
  - rewrite Hid by assumption. destruct r as [f m]. cbn in *. now subst f.
  - intros Hm. rewrite Hid in Hrun by assumption. now injection Hrun as <-.
Qed.

End Lowering.

(** * The theorems at concrete inputs

    Elements are integers here, added and multiplied as such, and a fresh
    allocation holds zeros. *)

Lemma BinaryOpLowering_elementwise_witness :
  let t := TensorType [2; 2] in
  let lhs' := mkValue 3 (MemRefType [2; 2]) in
  let rhs' := mkValue 4 (MemRefType [2; 2]) in
  let bufl := mkBuffer [2; 2] (fun c => match c with [i; j] => 2 * i + j + 1 | _ => 0 end) in
  let bufr := mkBuffer [2; 2] (fun c => match c with [i; j] => 2 * i + j + 5 | _ => 0 end) in
  let st := mkMachine (<[3%nat := RMemRef 0]> (<[4%nat := RMemRef 1]> ∅))
                      (<[0%nat := bufl]> (<[1%nat := bufr]> ∅)) 2 [] in
  let mapping := <[0%nat := lhs']> (<[1%nat := rhs']> ∅) in
  let add := PonyAdd (mkValue 2 t) (mkValue 0 t) (mkValue 1 t) in
  let mul := PonyMul (mkValue 2 t) (mkValue 0 t) (mkValue 1 t) in
  (exists alloc rw' st' b buf,
     AddOpLowering add [lhs'; rhs'] (mkRewriter [] [add; PonyReturn []] 5 mapping)
       = Ok (success, rw') /\
     applyPatterns add (mkRewriter [] [add; PonyReturn []] 5 mapping) = Ok (success, rw') /\
     exec_block Z.add Z.mul (fun _ _ => 0) (rw_before rw') st = Some st' /\
     getBuffer st' alloc = Some (b, buf) /\
     [buf_cells buf [0; 0]; buf_cells buf [0; 1]; buf_cells buf [1; 0]; buf_cells buf [1; 1]]
       = [6; 8; 10; 12]) /\
  (exists alloc rw' st' b buf,
     MulOpLowering mul [lhs'; rhs'] (mkRewriter [] [mul; PonyReturn []] 5 mapping)
       = Ok (success, rw') /\
     applyPatterns mul (mkRewriter [] [mul; PonyReturn []] 5 mapping) = Ok (success, rw') /\
     exec_block Z.add Z.mul (fun _ _ => 0) (rw_before rw') st = Some st' /\
     getBuffer st' alloc = Some (b, buf) /\
     [buf_cells buf [0; 0]; buf_cells buf [0; 1]; buf_cells buf [1; 0]; buf_cells buf [1; 1]]
       = [5; 12; 21; 32]).
Proof.
  intros t lhs' rhs' bufl bufr st mapping add mul.
  destruct (BinaryOpLowering_elementwise Z.add Z.mul (fun _ _ => 0) 2 2 2%nat
              (mkValue 0 t) (mkValue 1 t) lhs' rhs' [] (PonyReturn []) 5%nat mapping
              st 0%nat bufl 1%nat bufr)
    as [(alloc & iv0 & iv1 & l & r & x & rw' & st' & b & buf &
         Hrun & Hpat & Hmap & Hty & Hcode & Hexec & Hget & Hshape & Hcells)
        (alloc2 & iv02 & iv12 & l2 & r2 & x2 & rw2 & st2 & b2 & buf2 &
         Hrun2 & Hpat2 & Hmap2 & Hty2 & Hcode2 & Hexec2 & Hget2 & Hshape2 & Hcells2)];
    [simpl; lia | simpl; lia | reflexivity | reflexivity | reflexivity
    | reflexivity | reflexivity |].
  split.
  - exists alloc, rw', st', b, buf. split; [exact Hrun|].
    split; [apply Hpat; reflexivity|]. split; [exact Hexec|]. split; [exact Hget|].
    rewrite !Hcells by lia. reflexivity.
  - exists alloc2, rw2, st2, b2, buf2. split; [exact Hrun2|].
    split; [apply Hpat2; reflexivity|]. split; [exact Hexec2|]. split; [exact Hget2|].
    rewrite !Hcells2 by lia. reflexivity.
Defined.

Lemma TransposeOpLowering_transposes_witness :
  let input' := mkValue 1 (MemRefType [2; 3]) in
  let bufi := mkBuffer [2; 3] (fun c => match c with [i; j] => 3 * i + j + 1 | _ => 0 end) in
  let st := mkMachine (<[1%nat := RMemRef 0]> ∅) (<[0%nat := bufi]> ∅) 1 [] in
  let op := PonyTranspose (mkValue 2 (TensorType [3; 2])) (mkValue 0 (TensorType [2; 3])) in
  exists alloc rw' st' b buf,
    TransposeOpLowering op [input'] (mkRewriter [] [op; PonyReturn []] 3 ∅)
      = Ok (success, rw') /\
    exec_block Z.add Z.mul (fun _ _ => 0) (rw_before rw') st = Some st' /\
    getBuffer st' alloc = Some (b, buf) /\
    [buf_cells buf [0; 0]; buf_cells buf [0; 1];
     buf_cells buf [1; 0]; buf_cells buf [1; 1];
     buf_cells buf [2; 0]; buf_cells buf [2; 1]] = [1; 4; 2; 5; 3; 6].
Proof.
  intros input' bufi st op.
  destruct (TransposeOpLowering_transposes Z.add Z.mul (fun _ _ => 0) 2 3 2%nat
              (mkValue 0 (TensorType [2; 3])) input' [] (PonyReturn []) 3%nat ∅
              st 0%nat bufi)
    as (alloc & iv0 & iv1 & l & rw' & st' & b & buf &
        Hrun & Hmap & Hty & Hcode & Hexec & Hget & Hshape & Hcells);
    [simpl; lia | reflexivity | reflexivity | reflexivity |].
  exists alloc, rw', st', b, buf. split; [exact Hrun|]. split; [exact Hexec|].
  split; [exact Hget|].
  rewrite !Hcells by lia. reflexivity.
Defined.

Lemma GemmOpLowering_matmul_witness :
  let t := TensorType [2; 2] in
  let lhs' := mkValue 3 (MemRefType [2; 2]) in
  let rhs' := mkValue 4 (MemRefType [2; 2]) in
  let bufl := mkBuffer [2; 2] (fun c => match c with [i; j] => 2 * i + j + 1 | _ => 0 end) in
  let bufr := mkBuffer [2; 2] (fun c => match c with [i; j] => 2 * i + j + 5 | _ => 0 end) in
  let st := mkMachine (<[3%nat := RMemRef 0]> (<[4%nat := RMemRef 1]> ∅))
                      (<[0%nat := bufl]> (<[1%nat := bufr]> ∅)) 2 [] in
  let op := PonyGemm (mkValue 2 t) (mkValue 0 t) (mkValue 1 t) in
  exists alloc rw' st' b buf,
    GemmOpLowering op [lhs'; rhs'] (mkRewriter [] [op; PonyReturn []] 5 ∅)
      = Ok (success, rw') /\
    exec_block Z.add Z.mul (fun _ _ => 0) (rw_before rw') st = Some st' /\
    getBuffer st' alloc = Some (b, buf) /\
    [buf_cells buf [0; 0]; buf_cells buf [0; 1]; buf_cells buf [1; 0]; buf_cells buf [1; 1]]
      = [17; 23; 39; 53].
Proof.
  intros t lhs' rhs' bufl bufr st op.
  destruct (GemmOpLowering_matmul Z.add Z.mul (fun _ _ => 0) 0 2 2 2 2%nat
              (mkValue 0 t) (mkValue 1 t) lhs' rhs' [] (PonyReturn []) 5%nat ∅
              st 0%nat bufl 1%nat bufr)
    as (alloc & i & j & k & l & r & mul & cur & upd & rw' & st' & b & buf &
        Hrun & Hmap & Hty & Hcode & Hexec & Hget & Hshape & Hcells);
    [reflexivity | reflexivity | simpl; lia | simpl; lia | reflexivity | reflexivity
    | reflexivity | reflexivity | reflexivity | reflexivity |].
  exists alloc, rw', st', b, buf. split; [exact Hrun|]. split; [exact Hexec|].
  split; [exact Hget|].
  rewrite !Hcells by lia. reflexivity.
Defined.

Lemma ConstantOpLowering_row_major_witness :
  let op := PonyConstant (mkValue 0 (TensorType [2; 3])) [1; 2; 3; 4; 5; 6] in
  exists alloc rw' st' b buf,
    ConstantOpLowering op (mkRewriter [] [op; PonyReturn []] 1 ∅) = Ok (success, rw') /\
    rw_mapping rw' !! 0%nat = Some alloc /\
    vtype alloc = MemRefType [2; 3] /\
    exec_block Z.add Z.mul (fun _ _ => 0) (rw_before rw') initial = Some st' /\
    getBuffer st' alloc = Some (b, buf) /\
    buf_shape buf = [2; 3] /\
    flatten buf = [1; 2; 3; 4; 5; 6].
Proof.
  apply (ConstantOpLowering_row_major Z.add Z.mul (fun _ _ => 0) [2; 3] 0%nat
           [1; 2; 3; 4; 5; 6] [] (PonyReturn []) 1%nat ∅ initial).
  - repeat constructor; lia.
  - reflexivity.
Defined.

Lemma ConstantOpLowering_no_payload_check_witness :
  let op := PonyConstant (mkValue 0 (TensorType [2])) [1; 2; 3] in
  (exists alloc rw' st' b buf,
     ConstantOpLowering op (mkRewriter [] [op; PonyReturn []] 1 ∅) = Ok (success, rw') /\
     rw_mapping rw' !! 0%nat = Some alloc /\
     vtype alloc = MemRefType [2] /\
     exec_block Z.add Z.mul (fun _ _ => 0) (rw_before rw') initial = Some st' /\
     getBuffer st' alloc = Some (b, buf) /\
     buf_shape buf = [2] /\
     flatten buf = [1; 2]) /\
  (forall rw r rw', ConstantOpLowering op rw = Ok (r, rw') -> r = success).
Proof.
  apply (ConstantOpLowering_no_payload_check Z.add Z.mul (fun _ _ => 0) [2] 0%nat
           [1; 2; 3] [] (PonyReturn []) 1%nat ∅ initial).
  - repeat constructor; lia.
  - simpl. lia.
Defined.

(** C1 as the specification states it fails on a literal of three elements
    declared with shape [[2]]: the rule succeeds and the buffer holds the
    first two elements. *)
Lemma ConstantOpLowering_mismatch_succeeds :
  let res := mkValue 0 (TensorType [2]) in
  let op := PonyConstant res [1; 2; 3] in
  length [1; 2; 3] <> Z.to_nat (product [2]) /\
  exists rw' st' b buf,
    ConstantOpLowering op (mkRewriter [] [op; PonyReturn []] 1 ∅) = Ok (success, rw') /\
    exec_block Z.add Z.mul (fun _ _ => 0) (rw_before rw') initial = Some st' /\
    getBuffer st' (mkValue 1 (MemRefType [2])) = Some (b, buf) /\
    flatten buf = [1; 2].
Proof.
  split; [simpl; lia|].
  do 4 eexists. split; [vm_compute; reflexivity|].
  split; [vm_compute; reflexivity|]. split; reflexivity.
Defined.

Lemma insertAllocAndDealloc_placement_witness :
  let t := TensorType [2] in
  let pre := [@PonyConstant Z (mkValue 0 t) [1; 2]] in
  let cur := @PonyTranspose Z (mkValue 1 t) (mkValue 0 t) in
  let post := [@PonyPrint Z [mkValue 1 t]] in
  let back := @PonyReturn Z [] in
  let code := [@ArithConstantIndex Z (mkValue 3 IndexType) 0] in
  exists alloc rw1 rw2,
    insertAllocAndDealloc (MemRefType [2]) (mkRewriter pre (cur :: post ++ [back]) 2 ∅)
      = Ok (alloc, rw1) /\
    alloc = mkValue 2 (MemRefType [2]) /\
    rw_before rw1 ++ rw_after rw1 =
      MemRefAlloc alloc :: pre ++ cur :: post ++ [MemRefDealloc alloc; back] /\
    length (List.filter (isAllocOf (vid alloc)) (rw_before rw1 ++ rw_after rw1)) = 1%nat /\
    length (List.filter (isDeallocOf (vid alloc)) (rw_before rw1 ++ rw_after rw1)) = 1%nat /\
    createAll code rw1 = Ok (tt, rw2) /\
    rw_before rw2 ++ rw_after rw2 =
      MemRefAlloc alloc :: (pre ++ code ++ cur :: post) ++ [MemRefDealloc alloc; back] /\
    mentions (vid alloc) back = false /\
    forall o, o ∈ pre ++ cur :: post ++ [back] -> mentions (vid alloc) o = false.
Proof.
  intros t pre cur post back code.
  apply (insertAllocAndDealloc_placement (MemRefType [2]) pre cur post back 2%nat ∅ code).
  intros o Ho v Hv. simpl in Ho.
  repeat (apply elem_of_cons in Ho as [->|Ho]);
    [..|now apply elem_of_nil in Ho]; simpl in Hv;
    repeat (apply elem_of_cons in Hv as [->|Hv]);
    try (now apply elem_of_nil in Hv); simpl; lia.
Defined.

Lemma runOnOperation_atomic_witness :
  let t := TensorType [2] in
  let module := [@PonyFunc Z "main" [] []
                   [PonyConstant (mkValue 0 t) [1; 2]; PonyReturn [mkValue 0 t]]] in
  let r := mkPassResult true module in
  runOnOperation module = Ok r /\
  ((passFailed r = true /\ passModule r = module) \/
   (passFailed r = false /\ allLegal (passModule r) = true)).
Proof.
  intros t module r.
  assert (H : runOnOperation module = Ok r) by (vm_compute; reflexivity).
  split; [exact H|]. exact (proj2 (runOnOperation_atomic module) r H).
Defined.

Lemma noninlined_call_rules_witness :
  let t := TensorType [2] in
  let bad := @PonyFunc Z "helper" [t] [t] [PonyReturn [mkValue 0 t]] in
  let module := [bad; PonyFunc "main" [] [] [PonyReturn []]] in
  let r := mkPassResult true module in
  bad ∈ module /\ doomed bad /\ runOnOperation module = Ok r /\
  passFailed r = true /\ passModule r = module.
Proof.
  intros t bad module r.
  assert (Hin : bad ∈ module) by left.
  assert (Hbad : doomed bad) by (now apply doomed_name).
  assert (H : runOnOperation module = Ok r) by (vm_compute; reflexivity).
  split; [exact Hin|]. split; [exact Hbad|]. split; [exact H|].
  exact (proj1 (proj2 (proj2 noninlined_call_rules)) module bad r Hin Hbad H).
Defined.

(** * Whole modules

    A module converted by the pass and its [main] run on the empty machine:
    what [pony.print] shows. *)

Example add_of_literals :
  let t := TensorType [2; 2] in
  exists body,
    runOnOperation
      [PonyFunc "main" [] []
         [PonyConstant (mkValue 0 t) [1; 2; 3; 4];
          PonyConstant (mkValue 1 t) [5; 6; 7; 8];
          PonyAdd (mkValue 2 t) (mkValue 0 t) (mkValue 1 t);
          PonyPrint [mkValue 2 t];
          PonyReturn []]]
      = Ok (mkPassResult false [FuncFunc "main" [] [] body]) /\
    option_map printed (exec_block Z.add Z.mul (fun _ _ => 0) body initial)
      = Some [([2; 2], [6; 8; 10; 12])].
Proof. eexists. split; vm_compute; reflexivity. Qed.

Example transpose_of_literal :
  let t := TensorType [2; 2] in
  exists body,
    runOnOperation
      [PonyFunc "main" [] []
         [PonyConstant (mkValue 0 t) [1; 2; 3; 4];
          PonyTranspose (mkValue 1 t) (mkValue 0 t);
          PonyPrint [mkValue 1 t];
          PonyReturn []]]
      = Ok (mkPassResult false [FuncFunc "main" [] [] body]) /\
    option_map printed (exec_block Z.add Z.mul (fun _ _ => 0) body initial)
      = Some [([2; 2], [1; 3; 2; 4])].
Proof. eexists. split; vm_compute; reflexivity. Qed.

Example gemm_of_literals :
  let t := TensorType [2; 2] in
  exists body,
    runOnOperation
      [PonyFunc "main" [] []
         [PonyConstant (mkValue 0 t) [1; 2; 3; 4];
          PonyConstant (mkValue 1 t) [5; 6; 7; 8];
          PonyGemm (mkValue 2 t) (mkValue 0 t) (mkValue 1 t);
          PonyPrint [mkValue 2 t];
          PonyReturn []]]
      = Ok (mkPassResult false [FuncFunc "main" [] [] body]) /\
    option_map printed (exec_block Z.add Z.mul (fun _ _ => 0) body initial)
      = Some [([2; 2], [17; 23; 39; 53])].
Proof. eexists. split; vm_compute; reflexivity. Qed.

(** The accumulator of the matrix product starts from what the fresh buffer
    holds: with sevens in it, every cell is off by seven. *)
Example gemm_on_garbage :
  let t := TensorType [2; 2] in
  exists body,
    runOnOperation
      [PonyFunc "main" [] []
         [PonyConstant (mkValue 0 t) [1; 2; 3; 4];
          PonyConstant (mkValue 1 t) [5; 6; 7; 8];
          PonyGemm (mkValue 2 t) (mkValue 0 t) (mkValue 1 t);
          PonyPrint [mkValue 2 t];
          PonyReturn []]]
      = Ok (mkPassResult false [FuncFunc "main" [] [] body]) /\
    option_map printed (exec_block Z.add Z.mul (fun _ _ => 7) body initial)
      = Some [([2; 2], [24; 30; 46; 60])].
Proof. eexists. split; vm_compute; reflexivity. Qed.

(** A literal with more elements than its shape has cells goes through the
    whole pass. *)
Example long_literal :
  let res := mkValue 0 (TensorType [2]) in
  exists body,
    runOnOperation
      [PonyFunc "main" [] []
         [PonyConstant res [1; 2; 3]; PonyPrint [res]; PonyReturn []]]
      = Ok (mkPassResult false [FuncFunc "main" [] [] body]) /\
    option_map printed (exec_block Z.add Z.mul (fun _ _ => 0) body initial)
      = Some [([2], [1; 2])].
Proof. eexists. split; vm_compute; reflexivity. Qed.

(** A literal with fewer elements than its shape has cells: the element
    iterator is read past its end. *)
Example short_literal :
  let op := PonyConstant (mkValue 0 (TensorType [2])) [1] in
  ConstantOpLowering op (mkRewriter [] [op; PonyReturn []] 1 ∅) = Abort.
Proof. reflexivity. Qed.

(** A [pony.print] whose operand is still a tensor when the driver gets to
    it fails the conversion. *)
Example print_of_unconverted_tensor :
  let t := TensorType [2] in
  let module := [@PonyFunc Z "main" [] [] [PonyPrint [mkValue 0 t]; PonyReturn []]] in
  runOnOperation module = Ok (mkPassResult true module).
Proof. reflexivity. Qed.

(** * Further properties at concrete inputs *)

Lemma BinaryOpLowering_any_rank_witness :
  let t := TensorType [2; 1; 2] in
  let lhs' := mkValue 3 (MemRefType [2; 1; 2]) in
  let rhs' := mkValue 4 (MemRefType [2; 1; 2]) in
  let bufl := mkBuffer [2; 1; 2]
                (fun c => match c with [i; _; k] => 2 * i + k + 1 | _ => 0 end) in
  let bufr := mkBuffer [2; 1; 2]
                (fun c => match c with [i; _; k] => 2 * i + k + 5 | _ => 0 end) in
  let st := mkMachine (<[3%nat := RMemRef 0]> (<[4%nat := RMemRef 1]> ∅))
                      (<[0%nat := bufl]> (<[1%nat := bufr]> ∅)) 2 [] in
  let op := PonyMul (mkValue 2 t) (mkValue 0 t) (mkValue 1 t) in
  exists rw' st' b buf,
    BinaryOpLowering MulFOp op [lhs'; rhs'] (mkRewriter [] [op; PonyReturn []] 5 ∅)
      = Ok (success, rw') /\
    exec_block Z.add Z.mul (fun _ _ => 0) (rw_before rw') st = Some st' /\
    getBuffer st' (mkValue 5 (MemRefType [2; 1; 2])) = Some (b, buf) /\
    [buf_cells buf [0; 0; 0]; buf_cells buf [0; 0; 1];
     buf_cells buf [1; 0; 0]; buf_cells buf [1; 0; 1]] = [5; 12; 21; 32].
Proof.
  intros t lhs' rhs' bufl bufr st op.
  destruct (BinaryOpLowering_any_rank Z.add Z.mul (fun _ _ => 0) MulFOp [2; 1; 2] 2%nat
              (mkValue 0 t) (mkValue 1 t) lhs' rhs' [] (PonyReturn []) 5%nat ∅
              st 0%nat bufl 1%nat bufr)
    as (rw' & st' & b & buf & Hrun & Hmap & Hcode & Hexec & Hget & Hshape & Hcells);
    [simpl; lia | simpl; lia | reflexivity | reflexivity | reflexivity
    | reflexivity | reflexivity |].
  exists rw', st', b, buf. split; [exact Hrun|]. split; [exact Hexec|].
  split; [exact Hget|].
  rewrite !Hcells by reflexivity. reflexivity.
Defined.

Lemma TransposeOpLowering_any_rank_witness :
  let input' := mkValue 1 (MemRefType [3; 1; 2]) in
  let bufi := mkBuffer [3; 1; 2]
                (fun c => match c with [i; _; k] => 2 * i + k + 1 | _ => 0 end) in
  let st := mkMachine (<[1%nat := RMemRef 0]> ∅) (<[0%nat := bufi]> ∅) 1 [] in
  let op := PonyTranspose (mkValue 2 (TensorType [2; 1; 3]))
                          (mkValue 0 (TensorType [3; 1; 2])) in
  exists rw' st' b buf,
    TransposeOpLowering op [input'] (mkRewriter [] [op; PonyReturn []] 3 ∅)
      = Ok (success, rw') /\
    exec_block Z.add Z.mul (fun _ _ => 0) (rw_before rw') st = Some st' /\
    getBuffer st' (mkValue 3 (MemRefType [2; 1; 3])) = Some (b, buf) /\
    [buf_cells buf [0; 0; 0]; buf_cells buf [0; 0; 1]; buf_cells buf [0; 0; 2];
     buf_cells buf [1; 0; 0]; buf_cells buf [1; 0; 1]; buf_cells buf [1; 0; 2]]
      = [1; 3; 5; 2; 4; 6].
Proof.
  intros input' bufi st op.
  destruct (TransposeOpLowering_any_rank Z.add Z.mul (fun _ _ => 0) [2; 1; 3] 2%nat
              (mkValue 0 (TensorType [3; 1; 2])) input' [] (PonyReturn []) 3%nat ∅
              st 0%nat bufi)
    as (rw' & st' & b & buf & Hrun & Hmap & Hcode & Hexec & Hget & Hshape & Hcells);
    [simpl; lia | reflexivity | reflexivity | reflexivity |].
  exists rw', st', b, buf. split; [exact Hrun|]. split; [exact Hexec|].
  split; [exact Hget|].
  rewrite !Hcells by reflexivity. reflexivity.
Defined.

Lemma TransposeOpLowering_round_trip_witness :
  let input' := mkValue 1 (MemRefType [2; 3]) in
  let bufi := mkBuffer [2; 3] (fun c => match c with [i; j] => 3 * i + j + 1 | _ => 0 end) in
  let st := mkMachine (<[1%nat := RMemRef 0]> ∅) (<[0%nat := bufi]> ∅) 1 [] in
  let mid := mkValue 2 (TensorType [3; 2]) in
  let op1 := PonyTranspose mid (mkValue 0 (TensorType [2; 3])) in
  let op2 := PonyTranspose (mkValue 3 (TensorType [2; 3])) mid in
  exists rw1 rw2 st' b buf,
    TransposeOpLowering op1 [input'] (mkRewriter [] [op1; op2; PonyReturn []] 4 ∅)
      = Ok (success, rw1) /\
    rw_mapping rw1 !! 2%nat = Some (mkValue 4 (MemRefType [3; 2])) /\
    TransposeOpLowering op2 [mkValue 4 (MemRefType [3; 2])] rw1 = Ok (success, rw2) /\
    exec_block Z.add Z.mul (fun _ _ => 0) (rw_before rw2) st = Some st' /\
    getBuffer st' (mkValue 8 (MemRefType [2; 3])) = Some (b, buf) /\
    [buf_cells buf [0; 0]; buf_cells buf [0; 1]; buf_cells buf [0; 2];
     buf_cells buf [1; 0]; buf_cells buf [1; 1]; buf_cells buf [1; 2]]
      = [1; 2; 3; 4; 5; 6].
Proof.
  intros input' bufi st mid op1 op2.
  destruct (TransposeOpLowering_round_trip Z.add Z.mul (fun _ _ => 0) [2; 3] 2%nat 3%nat
              (mkValue 0 (TensorType [2; 3])) input' [] (PonyReturn []) 4%nat ∅
              st 0%nat bufi)
    as (rw1 & rw2 & st' & b & buf &
        Hrun1 & Hmap1 & Hrun2 & Hmap2 & Hcode & Hexec & Hget & Hshape & Hcells).
  - simpl. lia.
  - reflexivity.
  - reflexivity.
  - intros b Hb. simpl in Hb. simpl. rewrite lookup_insert_ne by lia. apply lookup_empty.
  - exists rw1, rw2, st', b, buf. split; [exact Hrun1|]. split; [exact Hmap1|].
    split; [exact Hrun2|]. split; [exact Hexec|]. split; [exact Hget|].
    rewrite !Hcells by reflexivity. reflexivity.
Defined.

Lemma GemmOpLowering_uninitialized_witness :
  let t := TensorType [2; 2] in
  let lhs' := mkValue 3 (MemRefType [2; 2]) in
  let rhs' := mkValue 4 (MemRefType [2; 2]) in
  let bufl := mkBuffer [2; 2] (fun c => match c with [i; j] => 2 * i + j + 1 | _ => 0 end) in
  let bufr := mkBuffer [2; 2] (fun c => match c with [i; j] => 2 * i + j + 5 | _ => 0 end) in
  let st := mkMachine (<[3%nat := RMemRef 0]> (<[4%nat := RMemRef 1]> ∅))
                      (<[0%nat := bufl]> (<[1%nat := bufr]> ∅)) 2 [] in
  let op := PonyGemm (mkValue 2 t) (mkValue 0 t) (mkValue 1 t) in
  exists alloc rw' st' b buf,
    GemmOpLowering op [lhs'; rhs'] (mkRewriter [] [op; PonyReturn []] 5 ∅)
      = Ok (success, rw') /\
    exec_block Z.add Z.mul (fun _ _ => 7) (rw_before rw') st = Some st' /\
    getBuffer st' alloc = Some (b, buf) /\
    [buf_cells buf [0; 0]; buf_cells buf [0; 1]; buf_cells buf [1; 0]; buf_cells buf [1; 1]]
      = [24; 30; 46; 60].
Proof.
  intros t lhs' rhs' bufl bufr st op.
  destruct (GemmOpLowering_uninitialized Z.add Z.mul (fun _ _ => 7) 2 2 2 2%nat
              (mkValue 0 t) (mkValue 1 t) lhs' rhs' [] (PonyReturn []) 5%nat ∅
              st 0%nat bufl 1%nat bufr)
    as (alloc & rw' & st' & b & buf & Hrun & Hmap & Hexec & Hget & Hcells & Hempty);
    [reflexivity | simpl; lia | simpl; lia | reflexivity | reflexivity
    | reflexivity | reflexivity | reflexivity |].
  exists alloc, rw', st', b, buf. split; [exact Hrun|]. split; [exact Hexec|].
  split; [exact Hget|].
  rewrite !Hcells by lia. reflexivity.
Defined.

Lemma ConstantOpLowering_empty_dimension_witness :
  let op := @PonyConstant Z (mkValue 0 (TensorType [2; 0])) [] in
  let alloc := mkValue 1 (MemRefType [2; 0]) in
  ConstantOpLowering op (mkRewriter [] [op; PonyReturn []] 1 ∅)
  = Ok (success,
        mkRewriter [MemRefAlloc alloc;
                    ArithConstantIndex (mkValue 2 IndexType) 0;
                    ArithConstantIndex (mkValue 3 IndexType) 1]
                   [MemRefDealloc alloc; PonyReturn []]
                   4 (<[0%nat := alloc]> ∅)).
Proof.
  intros op alloc.
  apply (ConstantOpLowering_empty_dimension (elem := Z) [2; 0] 0%nat [] []
           (PonyReturn []) 1%nat ∅).
  - repeat constructor; lia.
  - repeat constructor.
Defined.

Lemma ConstantOpLowering_unrolled_witness :
  let op := PonyConstant (mkValue 0 (TensorType [2; 3])) [1; 2; 3; 4; 5; 6] in
  exists rw',
    ConstantOpLowering op (mkRewriter [] [op; PonyReturn []] 1 ∅) = Ok (success, rw') /\
    length (List.filter isStore (rw_before rw')) = 6%nat /\
    length (List.filter isIndexConstant (rw_before rw')) = 3%nat /\
    List.filter isFor (rw_before rw') = [].
Proof.
  apply (ConstantOpLowering_unrolled [2; 3] 0%nat [1; 2; 3; 4; 5; 6] []
           (PonyReturn []) 1%nat ∅).
  - repeat constructor; lia.
  - simpl. lia.
Defined.


Lemma GemmOpLowering_operand_asserts_witness :
  let t := TensorType [2; 2] in
  let op := @PonyGemm Z (mkValue 2 t) (mkValue 0 t) (mkValue 1 t) in
  GemmOpLowering op [mkValue 0 t; mkValue 4 (MemRefType [2; 2])]
    (mkRewriter [] [op; PonyReturn []] 5 ∅) = Abort.
Proof.
  intros t op.
  apply (GemmOpLowering_operand_asserts (elem := Z) 2 2 2%nat (mkValue 0 t) (mkValue 1 t)
           (mkValue 0 t) (mkValue 4 (MemRefType [2; 2]))).
  simpl. discriminate.
Defined.

Lemma runOnOperation_idempotent_witness :
  let t := TensorType [2] in
  let module := [@PonyFunc Z "main" [] []
                   [PonyConstant (mkValue 0 t) [1; 2];
                    PonyPrint [mkValue 0 t];
                    PonyReturn []]] in
  exists r,
    runOnOperation module = Ok r /\ passFailed r = false /\
    passModule r <> module /\
    allLegal (passModule r) = true /\
    runOnOperation (passModule r) = Ok r.
Proof.
  intros t module.
  destruct (runOnOperation module) as [r| |] eqn:E;
    [|vm_compute in E; discriminate..].
  assert (Hf : passFailed r = false)
    by (vm_compute in E; injection E as <-; reflexivity).
  assert (Hd : passModule r <> module)
    by (vm_compute in E; injection E as <-; discriminate).
  exists r. split; [reflexivity|]. split; [exact Hf|]. split; [exact Hd|].
  destruct (runOnOperation_idempotent module r E Hf) as (Hlegal & Hagain & _).
  split; assumption.
Defined.

(** * Properties of the lexer *)

Section LexingProperties.

Context {double : Type}.
Context (strtod : list Z -> double).

Implicit Types st : Lexer double.

(** ** Reading characters *)

Lemma readNextLine_spec current :
  forall line rest,
    readNextLine current = (line, rest) ->
    untilNul current = line ++ untilNul rest /\
    length current = (length line + length rest)%nat /\
    (line = [] -> untilNul current = []).
Proof.
  induction current as [|c current IH]; intros line rest H; cbn [readNextLine] in H.
  - injection H as <- <-. repeat split.
  - cbn [untilNul]. destruct (c =? 0) eqn:E0.
    + injection H as <- <-. cbn [untilNul]. rewrite E0. repeat split.
    + destruct (c =? 10) eqn:E10.
      * injection H as <- <-. cbn [app length]. repeat split. discriminate.
      * destruct (readNextLine current) as [line' rest'] eqn:E.
        injection H as <- <-. destruct (IH line' rest' eq_refl) as (H1 & H2 & _).
        cbn [app length]. rewrite H1, H2. repeat split. discriminate.
Qed.

Lemma agree_refl st : agree st st.
Proof. repeat split. Qed.

Lemma agree_trans (st1 st2 st3 : Lexer double) : agree st1 st2 -> agree st2 st3 -> agree st1 st3.
Proof.
  intros (A1 & A2 & A3 & A4 & A5 & A6 & A7 & A8) (B1 & B2 & B3 & B4 & B5 & B6 & B7 & B8).
  repeat split; congruence.
Qed.

(** What [lastChar = Token(getNextChar())] does: the first pending
    character, or [EOF] when there is none, moves into [lastChar]. *)
Lemma nextChar_spec st :
  agree st (nextChar st) /\
  lastChar (nextChar st) = hd EOF (pending st) /\
  pending (nextChar st) = tl (pending st) /\
  (work (nextChar st) <= work st)%nat /\
  (lastChar st <> EOF -> (work (nextChar st) < work st)%nat).
Proof.
  unfold nextChar, getNextChar, pending, work, agree.
  destruct (curLineBuffer st) as [|c buffer'] eqn:Eb.
  - destruct (readNextLine (current st)) as [nextLine current'] eqn:Er.
    destruct (readNextLine_spec _ _ _ Er) as (Hu & Hl & He).
    destruct nextLine as [|c buffer'];
      cbn [set_lastChar lastChar curLineBuffer current app hd tl length
           recordedTokens lexHadError curTok identifierStr numVal lastLocation outs errs].
    + split; [repeat split|]. rewrite (He eq_refl) in *. cbn [app] in Hu.
      rewrite <- Hu. split; [reflexivity|]. split; [reflexivity|].
      cbn [length] in Hl. change (EOF =? EOF) with true. split; [lia|].
      intros Hne. apply Z.eqb_neq in Hne. rewrite Hne. lia.
    + split; [repeat split|]. rewrite Hu. cbn [app hd tl length] in *.
      split; [reflexivity|]. split; [reflexivity|]. split.
      * destruct (c =? EOF), (lastChar st =? EOF); lia.
      * intros Hne. apply Z.eqb_neq in Hne. rewrite Hne. destruct (c =? EOF); lia.
  - cbn [set_lastChar lastChar curLineBuffer current app hd tl length
         recordedTokens lexHadError curTok identifierStr numVal lastLocation outs errs].
    split; [repeat split|]. split; [reflexivity|]. split; [reflexivity|]. split.
    + destruct (c =? EOF), (lastChar st =? EOF); lia.
    + intros Hne. apply Z.eqb_neq in Hne. rewrite Hne. destruct (c =? EOF); lia.
Qed.

Lemma nextChar_reads st c l : reads st (c :: l) -> reads (nextChar st) l.
Proof.
  intros [_ Hp]. destruct (nextChar_spec st) as (_ & Hl & Hp' & _).
  unfold reads. now rewrite Hl, Hp', Hp.
Qed.

Lemma reads_lastChar st l : reads st l -> lastChar st = hd EOF l.
Proof. now intros [H _]. Qed.


Lemma length_untilNul l : (length (untilNul l) <= length l)%nat.
Proof.
  induction l as [|c l IH]; [reflexivity|]. cbn [untilNul].
  destruct (c =? 0); cbn [length]; lia.
Qed.

(** The characters a lexer is about to read are fewer than its budget. *)
Lemma reads_budget st l : reads st l -> (length l < budget st)%nat.
Proof.
  intros [_ Hp]. unfold budget.
  assert (H : (length (pending st) <= length (curLineBuffer st) + length (current st))%nat).
  { unfold pending. rewrite length_app. pose proof (length_untilNul (current st)). lia. }
  rewrite Hp in H. destruct l; cbn [tl length] in *; lia.
Qed.

Lemma work_budget st : (work st < budget st)%nat.
Proof. unfold work, budget. destruct (Z.eqb _ _); lia. Qed.

Lemma reads_self st : reads st (lastChar st :: pending st).
Proof. split; reflexivity. Qed.

(** The longest prefix of a word whose characters are all in a class. *)
Lemma span (P : Z -> bool) l :
  P EOF = false ->
  exists w tail, l = w ++ tail /\ forallb P w = true /\ P (hd EOF tail) = false.
Proof.
  intros HP. induction l as [|c l (w & tail & -> & Hw & Ht)].
  - exists [], []. repeat split. exact HP.
  - destruct (P c) eqn:E.
    + exists (c :: w), tail. repeat split; [|assumption]. cbn. now rewrite E, Hw.
    + exists [], (c :: w ++ tail). repeat split. exact E.
Qed.

(** ** The loops of [getTok]

    Each loop reads the longest word of characters of its class; the state
    it stops in does not depend on the budget, as long as the budget is
    longer than the word. *)

Lemma skipSpaces_run w :
  forall st tail,
    reads st (w ++ tail) -> forallb isspace w = true -> isspace (hd EOF tail) = false ->
    exists st',
      (forall fuel, (length w < fuel)%nat -> skipSpaces fuel st = Some st') /\
      reads st' tail /\ agree st st' /\ (work st' + length w <= work st)%nat.
Proof.
  induction w as [|c w IH]; intros st tail Hr Hw Ht.
  - exists st. split.
    { intros [|fuel] Hf; [cbn [length] in Hf; lia|]. cbn [skipSpaces].
      cbn [app] in Hr. now rewrite (reads_lastChar _ _ Hr), Ht. }
    split; [assumption|]. split; [apply agree_refl|]. cbn; lia.
  - cbn [forallb] in Hw. apply andb_prop in Hw as [Hc Hw].
    pose proof (reads_lastChar _ _ Hr) as Hl. cbn [app hd] in Hl.
    destruct (nextChar_spec st) as (Ha & _ & _ & _ & Hdec).
    destruct (IH (nextChar st) tail) as (st' & E & Hr' & Ha' & Hw');
      [now apply (nextChar_reads st c)|assumption..|].
    exists st'. split.
    { intros [|fuel] Hf; [cbn [length] in Hf; lia|]. cbn [skipSpaces].
      rewrite Hl, Hc. apply E. cbn [length] in Hf. lia. }
    split; [assumption|]. split; [eapply agree_trans; eassumption|].
    assert (lastChar st <> EOF) by (rewrite Hl; intros ->; discriminate).
    specialize (Hdec ltac:(assumption)). cbn [length]. lia.
Qed.

Lemma skipIdentifier_run w :
  forall st tail,
    reads st (w ++ tail) -> forallb isIdentifierChar w = true ->
    isIdentifierChar (hd EOF tail) = false ->
    exists st',
      (forall fuel idStr, (length w < fuel)%nat ->
         skipIdentifier fuel idStr st = Some (idStr ++ w, st')) /\
      reads st' tail /\ agree st st' /\ (work st' + length w <= work st)%nat.
Proof.
  unfold isIdentifierChar, isalnum.
  induction w as [|c w IH]; intros st tail Hr Hw Ht.
  - exists st. split.
    { intros [|fuel] idStr Hf; [cbn [length] in Hf; lia|]. cbn [skipIdentifier].
      cbn [app] in Hr. now rewrite (reads_lastChar _ _ Hr), Ht, app_nil_r. }
    split; [assumption|]. split; [apply agree_refl|]. cbn; lia.
  - cbn [forallb] in Hw. apply andb_prop in Hw as [Hc Hw].
    pose proof (reads_lastChar _ _ Hr) as Hl. cbn [app hd] in Hl.
    destruct (nextChar_spec st) as (Ha & _ & _ & _ & Hdec).
    destruct (IH (nextChar st) tail) as (st' & E & Hr' & Ha' & Hw');
      [now apply (nextChar_reads st c)|assumption..|].
    exists st'. split.
    { intros [|fuel] idStr Hf; [cbn [length] in Hf; lia|]. cbn [skipIdentifier].
      rewrite Hl, Hc. rewrite E by (cbn [length] in Hf; lia).
      now rewrite <- app_assoc. }
    split; [assumption|]. split; [eapply agree_trans; eassumption|].
    assert (lastChar st <> EOF) by (rewrite Hl; intros ->; discriminate).
    specialize (Hdec ltac:(assumption)). cbn [length]. lia.
Qed.


Lemma readIdentifier_run w :
  forall prevDigit st tail,
    reads st (w ++ tail) -> forallb isIdentifierChar w = true ->
    isIdentifierChar (hd EOF tail) = false ->
    exists st',
      (forall fuel idStr, (length w < fuel)%nat ->
         readIdentifier fuel idStr prevDigit st =
           Some (if noDigitPair prevDigit w then inr (idStr ++ w, st') else inl st')) /\
      reads st' tail /\ (work st' + length w <= work st)%nat /\
      if noDigitPair prevDigit w then agree st st' else flagged st st'.
Proof.
  induction w as [|c w IH]; intros prevDigit st tail Hr Hw Ht.
  - exists st. split.
    { intros [|fuel] idStr Hf; [cbn [length] in Hf; lia|]. cbn [readIdentifier].
      cbn [app] in Hr. rewrite (reads_lastChar _ _ Hr).
      unfold isIdentifierChar in Ht. now rewrite Ht, app_nil_r. }
    cbn [noDigitPair]. split; [assumption|]. split; [cbn; lia|apply agree_refl].
  - pose proof Hw as Hall. cbn [forallb] in Hw. apply andb_prop in Hw as [Hc Hw].
    pose proof (reads_lastChar _ _ Hr) as Hl. cbn [app hd] in Hl.
    unfold isIdentifierChar in Hc. cbn [noDigitPair].
    assert (Hne : lastChar st <> EOF) by (rewrite Hl; intros ->; discriminate).
    destruct (isdigit c && prevDigit) eqn:Ed; cbn [negb andb].
    + destruct (skipIdentifier_run (c :: w) (set_lexHadError st true) tail)
        as (st1 & E & Hr1 & (A1 & A2 & A3 & A4 & A5 & A6 & A7 & A8) & Hw1);
        [exact Hr|assumption..|].
      eexists. split.
      { intros [|fuel] idStr Hf; [cbn [length] in Hf; lia|]. cbn [readIdentifier].
        rewrite Hl, Hc, Ed. rewrite E by assumption. reflexivity. }
      split; [exact Hr1|]. split; [exact Hw1|].
      unfold flagged. cbn [write_errs set_lexHadError recordedTokens lexHadError curTok
                           identifierStr numVal lastLocation outs] in *.
      repeat split; assumption.
    + destruct (nextChar_spec st) as (Ha & _ & _ & _ & Hdec). specialize (Hdec Hne).
      destruct (IH (isdigit c) (nextChar st) tail) as (st' & E & Hr' & Hw' & Hk);
        [now apply (nextChar_reads st c)|assumption..|].
      exists st'. split.
      { intros [|fuel] idStr Hf; [cbn [length] in Hf; lia|]. cbn [readIdentifier].
        rewrite Hl, Hc, Ed. rewrite E by (cbn [length] in Hf; lia).
        now rewrite <- app_assoc. }
      split; [assumption|]. split; [cbn [length]; lia|].
      destruct (noDigitPair (isdigit c) w).
      * eapply agree_trans; eassumption.
      * destruct Ha as (A1 & A2 & A3 & A4 & A5 & A6 & A7 & A8).
        destruct Hk as (B1 & B2 & B3 & B4 & B5 & B6 & B7).
        unfold flagged. repeat split; congruence.
Qed.

Lemma dots_cons c w : dots (c :: w) = ((if Z.eqb c 46 then 1 else 0) + dots w)%nat.
Proof.
  unfold dots. cbn [List.filter]. rewrite (Z.eqb_sym 46 c).
  destruct (c =? 46); reflexivity.
Qed.

Lemma readNumber_run w :
  forall (seenDot prevDot : bool) st tail,
    reads st (w ++ tail) -> forallb isNumberChar w = true ->
    isNumberChar (hd EOF tail) = false ->
    (prevDot = true -> seenDot = true) ->
    exists st',
      (forall fuel numStr (err : bool), (length w < fuel)%nat ->
         readNumber fuel numStr seenDot prevDot err st =
           Some (numStr ++ w,
                 err || (if seenDot then (1 <=? dots w)%nat else (2 <=? dots w)%nat),
                 st')) /\
      reads st' tail /\ agree st st' /\ (work st' + length w <= work st)%nat.
Proof.
  induction w as [|c w IH]; intros seenDot prevDot st tail Hr Hw Ht Hpd.
  - exists st. split.
    { intros [|fuel] numStr err Hf; [cbn [length] in Hf; lia|]. cbn [readNumber].
      cbn [app] in Hr. rewrite (reads_lastChar _ _ Hr).
      unfold isNumberChar in Ht. rewrite Ht, app_nil_r.
      destruct seenDot; cbn; now rewrite orb_false_r. }
    split; [assumption|]. split; [apply agree_refl|cbn; lia].
  - cbn [forallb] in Hw. apply andb_prop in Hw as [Hc Hw].
    pose proof (reads_lastChar _ _ Hr) as Hl. cbn [app hd] in Hl.
    unfold isNumberChar in Hc.
    assert (Hne : lastChar st <> EOF) by (rewrite Hl; intros ->; discriminate).
    destruct (nextChar_spec st) as (Ha & _ & _ & _ & Hdec). specialize (Hdec Hne).
    rewrite dots_cons. destruct (c =? 46) eqn:Edot.
    + destruct (IH true true (nextChar st) tail) as (st' & E & Hr' & Ha' & Hw');
        [now apply (nextChar_reads st c)|assumption..|reflexivity|].
      exists st'. split.
      { intros [|fuel] numStr err Hf; [cbn [length] in Hf; lia|]. cbn [readNumber].
        rewrite Hl, !Edot, Hc. rewrite E by (cbn [length] in Hf; lia).
        rewrite <- app_assoc. f_equal. f_equal. f_equal.
        destruct seenDot, prevDot, err; try reflexivity;
          try (now specialize (Hpd eq_refl)); cbn; destruct (dots w); reflexivity. }
      split; [assumption|]. split; [eapply agree_trans; eassumption|cbn [length]; lia].
    + destruct (IH seenDot false (nextChar st) tail) as (st' & E & Hr' & Ha' & Hw');
        [now apply (nextChar_reads st c)|assumption..|discriminate|].
      exists st'. split.
      { intros [|fuel] numStr err Hf; [cbn [length] in Hf; lia|]. cbn [readNumber].
        rewrite Hl, !Edot, Hc. rewrite E by (cbn [length] in Hf; lia).
        now rewrite <- app_assoc. }
      split; [assumption|]. split; [eapply agree_trans; eassumption|cbn [length]; lia].
Qed.

Lemma skipComment_run w :
  forall st c0 tail,
    reads st (c0 :: w ++ tail) -> c0 <> EOF -> forallb notEol w = true ->
    notEol (hd EOF tail) = false ->
    exists st',
      (forall fuel, (length w < fuel)%nat -> skipComment fuel st = Some st') /\
      reads st' tail /\ agree st st' /\ (work st' + length w < work st)%nat.
Proof.
  induction w as [|c w IH]; intros st c0 tail Hr Hc0 Hw Ht;
    pose proof (nextChar_reads st c0 _ Hr) as Hr1;
    pose proof (reads_lastChar _ _ Hr) as Hl0; cbn [hd] in Hl0;
    destruct (nextChar_spec st) as (Ha & _ & _ & _ & Hdec);
    specialize (Hdec ltac:(congruence));
    pose proof (reads_lastChar _ _ Hr1) as Hl; cbn [app hd] in Hl.
  - exists (nextChar st). split.
    { intros [|fuel] Hf; [cbn [length] in Hf; lia|]. cbn [skipComment].
      rewrite Hl. unfold notEol in Ht. now rewrite Ht. }
    split; [assumption|]. split; [assumption|cbn [length]; lia].
  - cbn [forallb] in Hw. apply andb_prop in Hw as [Hc Hw].
    destruct (IH (nextChar st) c tail) as (st' & E & Hr' & Ha' & Hw');
      [assumption| |assumption..|].
    { intros ->. discriminate. }
    exists st'. split.
    { intros [|fuel] Hf; [cbn [length] in Hf; lia|]. cbn [skipComment].
      rewrite Hl. pose proof Hc as Hc'. unfold notEol in Hc'. rewrite Hc'.
      apply E. cbn [length] in Hf. lia. }
    split; [assumption|].
    split; [eapply agree_trans; eassumption|cbn [length]; lia].
Qed.


(** ** One token *)

Lemma reads_frame st st' l :
  lastChar st' = lastChar st -> curLineBuffer st' = curLineBuffer st ->
  current st' = current st -> reads st l -> reads st' l.
Proof. unfold reads, pending. intros -> -> ->. tauto. Qed.

Lemma work_frame st st' :
  lastChar st' = lastChar st -> curLineBuffer st' = curLineBuffer st ->
  current st' = current st -> work st' = work st.
Proof. unfold work. now intros -> -> ->. Qed.

(** A word of characters of a class which [EOF] is not in is no longer than
    the work left. *)
Lemma reads_work (P : Z -> bool) st w tail :
  P EOF = false -> reads st (w ++ tail) -> forallb P w = true ->
  (length w <= work st)%nat.
Proof.
  intros HP [Hl Hp] Hw. destruct w as [|c w]; [cbn; lia|].
  cbn [app hd tl forallb] in *. apply andb_prop in Hw as [Hc _].
  assert (Hne : (lastChar st =? EOF) = false).
  { apply Z.eqb_neq. rewrite Hl. intros ->. congruence. }
  unfold work. rewrite Hne.
  assert (H : (length (pending st) <= length (curLineBuffer st) + length (current st))%nat).
  { unfold pending. rewrite length_app. pose proof (length_untilNul (current st)). lia. }
  rewrite Hp, length_app in H. cbn [length]. lia.
Qed.

(** The end of the input, and a character that is a token by itself. *)
Lemma lexCharacter_eof st :
  lastChar st = EOF ->
  lexCharacter st = (tok_eof, write_outs (record st tok_eof) [OutStr ("EOF" ++ newline)]).
Proof. intros H. unfold lexCharacter. now rewrite H. Qed.

Lemma lexCharacter_char st c l :
  reads st (c :: l) -> c <> EOF ->
  exists st',
    lexCharacter st = (c, st') /\ reads st' l /\
    recordedTokens st' = recordedTokens st ++ [c] /\
    lexHadError st' = lexHadError st /\ curTok st' = curTok st /\
    identifierStr st' = identifierStr st /\ numVal st' = numVal st /\
    lastLocation st' = lastLocation st /\ errs st' = errs st /\
    (work st' < work st)%nat.
Proof.
  intros Hr Hc. pose proof (reads_lastChar _ _ Hr) as Hl. cbn [hd] in Hl.
  unfold lexCharacter. rewrite Hl. apply Z.eqb_neq in Hc as Hc'. rewrite Hc'.
  set (st1 := write_outs st [OutStr ""; OutChar c; OutStr " "]).
  assert (Hsingle : forall st2 : Lexer double,
    lastChar st2 = c -> curLineBuffer st2 = curLineBuffer st -> current st2 = current st ->
    recordedTokens st2 = recordedTokens st ++ [c] ->
    lexHadError st2 = lexHadError st -> curTok st2 = curTok st ->
    identifierStr st2 = identifierStr st -> numVal st2 = numVal st ->
    lastLocation st2 = lastLocation st -> errs st2 = errs st ->
    reads (nextChar st2) l /\
    recordedTokens (nextChar st2) = recordedTokens st ++ [c] /\
    lexHadError (nextChar st2) = lexHadError st /\ curTok (nextChar st2) = curTok st /\
    identifierStr (nextChar st2) = identifierStr st /\ numVal (nextChar st2) = numVal st /\
    lastLocation (nextChar st2) = lastLocation st /\ errs (nextChar st2) = errs st /\
    (work (nextChar st2) < work st)%nat).
  { intros st2 H1 H2 H3 H4 H5 H6 H7 H8 H9 H10.
    destruct (nextChar_spec st2) as ((A1 & A2 & A3 & A4 & A5 & A6 & A7 & A8) & _ & _ & _ & Hdec).
    split. { apply (nextChar_reads st2 c). apply (reads_frame st); congruence. }
    rewrite <- (work_frame st st2) by congruence.
    repeat split; try congruence. apply Hdec. congruence. }
  assert (Hrec : forall tok, tok = c ->
    exists st', (tok, nextChar (record st1 tok)) = (c, st') /\ reads st' l /\
      recordedTokens st' = recordedTokens st ++ [c] /\
      lexHadError st' = lexHadError st /\ curTok st' = curTok st /\
      identifierStr st' = identifierStr st /\ numVal st' = numVal st /\
      lastLocation st' = lastLocation st /\ errs st' = errs st /\
      (work st' < work st)%nat).
  { intros tok ->. eexists. split; [reflexivity|]. apply Hsingle; try reflexivity; assumption. }
  repeat (match goal with
          | |- context [c =? ?k] =>
              destruct (Z.eqb_spec c k) as [E|_]; [apply Hrec; rewrite E; reflexivity|]
          end).
  destruct (nextChar_spec st1)
    as ((A1 & A2 & A3 & A4 & A5 & A6 & A7 & A8) & _ & _ & _ & Hdec).
  assert (R1 : reads (nextChar st1) l).
  { apply (nextChar_reads st1 c). eapply reads_frame; [..|exact Hr]; reflexivity. }
  eexists. split; [reflexivity|].
  split. { eapply reads_frame; [..|exact R1]; reflexivity. }
  cbn [record set_recordedTokens recordedTokens lexHadError curTok identifierStr
       numVal lastLocation errs].
  rewrite (work_frame (nextChar st1)) by reflexivity.
  rewrite <- (work_frame st st1) by reflexivity.
  rewrite A1, A2, A3, A4, A5, A6, A8.
  repeat split. apply Hdec. cbn [st1 write_outs lastChar]. congruence.
Qed.


(** What [lexToken] returns on a word of identifier characters that starts
    with a letter or an underscore. *)
Lemma lexToken_identifier st c w tail :
  reads st ((c :: w) ++ tail) ->
  isalpha c || (c =? 95) = true ->
  forallb isIdentifierChar (c :: w) = true ->
  isIdentifierChar (hd EOF tail) = false ->
  exists st1,
    (forall rec fuel, (length (c :: w) < fuel)%nat ->
       lexToken strtod rec fuel st =
         Some (if noDigitPair false (c :: w)
               then (keyword (c :: w),
                     record (write_outs (set_identifierStr st1 (c :: w))
                               [OutStr ""; OutChars (c :: w); OutStr " "])
                            (keyword (c :: w)))
               else (error, st1))) /\
    reads st1 tail /\ (work st1 + length (c :: w) <= work st)%nat /\
    if noDigitPair false (c :: w) then agree st st1 else flagged st st1.
Proof.
  intros Hr Hc Hw Ht.
  pose proof (reads_lastChar _ _ Hr) as Hl. cbn [app hd] in Hl.
  destruct (readIdentifier_run (c :: w) false st tail Hr Hw Ht)
    as (st1 & E & Hr1 & Hw1 & Hk).
  exists st1. split; [|split; [assumption|split; assumption]].
  intros rec fuel Hf. unfold lexToken. rewrite Hl, Hc, (E fuel []) by assumption.
  destruct (noDigitPair false (c :: w)); reflexivity.
Qed.

Lemma last_snoc_digit (w : list Z) c : last (w ++ [c]) = Some c.
Proof. apply last_snoc. Qed.

Lemma validNumber_spec c w :
  negb (validNumber (c :: w)) =
  ((c =? 46) || (2 <=? dots (c :: w))%nat) ||
  negb (match last (c :: w) with Some b => isdigit b | None => false end).
Proof.
  unfold validNumber. cbn [hd].
  destruct (c =? 46); cbn [negb andb orb]; [reflexivity|].
  destruct (dots (c :: w)) as [|[|n]]; cbn [Nat.leb negb andb orb]; try reflexivity.
Qed.

(** What [lexToken] returns on a word of digits and dots. *)
Lemma lexToken_number st c w tail :
  reads st ((c :: w) ++ tail) ->
  forallb isNumberChar (c :: w) = true ->
  isNumberChar (hd EOF tail) = false ->
  exists st1,
    (forall rec fuel, (length (c :: w) < fuel)%nat ->
       lexToken strtod rec fuel st =
         Some (if validNumber (c :: w)
               then (tok_number,
                     record (write_outs (set_numVal st1 (strtod (c :: w)))
                               [OutStr ""; OutChars (c :: w); OutStr " "])
                            tok_number)
               else (error,
                     write_errs (set_lexHadError st1 true)
                       [OutInt (curLineNum st1); OutStr ":"; OutInt (curCol st1);
                        OutStr ": "; OutStr "Illegal number format"; OutStr " "]))) /\
    reads st1 tail /\ (work st1 + length (c :: w) <= work st)%nat /\ agree st st1.
Proof.
  intros Hr Hw Ht.
  pose proof (reads_lastChar _ _ Hr) as Hl. cbn [app hd] in Hl.
  pose proof Hw as Hw'. cbn [forallb] in Hw'. apply andb_prop in Hw' as [Hc _].
  assert (Hna : isalpha c || (c =? 95) = false).
  { unfold isNumberChar, isdigit in Hc. unfold isalpha.
    destruct (Z.eqb_spec c 46) as [->|Hne]; [reflexivity|].
    rewrite orb_false_r in Hc. apply andb_prop in Hc as [H1 H2].
    apply Z.leb_le in H1. apply Z.leb_le in H2.
    destruct (Z.leb_spec 65 c); [lia|]. destruct (Z.leb_spec 97 c); [lia|].
    destruct (Z.eqb_spec c 95); [lia|]. reflexivity. }
  unfold isNumberChar in Hc.
  destruct (readNumber_run (c :: w) false false st tail Hr Hw Ht)
    as (st1 & E & Hr1 & Ha1 & Hw1); [discriminate|].
  exists st1. split; [|split; [assumption|split; assumption]].
  intros rec fuel Hf. unfold lexToken. rewrite Hl, Hna, Hc.
  rewrite (E fuel [] (c =? 46)) by assumption. cbn [app].
  pose proof (validNumber_spec c w) as Hv.
  destruct (last (c :: w)) as [back|] eqn:Elast.
  - rewrite <- Hv. destruct (validNumber (c :: w)); reflexivity.
  - exfalso. destruct (exists_last (l := c :: w)) as (w' & b & Ew); [discriminate|].
    rewrite Ew, last_snoc in Elast. discriminate.
Qed.

(** What [lexToken] does on a comment. *)
Lemma lexToken_comment st w tail :
  reads st (35 :: w ++ tail) ->
  forallb notEol w = true -> notEol (hd EOF tail) = false ->
  exists st1,
    (forall rec fuel, (length w < fuel)%nat ->
       lexToken strtod rec fuel st =
         (if negb (hd EOF tail =? EOF) then rec st1 else Some (lexCharacter st1))) /\
    reads st1 tail /\ agree st st1 /\ (work st1 + length w < work st)%nat.
Proof.
  intros Hr Hw Ht.
  pose proof (reads_lastChar _ _ Hr) as Hl. cbn [hd] in Hl.
  destruct (skipComment_run w st 35 tail Hr ltac:(discriminate) Hw Ht)
    as (st1 & E & Hr1 & Ha1 & Hw1).
  exists st1. split; [|split; [assumption|split; assumption]].
  intros rec fuel Hf. unfold lexToken. rewrite Hl.
  change (isalpha 35 || (35 =? 95)) with false.
  change (isdigit 35 || (35 =? 46)) with false. change (35 =? 35) with true. cbn match.
  rewrite E by assumption. now rewrite (reads_lastChar _ _ Hr1).
Qed.

(** What [lexToken] does on any other character, [EOF] included. *)
Lemma lexToken_character rec fuel st l :
  reads st l ->
  isalpha (hd EOF l) || (hd EOF l =? 95) = false ->
  isNumberChar (hd EOF l) = false ->
  hd EOF l <> 35 ->
  lexToken strtod rec fuel st = Some (lexCharacter st).
Proof.
  intros Hr Ha Hn Hc. unfold lexToken.
  rewrite (reads_lastChar _ _ Hr), Ha. unfold isNumberChar in Hn. rewrite Hn.
  apply Z.eqb_neq in Hc. now rewrite Hc.
Qed.


(** ** [getTok] on any input *)

Lemma keyword_cases w :
  keyword w = tok_return \/ keyword w = tok_var \/ keyword w = tok_def \/
  keyword w = tok_identifier.
Proof. unfold keyword. repeat destruct (decide _); tauto. Qed.

Lemma tokenStep_agree st st1 tok st' :
  agree st st1 -> (work st1 <= work st)%nat -> tokenStep st1 tok st' -> tokenStep st tok st'.
Proof.
  intros (A1 & A2 & A3 & A4 & A5 & A6 & A7 & A8) Hw (H1 & H2 & H3 & H4).
  unfold tokenStep. rewrite <- A1, <- A2, <- A3.
  split; [lia|]. split; [|split; [assumption|assumption]].
  destruct H2 as [H2|[H2 H2']]; [now left|right]. split; [assumption|lia].
Qed.

Lemma tokenStep_eof st :
  lastChar st = EOF ->
  tokenStep st tok_eof (write_outs (record st tok_eof) [OutStr ("EOF" ++ newline)]).
Proof.
  intros H. unfold tokenStep.
  rewrite (work_frame st) by reflexivity.
  split; [lia|]. split; [left; split; [reflexivity|exact H]|].
  split; [reflexivity|]. right. split; reflexivity.
Qed.

Lemma lexToken_spec st :
  (forall st2, (work st2 < work st)%nat ->
     exists tok st',
       (forall fuel, (work st2 < fuel)%nat -> getTok_fuel strtod fuel st2 = Some (tok, st')) /\
       tokenStep st2 tok st') ->
  exists tok st',
    (forall fuel, (work st < S fuel)%nat ->
       lexToken strtod (getTok_fuel strtod fuel) (S fuel) st = Some (tok, st')) /\
    tokenStep st tok st'.
Proof.
  intros IH. pose proof (reads_self st) as Hr.
  destruct (isalpha (lastChar st) || (lastChar st =? 95)) eqn:Ea.
  { (* an identifier *)
    destruct (span isIdentifierChar (lastChar st :: pending st) eq_refl)
      as (w & tail & El & Hw & Ht).
    destruct w as [|c w].
    { exfalso. cbn [app] in El. rewrite <- El in Ht. cbn [hd] in Ht.
      unfold isIdentifierChar, isalnum in Ht.
      destruct (isalpha (lastChar st)), (lastChar st =? 95), (isdigit (lastChar st));
        cbn in *; congruence. }
    cbn [app] in El. injection El as Ec El. rewrite Ec in *. rewrite El in Hr.
    change (c :: w ++ tail) with ((c :: w) ++ tail) in Hr.
    destruct (lexToken_identifier st c w tail Hr Ea Hw Ht) as (st1 & E & Hr1 & Hw1 & Hk).
    destruct (noDigitPair false (c :: w)).
    - do 2 eexists. split; [intros fuel Hf; apply E; lia|].
      destruct Hk as (A1 & A2 & A3 & A4 & A5 & A6 & A7 & A8).
      unfold tokenStep. rewrite (work_frame st1) by reflexivity.
      cbn [record write_outs set_identifierStr set_recordedTokens recordedTokens
           lexHadError curTok].
      split; [lia|]. split.
      { right. split; [|cbn [length] in Hw1; lia].
        destruct (keyword_cases (c :: w)) as [H|[H|[H|H]]]; rewrite H; discriminate. }
      split; [assumption|]. right. split; congruence.
    - do 2 eexists. split; [intros fuel Hf; apply E; lia|].
      destruct Hk as (B1 & B2 & B3 & B4 & B5 & B6 & B7).
      unfold tokenStep. split; [lia|]. split.
      { right. split; [discriminate|cbn [length] in Hw1; lia]. }
      split; [assumption|]. left. repeat split; assumption. }
  destruct (isNumberChar (lastChar st)) eqn:En.
  { (* a number *)
    destruct (span isNumberChar (lastChar st :: pending st) eq_refl)
      as (w & tail & El & Hw & Ht).
    destruct w as [|c w].
    { exfalso. cbn [app] in El. rewrite <- El in Ht. cbn [hd] in Ht. congruence. }
    cbn [app] in El. injection El as Ec El. rewrite Ec in *. rewrite El in Hr.
    change (c :: w ++ tail) with ((c :: w) ++ tail) in Hr.
    destruct (lexToken_number st c w tail Hr Hw Ht)
      as (st1 & E & Hr1 & Hw1 & (A1 & A2 & A3 & A4 & A5 & A6 & A7 & A8)).
    destruct (validNumber (c :: w)).
    - do 2 eexists. split; [intros fuel Hf; apply E; lia|].
      unfold tokenStep. rewrite (work_frame st1) by reflexivity.
      cbn [record write_outs set_numVal set_recordedTokens recordedTokens
           lexHadError curTok].
      split; [lia|]. split.
      { right. split; [discriminate|cbn [length] in Hw1; lia]. }
      split; [assumption|]. right. split; congruence.
    - do 2 eexists. split; [intros fuel Hf; apply E; lia|].
      unfold tokenStep. rewrite (work_frame st1) by reflexivity.
      cbn [write_errs set_lexHadError recordedTokens lexHadError curTok].
      split; [lia|]. split.
      { right. split; [discriminate|cbn [length] in Hw1; lia]. }
      split; [assumption|]. left. repeat split; assumption. }
  destruct (Z.eqb_spec (lastChar st) 35) as [Ec|Ec].
  { (* a comment *)
    destruct (span notEol (pending st) eq_refl) as (w & tail & El & Hw & Ht).
    rewrite Ec, El in Hr.
    destruct (lexToken_comment st w tail Hr Hw Ht) as (st1 & E & Hr1 & Ha1 & Hw1).
    destruct (hd EOF tail =? EOF) eqn:Ee; cbn [negb] in E.
    - apply Z.eqb_eq in Ee. pose proof (reads_lastChar _ _ Hr1) as Hl1.
      rewrite Ee in Hl1.
      exists tok_eof, (write_outs (record st1 tok_eof) [OutStr ("EOF" ++ newline)]).
      split; [intros fuel Hf; rewrite E by lia; now rewrite lexCharacter_eof|].
      apply (tokenStep_agree st st1); [assumption|lia|].
      now apply tokenStep_eof.
    - destruct (IH st1) as (tok & st' & E' & Hstep); [lia|].
      exists tok, st'. split.
      { intros fuel Hf. rewrite E by lia. apply E'. lia. }
      apply (tokenStep_agree st st1); [assumption|lia|assumption]. }
  (* any other character *)
  assert (E : forall fuel, lexToken strtod (getTok_fuel strtod fuel) (S fuel) st
                           = Some (lexCharacter st)).
  { intros fuel. apply (lexToken_character _ _ _ _ Hr); assumption. }
  destruct (Z.eqb_spec (lastChar st) EOF) as [Ee|Ee].
  - exists tok_eof, (write_outs (record st tok_eof) [OutStr ("EOF" ++ newline)]).
    split; [intros fuel _; rewrite E; now rewrite lexCharacter_eof|].
    now apply tokenStep_eof.
  - destruct (lexCharacter_char st (lastChar st) (pending st) Hr Ee)
      as (st' & E' & Hr' & R1 & R2 & R3 & R4 & R5 & R6 & R7 & Hw').
    exists (lastChar st), st'. split; [intros fuel _; now rewrite E, E'|].
    unfold tokenStep. split; [lia|]. split; [right; split; [assumption|lia]|].
    split; [assumption|]. right. split; assumption.
Qed.

Lemma getTok_fuel_spec n :
  forall st, (work st <= n)%nat ->
    exists tok st',
      (forall fuel, (work st < fuel)%nat -> getTok_fuel strtod fuel st = Some (tok, st')) /\
      tokenStep st tok st'.
Proof.
  induction n as [n IH] using lt_wf_ind. intros st Hn.
  destruct (span isspace (lastChar st :: pending st) eq_refl) as (sp & l & El & Hsp & Hl).
  pose proof (reads_self st) as Hr. rewrite El in Hr.
  destruct (skipSpaces_run sp st l Hr Hsp Hl) as (sk & Esk & Hrk & Hak & Hwk).
  pose proof (reads_work isspace st sp l eq_refl Hr Hsp) as Hlen.
  set (st1 := set_lastLocation sk
                (mkLocation (file (lastLocation sk)) (curLineNum sk) (curCol sk))).
  assert (Hw1 : work st1 = work sk) by (apply work_frame; reflexivity).
  destruct (lexToken_spec st1) as (tok & st' & E & Hstep).
  { intros st2 H2. apply (IH (work st2)); lia. }
  exists tok, st'. split.
  - intros [|fuel] Hf; [lia|]. cbn [getTok_fuel]. rewrite Esk by lia.
    apply E. lia.
  - destruct Hak as (A1 & A2 & A3 & A4 & A5 & A6 & A7 & A8).
    destruct Hstep as (H1 & H2 & H3 & H4). unfold tokenStep.
    cbn [st1 set_lastLocation recordedTokens lexHadError curTok] in *.
    rewrite <- A1, <- A2, <- A3.
    split; [lia|]. split; [|split; assumption].
    destruct H2 as [H2|[H2 H2']]; [now left|right]. split; [assumption|lia].
Qed.


Lemma getTok_unfold st sp l :
  reads st (sp ++ l) -> forallb isspace sp = true -> isspace (hd EOF l) = false ->
  exists sk fuel,
    getTok strtod st =
      lexToken strtod (getTok_fuel strtod fuel) (S fuel)
        (set_lastLocation sk
           (mkLocation (file (lastLocation sk)) (curLineNum sk) (curCol sk))) /\
    (length (sp ++ l) < S fuel)%nat /\ (work st <= fuel)%nat /\
    reads sk l /\ agree st sk /\ (work sk + length sp <= work st)%nat.
Proof.
  intros Hr Hsp Hl.
  destruct (skipSpaces_run sp st l Hr Hsp Hl) as (sk & Esk & Hrk & Hak & Hwk).
  pose proof (reads_budget st _ Hr) as Hb. pose proof (work_budget st) as Hwb.
  exists sk, (S (length (curLineBuffer st) + length (current st))).
  unfold getTok. unfold budget in *. cbn [getTok_fuel].
  rewrite Esk by (rewrite length_app in Hb; lia).
  split; [reflexivity|]. split; [lia|]. split; [lia|].
  split; [assumption|]. split; assumption.
Qed.

Lemma isspace_not_token c :
  isalpha c || (c =? 95) = true \/ isNumberChar c = true \/ c = 35 ->
  isspace c = false.
Proof.
  unfold isspace, isalpha, isNumberChar, isdigit. intros H.
  destruct (Z.eqb_spec c 32) as [->|H32].
  { exfalso. destruct H as [H|[H|H]]; cbn in H; discriminate. }
  cbn [orb]. apply andb_false_iff.
  destruct (Z.leb_spec 9 c) as [H9|]; [|now left]. right.
  destruct (Z.leb_spec c 13) as [H13|]; [|reflexivity]. exfalso.
  destruct H as [H|[H|H]]; [| |lia].
  - apply orb_prop in H as [H|H]; [apply orb_prop in H as [H|H]|];
      [apply andb_prop in H as [H1 H2]; apply Z.leb_le in H1; lia..|].
    apply Z.eqb_eq in H. lia.
  - apply orb_prop in H as [H|H]; [apply andb_prop in H as [H1 H2]; apply Z.leb_le in H1; lia|].
    apply Z.eqb_eq in H. lia.
Qed.

(** ** What [getTok] returns *)

(** X12.  [getTok] always returns.  The token it returns is [tok_eof] only when
    no character is left, and then the lexer holds [EOF]; with any other token
    at least one character of the input was taken. *)
Theorem getTok_returns st :
  exists tok st',
    getTok strtod st = Some (tok, st') /\
    (work st' <= work st)%nat /\
    ((tok = tok_eof /\ lastChar st' = EOF) \/
     (tok <> tok_eof /\ (work st' < work st)%nat)).
Proof.
  destruct (getTok_fuel_spec (work st) st (Nat.le_refl _)) as (tok & st' & E & H1 & H2 & _).
  exists tok, st'. split; [apply E, work_budget|]. split; assumption.
Qed.

(** X13.  The bookkeeping of [getTok].  A call either returns [Token::error],
    sets the error flag and adds nothing to the recorded tokens, or adds the
    token it returns to the recorded tokens and leaves the error flag as it was.
    The current token is not touched. *)
Theorem getTok_records st tok st' :
  getTok strtod st = Some (tok, st') ->
  curTok st' = curTok st /\
  ((tok = error /\ lexHadError st' = true /\ recordedTokens st' = recordedTokens st) \/
   (lexHadError st' = lexHadError st /\ recordedTokens st' = recordedTokens st ++ [tok])).
Proof.
  intros H.
  destruct (getTok_fuel_spec (work st) st (Nat.le_refl _))
    as (tok0 & st0 & E & _ & _ & H3 & H4).
  unfold getTok in H. rewrite E in H by apply work_budget.
  injection H as <- <-. split; assumption.
Qed.

Lemma getTok_at_eof st :
  lastChar st = EOF ->
  getTok strtod st =
    Some (tok_eof,
          write_outs
            (record (set_lastLocation st
                       (mkLocation (file (lastLocation st)) (curLineNum st) (curCol st)))
                    tok_eof)
            [OutStr ("EOF" ++ newline)]).
Proof.
  intros H. unfold getTok, budget. cbn [getTok_fuel skipSpaces]. rewrite H.
  change (isspace EOF) with false. cbn match.
  unfold lexToken. cbn [set_lastLocation lastChar]. rewrite H.
  change (isalpha EOF || (EOF =? 95)) with false.
  change (isdigit EOF || (EOF =? 46)) with false.
  change (EOF =? 35) with false. cbn match.
  rewrite lexCharacter_eof by exact H. reflexivity.
Qed.

(** X14.  The end of the input is final.  Once [getTok] has returned [tok_eof],
    every later call returns [tok_eof] again: it reads nothing, reports no
    error, and records one more [tok_eof]. *)
Theorem getTok_eof_again st st' :
  getTok strtod st = Some (tok_eof, st') ->
  exists st'',
    getTok strtod st' = Some (tok_eof, st'') /\
    lastChar st'' = EOF /\ pending st'' = pending st' /\
    lexHadError st'' = lexHadError st' /\
    recordedTokens st'' = recordedTokens st' ++ [tok_eof].
Proof.
  intros H.
  destruct (getTok_fuel_spec (work st) st (Nat.le_refl _))
    as (tok & st0 & E & _ & Hp & _).
  unfold getTok in H. rewrite E in H by apply work_budget. injection H as -> ->.
  destruct Hp as [[_ Hl]|[Hne _]]; [|contradiction].
  eexists. split; [now apply getTok_at_eof|].
  cbn [write_outs record set_recordedTokens set_lastLocation lastChar lexHadError
       recordedTokens]. unfold pending.
  cbn [write_outs record set_recordedTokens set_lastLocation curLineBuffer current].
  repeat split. exact Hl.
Qed.

(** X15.  Identifiers and keywords.  In front of the lexer are whitespace, then
    a word of letters, digits and underscores that starts with a letter or an
    underscore and is followed by another character or by the end of the input.
    If no two digits of the word are next to each other, [getTok] returns the
    keyword the word spells, or [tok_identifier], keeps the word, and records
    the token.  Otherwise it returns [Token::error] and sets the error flag; it
    records nothing and the identifier kept is the one of before.  Either way
    the whole word is taken off the input. *)
Theorem getTok_identifier st sp c w tail :
  reads st (sp ++ (c :: w) ++ tail) ->
  forallb isspace sp = true ->
  isalpha c || (c =? 95) = true ->
  forallb isIdentifierChar w = true ->
  isIdentifierChar (hd EOF tail) = false ->
  exists st',
    reads st' tail /\
    if noDigitPair false (c :: w)
    then getTok strtod st = Some (keyword (c :: w), st') /\
         identifierStr st' = c :: w /\
         recordedTokens st' = recordedTokens st ++ [keyword (c :: w)] /\
         lexHadError st' = lexHadError st
    else getTok strtod st = Some (error, st') /\
         identifierStr st' = identifierStr st /\
         recordedTokens st' = recordedTokens st /\
         lexHadError st' = true.
Proof.
  intros Hr Hsp Hc Hw Ht.
  destruct (getTok_unfold st sp ((c :: w) ++ tail) Hr Hsp)
    as (sk & fuel & E & Hlen & _ & Hrk & (A1 & A2 & A3 & A4 & A5 & A6 & A7 & A8) & _).
  { cbn [app hd]. apply isspace_not_token. now left. }
  assert (Hall : forallb isIdentifierChar (c :: w) = true).
  { cbn [forallb]. rewrite Hw, andb_true_r. unfold isIdentifierChar, isalnum.
    destruct (isalpha c), (c =? 95), (isdigit c); cbn in *; congruence. }
  set (st1 := set_lastLocation sk _) in E.
  destruct (lexToken_identifier st1 c w tail) as (st2 & E2 & Hr2 & _ & Hk);
    [eapply reads_frame; [..|exact Hrk]; reflexivity|assumption..|].
  rewrite E2 in E by (rewrite !length_app in Hlen; lia).
  destruct (noDigitPair false (c :: w)).
  - eexists. split; [|split; [exact E|]].
    { eapply reads_frame; [..|exact Hr2]; reflexivity. }
    destruct Hk as (B1 & B2 & B3 & B4 & B5 & B6 & B7 & B8).
    cbn [record write_outs set_identifierStr set_recordedTokens recordedTokens
         lexHadError identifierStr st1 set_lastLocation] in *.
    repeat split; congruence.
  - exists st2. split; [assumption|]. split; [exact E|].
    destruct Hk as (B1 & B2 & B3 & B4 & B5 & B6 & B7).
    cbn [st1 set_lastLocation recordedTokens lexHadError identifierStr] in *.
    repeat split; congruence.
Qed.

(** X16.  Numbers.  In front of the lexer are whitespace, then a word of digits
    and dots that is followed by another character or by the end of the input.
    If the word has at most one dot, starts with a digit and ends with a digit,
    [getTok] returns [tok_number], keeps the value [strtod] gives for the word,
    and records the token.  Otherwise it returns [Token::error] and sets the
    error flag; it records nothing and the value kept is the one of before.
    Either way the whole word is taken off the input. *)
Theorem getTok_number st sp c w tail :
  reads st (sp ++ (c :: w) ++ tail) ->
  forallb isspace sp = true ->
  forallb isNumberChar (c :: w) = true ->
  isNumberChar (hd EOF tail) = false ->
  exists st',
    reads st' tail /\
    if validNumber (c :: w)
    then getTok strtod st = Some (tok_number, st') /\
         numVal st' = strtod (c :: w) /\
         recordedTokens st' = recordedTokens st ++ [tok_number] /\
         lexHadError st' = lexHadError st
    else getTok strtod st = Some (error, st') /\
         numVal st' = numVal st /\
         recordedTokens st' = recordedTokens st /\
         lexHadError st' = true.
Proof.
  intros Hr Hsp Hw Ht.
  pose proof Hw as Hw'. cbn [forallb] in Hw'. apply andb_prop in Hw' as [Hc _].
  destruct (getTok_unfold st sp ((c :: w) ++ tail) Hr Hsp)
    as (sk & fuel & E & Hlen & _ & Hrk & (A1 & A2 & A3 & A4 & A5 & A6 & A7 & A8) & _).
  { cbn [app hd]. apply isspace_not_token. right. now left. }
  set (st1 := set_lastLocation sk _) in E.
  destruct (lexToken_number st1 c w tail)
    as (st2 & E2 & Hr2 & _ & (B1 & B2 & B3 & B4 & B5 & B6 & B7 & B8));
    [eapply reads_frame; [..|exact Hrk]; reflexivity|assumption..|].
  rewrite E2 in E by (rewrite !length_app in Hlen; lia).
  destruct (validNumber (c :: w)).
  - eexists. split; [|split; [exact E|]].
    { eapply reads_frame; [..|exact Hr2]; reflexivity. }
    cbn [record write_outs set_numVal set_recordedTokens recordedTokens
         lexHadError numVal st1 set_lastLocation] in *.
    repeat split; congruence.
  - eexists. split; [|split; [exact E|]].
    { eapply reads_frame; [..|exact Hr2]; reflexivity. }
    cbn [write_errs set_lexHadError recordedTokens lexHadError numVal
         st1 set_lastLocation] in *.
    repeat split; congruence.
Qed.

(** X17.  Comments.  In front of the lexer are whitespace, then [#] and the
    characters up to the next line break or the end of the input.  When the
    comment ends at a line break, [getTok] returns what it returns on the input
    from the line break on, from a lexer that has recorded and reported the
    same; when it ends at the end of the input, [getTok] returns [tok_eof]. *)
Theorem getTok_comment st sp w tail :
  reads st (sp ++ 35 :: w ++ tail) ->
  forallb isspace sp = true ->
  forallb notEol w = true ->
  notEol (hd EOF tail) = false ->
  exists st1,
    reads st1 tail /\
    recordedTokens st1 = recordedTokens st /\ lexHadError st1 = lexHadError st /\
    curTok st1 = curTok st /\ identifierStr st1 = identifierStr st /\
    numVal st1 = numVal st /\ outs st1 = outs st /\ errs st1 = errs st /\
    if hd EOF tail =? EOF
    then exists st', getTok strtod st = Some (tok_eof, st') /\
                     recordedTokens st' = recordedTokens st ++ [tok_eof] /\
                     lexHadError st' = lexHadError st
    else getTok strtod st = getTok strtod st1.
Proof.
  intros Hr Hsp Hw Ht.
  destruct (getTok_unfold st sp (35 :: w ++ tail) Hr Hsp)
    as (sk & fuel & E & Hlen & Hwf & Hrk & (A1 & A2 & A3 & A4 & A5 & A6 & A7 & A8) & Hwk);
    [reflexivity|].
  set (st1 := set_lastLocation sk _) in E.
  destruct (lexToken_comment st1 w tail)
    as (st2 & E2 & Hr2 & (B1 & B2 & B3 & B4 & B5 & B6 & B7 & B8) & Hw2);
    [eapply reads_frame; [..|exact Hrk]; reflexivity|assumption..|].
  rewrite E2 in E
    by (rewrite length_app in Hlen; cbn [length] in Hlen; rewrite length_app in Hlen; lia).
  assert (Hw1 : work st1 = work sk) by (apply work_frame; reflexivity).
  exists st2. split; [assumption|].
  cbn [st1 set_lastLocation recordedTokens lexHadError curTok identifierStr numVal
       outs errs] in *.
  repeat (split; [congruence|]).
  destruct (hd EOF tail =? EOF) eqn:Ee; cbn [negb] in E.
  - apply Z.eqb_eq in Ee. pose proof (reads_lastChar _ _ Hr2) as Hl2. rewrite Ee in Hl2.
    rewrite lexCharacter_eof in E by assumption.
    eexists. split; [exact E|].
    cbn [write_outs record set_recordedTokens recordedTokens lexHadError].
    split; congruence.
  - rewrite E.
    destruct (getTok_fuel_spec (work st2) st2 (Nat.le_refl _)) as (tok & st' & E' & _).
    unfold getTok. rewrite !E'; [reflexivity|apply work_budget|lia].
Qed.

(** X18.  A character that is a token by itself.  In front of the lexer are
    whitespace, then a character that is no letter, underscore, digit or dot and
    is not [#].  [getTok] returns the character as the token, records it, and
    takes it off the input. *)
Theorem getTok_character st sp c tail :
  reads st (sp ++ c :: tail) ->
  forallb isspace sp = true ->
  isspace c = false -> c <> EOF ->
  isalpha c || (c =? 95) = false -> isNumberChar c = false -> c <> 35 ->
  exists st',
    getTok strtod st = Some (c, st') /\ reads st' tail /\
    recordedTokens st' = recordedTokens st ++ [c] /\
    lexHadError st' = lexHadError st.
Proof.
  intros Hr Hsp Hs He Ha Hn Hc.
  destruct (getTok_unfold st sp (c :: tail) Hr Hsp)
    as (sk & fuel & E & Hlen & _ & Hrk & (A1 & A2 & A3 & A4 & A5 & A6 & A7 & A8) & _);
    [exact Hs|].
  set (st1 := set_lastLocation sk _) in E.
  assert (Hr1 : reads st1 (c :: tail)) by (eapply reads_frame; [..|exact Hrk]; reflexivity).
  rewrite (lexToken_character _ _ _ _ Hr1) in E by assumption.
  destruct (lexCharacter_char st1 c tail Hr1 He)
    as (st' & E' & Hr' & R1 & R2 & _).
  rewrite E' in E. exists st'. split; [exact E|]. split; [assumption|].
  cbn [st1 set_lastLocation recordedTokens lexHadError] in *.
  split; congruence.
Qed.

(** ** Lines *)

(** X19.  [readNextLine] cuts the buffer in two: the line and the rest, which
    together are the buffer.  The line holds no zero byte, and no newline except
    as its last character; it is empty only when the buffer is used up or starts
    with a zero byte, and then nothing is taken off the buffer. *)
Theorem readNextLine_splits current line rest :
  readNextLine current = (line, rest) ->
  line ++ rest = current /\
  (0 ∉ line) /\
  (forall k c, line !! k = Some c -> c = 10 -> S k = length line) /\
  (line = [] <-> current = [] \/ hd 1 current = 0).
Proof.
  revert line rest. induction current as [|c current IH]; intros line rest H;
    cbn [readNextLine] in H.
  - injection H as <- <-. repeat split; try (intros; now left).
    + apply not_elem_of_nil.
    + intros k c Hk. discriminate.
  - destruct (Z.eqb_spec c 0) as [->|H0].
    + injection H as <- <-. repeat split; try (intros; now right).
      * apply not_elem_of_nil.
      * intros k c Hk. discriminate.
    + destruct (Z.eqb_spec c 10) as [->|H10].
      * injection H as <- <-. split; [reflexivity|]. split.
        { intros Hin. apply list_elem_of_singleton in Hin. discriminate. }
        split.
        { intros [|k] c Hk; [reflexivity|discriminate]. }
        split; [discriminate|]. intros [?|?]; [discriminate|]. cbn in *. lia.
      * destruct (readNextLine current) as [line' rest'] eqn:E.
        injection H as <- <-. destruct (IH line' rest' eq_refl) as (H1 & H2 & H3 & H4).
        split; [cbn; now rewrite H1|]. split.
        { intros Hin. apply elem_of_cons in Hin as [?|?]; [congruence|contradiction]. }
        split.
        { intros [|k] c' Hk Hc'; cbn in Hk.
          - congruence.
          - cbn [length]. f_equal. now apply (H3 k c'). }
        split; [discriminate|]. intros [?|?]; [discriminate|]. cbn in *. lia.
Qed.


(** ** Positions *)

























(** ** The token dump *)

Context (zero : double).





End LexingProperties.

(** * Properties of the driver *)

(** X22.  Lowering never runs on a module that was not prepared for it.
    Whenever the pass manager holds the lowering to affine loops, the passes in
    front of it are the inliner and, nested on the functions, shape inference,
    canonicalization and common subexpression elimination; and whenever it holds
    the lowering to LLVM, that pass is the last one and the lowering to affine
    loops comes before it. *)
Theorem passPipeline_order emitAction enableOpt :
  (LowerToAffinePass ∈ passPipeline emitAction enableOpt ->
   exists cleanups post,
     passPipeline emitAction enableOpt =
       [InlinerPass;
        Nest PonyFuncOp [ShapeInferencePass; CanonicalizerPass; CSEPass];
        LowerToAffinePass;
        Nest FuncOp cleanups] ++ post) /\
  (LowerToLLVMPass ∈ passPipeline emitAction enableOpt ->
   exists pre,
     passPipeline emitAction enableOpt = pre ++ [LowerToLLVMPass] /\
     LowerToAffinePass ∈ pre).
Proof.
  split; intros H; destruct emitAction, enableOpt; cbn in *;
    repeat match goal with
           | H : _ ∈ [] |- _ => apply elem_of_nil in H; contradiction
           | H : _ ∈ _ :: _ |- _ => apply elem_of_cons in H as [H|H]; [discriminate|]
           end.
  all: try (do 2 eexists; reflexivity).
  all: match goal with
       | |- exists pre, [?a; ?b; ?c; ?d; LowerToLLVMPass] = _ /\ _ => exists [a; b; c; d]
       end; split; [reflexivity|];
       do 2 apply list_elem_of_further; apply list_elem_of_here.
Qed.

(** X23.  [main] never reports that no action was specified.  Without an action
    on the command line it loads and processes the input like for the dump of
    the MLIR module, dumps the module, and returns 0. *)
Theorem main_never_reports_no_action
    emitAction dumpToken dumpAST loadAndProcessMLIR dumpLLVMIR runJit :
  (forall s, ErrorMessage s ∉
             snd (main emitAction dumpToken dumpAST loadAndProcessMLIR dumpLLVMIR runJit)) /\
  main NoAction dumpToken dumpAST loadAndProcessMLIR dumpLLVMIR runJit =
    main DumpMLIR dumpToken dumpAST loadAndProcessMLIR dumpLLVMIR runJit /\
  main NoAction dumpToken dumpAST 0 dumpLLVMIR runJit = (0, [ModuleDump]).
Proof.
  split; [|split; reflexivity].
  intros s H. destruct emitAction; cbn in H;
    destruct (loadAndProcessMLIR =? 0); cbn in H;
    repeat match goal with
           | H : _ ∈ [] |- _ => apply elem_of_nil in H; contradiction
           | H : _ ∈ _ :: _ |- _ => apply elem_of_cons in H as [H|H]; [discriminate|]
           end.
Qed.

(** * The lexer and the driver at concrete inputs

    A number is kept as the characters it was read from. *)

Lemma getTok_records_witness :
  let st := LexerBuffer (chars "a = 1..2") "in.pony" ([] : list Z) in
  exists tok st',
    getTok (fun s => s) st = Some (tok, st') /\
    curTok st' = curTok st /\
    ((tok = error /\ lexHadError st' = true /\ recordedTokens st' = recordedTokens st) \/
     (lexHadError st' = lexHadError st /\ recordedTokens st' = recordedTokens st ++ [tok])).
Proof.
  intros st.
  destruct (getTok (fun s => s) st) as [[tok st']|] eqn:E;
    [|vm_compute in E; discriminate].
  exists tok, st'. split; [reflexivity|].
  exact (getTok_records (fun s => s) st tok st' E).
Defined.

Lemma getTok_eof_again_witness :
  let st := LexerBuffer [] "in.pony" ([] : list Z) in
  exists st' st'',
    getTok (fun s => s) st = Some (tok_eof, st') /\
    getTok (fun s => s) st' = Some (tok_eof, st'') /\
    lastChar st'' = EOF /\ pending st'' = pending st' /\
    lexHadError st'' = lexHadError st' /\
    recordedTokens st'' = [tok_eof; tok_eof].
Proof.
  intros st.
  destruct (getTok (fun s => s) st) as [[tok st']|] eqn:E;
    [|vm_compute in E; discriminate].
  pose proof E as E'. vm_compute in E'. injection E' as <- <-.
  destruct (getTok_eof_again (fun s => s) st _ E)
    as (st'' & Hagain & Hlast & Hpending & Herr & Hrec).
  eexists _, st''. split; [reflexivity|]. split; [exact Hagain|].
  split; [exact Hlast|]. split; [exact Hpending|]. split; [exact Herr|].
  exact Hrec.
Defined.

Lemma getTok_identifier_witness :
  let st := LexerBuffer (chars "var x1") "in.pony" ([] : list Z) in
  exists st',
    reads st' (chars " x1") /\
    getTok (fun s => s) st = Some (tok_var, st') /\
    identifierStr st' = chars "var" /\
    recordedTokens st' = [tok_var] /\
    lexHadError st' = false.
Proof.
  intros st.
  apply (getTok_identifier (fun s => s) st [32; 10] 118 [97; 114] (chars " x1")).
  - split; reflexivity.
  - reflexivity.
  - reflexivity.
  - reflexivity.
  - reflexivity.
Defined.

Lemma getTok_number_witness :
  let st := LexerBuffer (chars "3.14)") "in.pony" ([] : list Z) in
  exists st',
    reads st' (chars ")") /\
    getTok (fun s => s) st = Some (tok_number, st') /\
    numVal st' = chars "3.14" /\
    recordedTokens st' = [tok_number] /\
    lexHadError st' = false.
Proof.
  intros st.
  apply (getTok_number (fun s => s) st [32; 10] 51 [46; 49; 52] (chars ")")).
  - split; reflexivity.
  - reflexivity.
  - reflexivity.
  - reflexivity.
Defined.

Lemma getTok_comment_witness :
  let st := LexerBuffer (chars "# c" ++ [10; 120]) "in.pony" ([] : list Z) in
  exists st1,
    reads st1 [10; 120] /\
    recordedTokens st1 = recordedTokens st /\ lexHadError st1 = lexHadError st /\
    curTok st1 = curTok st /\ identifierStr st1 = identifierStr st /\
    numVal st1 = numVal st /\ outs st1 = outs st /\ errs st1 = errs st /\
    getTok (fun s => s) st = getTok (fun s => s) st1.
Proof.
  intros st.
  apply (getTok_comment (fun s => s) st [32; 10] (chars " c") [10; 120]).
  - split; reflexivity.
  - reflexivity.
  - reflexivity.
  - reflexivity.
Defined.

Lemma getTok_character_witness :
  let st := LexerBuffer (chars "+1") "in.pony" ([] : list Z) in
  exists st',
    getTok (fun s => s) st = Some (43, st') /\ reads st' (chars "1") /\
    recordedTokens st' = [43] /\
    lexHadError st' = false.
Proof.
  intros st.
  apply (getTok_character (fun s => s) st [32; 10] 43 (chars "1")).
  - split; reflexivity.
  - reflexivity.
  - reflexivity.
  - unfold EOF. lia.
  - reflexivity.
  - reflexivity.
  - lia.
Defined.


Lemma readNextLine_splits_witness :
  let current := [97; 98; 10; 99; 100] in
  let line := [97; 98; 10] in
  let rest := [99; 100] in
  readNextLine current = (line, rest) /\
  line ++ rest = current /\
  (0 ∉ line) /\
  (forall k c, line !! k = Some c -> c = 10 -> S k = length line) /\
  (line = [] <-> current = [] \/ hd 1 current = 0).
Proof.
  intros current line rest.
  assert (H : readNextLine current = (line, rest)) by reflexivity.
  split; [exact H|]. exact (readNextLine_splits current line rest H).
Defined.

Lemma passPipeline_order_witness :
  LowerToLLVMPass ∈ passPipeline RunJIT false /\
  exists pre,
    passPipeline RunJIT false = pre ++ [LowerToLLVMPass] /\
    LowerToAffinePass ∈ pre.
Proof.
  assert (H : LowerToLLVMPass ∈ passPipeline RunJIT false)
    by (vm_compute; repeat constructor).
  split; [exact H|]. exact (proj2 (passPipeline_order RunJIT false) H).
Defined.

(** A byte that reads as [EOF] ends the token dump: what follows it, here
    the malformed number [1..2], is never read, and no error is reported. *)
Example dumpToken_stops_at_eof_byte :
  let buffer := chars "a " ++ [EOF] ++ chars " 1..2" in
  option_map (fun lexer => (pending lexer, hadLexError lexer, getRecordedTokens lexer))
             (scanFile (fun s => s) [] buffer "in.pony")
    = Some (chars " 1..2", false, [tok_identifier; tok_eof]) /\
  option_map (fun r => fst (fst r)) (dumpToken (fun s => s) [] Pony (inr buffer) "in.pony")
    = Some 0.
Proof. split; vm_compute; reflexivity. Qed.
